(** * Aleks Food Map: the catalog query pipeline of App.jsx

    A shallow embedding of the data-shaping code of the application
    (URL state, local edit overlay, merge, filter, sort) and the
    properties its specification states about it.

    Two copies of App.jsx are part of the repository.  The development
    follows the hardened copy (the one with [basePlaces],
    [placesWithCoords] and the coordinate guards in the [nearest]
    comparator); module [Legacy] at the end of the definitions records
    the places where src/App.jsx differs.

    JavaScript values are modelled as JSON values, objects as finite maps
    from property names to values, numbers as exact rationals together
    with NaN (infinities and floating-point rounding are not modelled),
    strings as Rocq strings, sequences of 8-bit characters.  What the code takes from the platform
    (Array.prototype.sort, localeCompare, toLowerCase, trim, the
    conversions between numbers and strings, JSON.parse, Math) is a record
    [Engine]; the laws a theorem needs from it are the predicate
    [conforming]. *)

From Stdlib Require Import QArith Qcanon Qround Ascii DecimalString.
From Stdlib Require OrderedTypeEx.
From stdpp Require Import gmap strings list fin_maps numbers sorting.

#[local] Set Warnings "-register-all,-clear-no-such-hyp".
#[local] Open Scope Qc_scope.
#[local] Open Scope string_scope.

(** ** JavaScript values *)

Module JS.

(** A JavaScript number: NaN or a finite value. *)
Inductive num := NaN | Fin (x : Qc).

(** JSON values, and [undefined] for what a missing property reads as. *)
Inductive value :=
  | VUndef
  | VNull
  | VBool (b : bool)
  | VNum (x : Qc)
  | VStr (s : string)
  | VArr (l : list value)
  | VObj (o : gmap string value).

(** The result of an evaluation that may raise. *)
Inductive completion (A : Type) := Normal (a : A) | Throw.
Arguments Normal {A} a.
Arguments Throw {A}.

Definition bind {A B} (c : completion A) (k : A → completion B) : completion B :=
  match c with Normal a => k a | Throw => Throw end.

(** [try { body } catch { handler }] *)
Definition try_catch {A} (body handler : completion A) : completion A :=
  match body with Normal a => Normal a | Throw => handler end.

Definition num_eqb (m n : num) : bool :=
  match m, n with
  | Fin x, Fin y => bool_decide (x = y)
  | _, _ => false
  end.

(** [m > 0], [m < n]: comparisons with NaN are false. *)
Definition num_ltb (m n : num) : bool :=
  match m, n with
  | Fin x, Fin y => bool_decide (x < y)
  | _, _ => false
  end.

Definition num_sub (m n : num) : num :=
  match m, n with
  | Fin x, Fin y => Fin (x - y)
  | _, _ => NaN
  end.

(** [Number.isFinite] *)
Definition isFinite (n : num) : bool :=
  match n with Fin _ => true | NaN => false end.

(** ToBoolean *)
Definition ToBoolean (v : value) : bool :=
  match v with
  | VUndef | VNull => false
  | VBool b => b
  | VNum x => negb (bool_decide (x = 0))
  | VStr s => negb (String.eqb s "")
  | VArr _ | VObj _ => true
  end.

(** [a || b] *)
Definition or_else (a b : value) : value := if ToBoolean a then a else b.

(** [typeof v] *)
Definition typeof (v : value) : string :=
  match v with
  | VUndef => "undefined"
  | VNull => "object"
  | VBool _ => "boolean"
  | VNum _ => "number"
  | VStr _ => "string"
  | VArr _ | VObj _ => "object"
  end.

(** The double quote character. *)
Definition dquote : ascii := ascii_of_N 34.

(** [v === s] for a string [s] *)
Definition is_str (v : value) (s : string) : bool :=
  match v with VStr t => String.eqb t s | _ => false end.

(** [v === true] *)
Definition is_true (v : value) : bool :=
  match v with VBool b => b | _ => false end.

(** [Array.prototype.join]: the elements are concatenated with the separator
    between them. *)
Fixpoint join (sep : string) (l : list string) : string :=
  match l with
  | [] => ""
  | [s] => s
  | s :: l' => s ++ sep ++ join sep l'
  end.

(** The character [c] occurs in [s]. *)
Fixpoint occurs (c : ascii) (s : string) : bool :=
  match s with
  | EmptyString => false
  | String d s' => Ascii.eqb c d || occurs c s'
  end.

(** [s] begins with [t]. *)
Fixpoint starts_with (t s : string) : bool :=
  match t with
  | EmptyString => true
  | String c t' =>
      match s with
      | String d s' => Ascii.eqb c d && starts_with t' s'
      | EmptyString => false
      end
  end.

(** [String.prototype.includes]: [t] occurs in [s]. *)
Fixpoint str_includes (s t : string) : bool :=
  starts_with t s ||
  match s with
  | EmptyString => false
  | String _ s' => str_includes s' t
  end.

End JS.
Export JS.

(** ** The platform *)

(** What App.jsx calls and does not define.  A comparison function handed to
    [Array_sort] returns a number; [localeCompare] returns a negative number,
    zero or a positive one; [JSON_parse] returns [None] where JSON.parse
    raises a SyntaxError.  The Math functions are total on the rationals: the
    NaN of a square root or an arc sine outside its domain is not modelled. *)
Record Engine := {
  Array_sort : ∀ A : Type, (A → A → num) → list A → list A;
  localeCompare : string → string → Qc;
  toLowerCase : string → string;
  trim : string → string;
  NumberToString : Qc → string;
  StringToNumber : string → num;
  JSON_parse : string → option value;
  Math_PI : Qc;
  Math_sin : Qc → Qc;
  Math_cos : Qc → Qc;
  Math_asin : Qc → Qc;
  Math_sqrt : Qc → Qc
}.
Arguments Array_sort _ {A} _ _.

Section Coercions.
Context (E : Engine).

(** [String(n)] *)
Definition num_to_string (n : num) : string :=
  match n with NaN => "NaN" | Fin x => NumberToString E x end.

(** ToString; inside [Array.prototype.join], [undefined] and [null] elements
    print as the empty string. *)
Fixpoint ToString (v : value) : string :=
  match v with
  | VUndef => "undefined"
  | VNull => "null"
  | VBool true => "true"
  | VBool false => "false"
  | VNum x => NumberToString E x
  | VStr s => s
  | VArr l =>
      join ","
        (map (λ e, match e with VUndef | VNull => "" | _ => ToString e end) l)
  | VObj _ => "[object Object]"
  end.

(** ToNumber, the function behind [Number(v)]; arrays and objects go
    through their string form. *)
Definition ToNumber (v : value) : num :=
  match v with
  | VUndef => NaN
  | VNull => Fin 0
  | VBool true => Fin 1
  | VBool false => Fin 0
  | VNum x => Fin x
  | VStr s => StringToNumber E s
  | VArr _ | VObj _ => StringToNumber E (ToString v)
  end.

(** The property name of array index [i]. *)
Definition index_key (i : nat) : string :=
  NumberToString E (Qc_of_Z (Z.of_nat i)).

(** The own enumerable string-keyed properties of a value, which is what
    an object spread [{...v}] copies: the entries of an object, the
    elements of an array and the characters of a string under their
    indices, nothing for the other values. *)
Definition own_props (v : value) : gmap string value :=
  match v with
  | VObj o => o
  | VArr l => list_to_map (imap (λ i e, (index_key i, e)) l)
  | VStr s =>
      list_to_map
        (imap (λ i c, (index_key i, VStr (String c EmptyString)))
              (String.list_ascii_of_string s))
  | _ => ∅
  end.

(** [v?.[k]].  Own properties and [length].  A name that only the
    prototype answers (constructor, toString, ...) reads as a function in
    JavaScript, a truthy value without own enumerable properties; it is
    read as [undefined] here, which gives the same merged place. *)
Definition get (v : value) (k : string) : value :=
  match v with
  | VUndef | VNull => VUndef
  | _ =>
      match own_props v !! k with
      | Some x => x
      | None =>
          if String.eqb k "length" then
            match v with
            | VArr l => VNum (Qc_of_Z (Z.of_nat (length l)))
            | VStr s => VNum (Qc_of_Z (Z.of_nat (String.length s)))
            | _ => VUndef
            end
          else VUndef
      end
  end.

End Coercions.

(** A place record, an edit patch: JavaScript objects. *)
Abbreviation place := (gmap string value).

(** [p.k] on a place. *)
Definition field (p : place) (k : string) : value := default VUndef (p !! k).

(** A string in a condition: the empty string is falsy. *)
Definition nonempty (s : string) : bool := negb (String.eqb s "").

(** ** The query string *)

(** [URLSearchParams]: an ordered list of name-value pairs. *)
Module URLSearchParams.

Definition t := list (string * string).

(** [sp.get(name)]: the value of the first pair with that name. *)
Fixpoint get (sp : t) (name : string) : option string :=
  match sp with
  | [] => None
  | (n, v) :: sp' => if String.eqb n name then Some v else get sp' name
  end.

(** [sp.set(name, v)]: the first pair with that name takes the value and
    the other pairs with that name go; without such a pair, a new one is
    appended. *)
Fixpoint set (sp : t) (name v : string) : t :=
  match sp with
  | [] => [(name, v)]
  | (n, w) :: sp' =>
      if String.eqb n name
      then (n, v) :: filter (λ e, negb (String.eqb e.1 name)) sp'
      else (n, w) :: set sp' name v
  end.

(** *** The application/x-www-form-urlencoded format *)

(** The characters the serializer leaves as they are: the letters and
    digits of ASCII and [*], [-], [.], [_]. *)
Definition unreserved (c : ascii) : bool :=
  let n := N_of_ascii c in
  ((48 <=? n) && (n <=? 57) || (65 <=? n) && (n <=? 90) ||
   (97 <=? n) && (n <=? 122) ||
   (n =? 42) || (n =? 45) || (n =? 46) || (n =? 95))%N.

Definition hex_digit (n : N) : ascii :=
  match String.get (N.to_nat n) "0123456789ABCDEF" with
  | Some c => c
  | None => "0"%char
  end.

Definition hex_value (c : ascii) : option N :=
  let n := N_of_ascii c in
  if ((48 <=? n) && (n <=? 57))%N then Some (n - 48)%N
  else if ((65 <=? n) && (n <=? 70))%N then Some (n - 55)%N
  else if ((97 <=? n) && (n <=? 102))%N then Some (n - 87)%N
  else None.

(** One character in the serialization: a space becomes [+], an
    unreserved character stays, any other becomes [%XX]. *)
Definition encode_char (c : ascii) : string :=
  if Ascii.eqb c " " then "+"
  else if unreserved c then String c EmptyString
  else
    let n := N_of_ascii c in
    String "%" (String (hex_digit (n / 16)) (String (hex_digit (n mod 16)) EmptyString)).

Fixpoint encode (s : string) : string :=
  match s with
  | EmptyString => EmptyString
  | String c s' => encode_char c ++ encode s'
  end.

(** [sp.toString()] *)
Definition toString (sp : t) : string :=
  join "&" (map (λ e, encode e.1 ++ "=" ++ encode e.2) sp).

Fixpoint plus_to_space (s : string) : string :=
  match s with
  | EmptyString => EmptyString
  | String c s' => String (if Ascii.eqb c "+" then " "%char else c) (plus_to_space s')
  end.

(** A [%] followed by two hexadecimal digits is the character with that
    code; every other character stands for itself. *)
Fixpoint percent_decode (s : string) : string :=
  match s with
  | EmptyString => EmptyString
  | String c rest =>
      let plain := String c (percent_decode rest) in
      if Ascii.eqb c "%" then
        match rest with
        | String h (String l s') =>
            match hex_value h, hex_value l with
            | Some a, Some b =>
                String (ascii_of_N (a * 16 + b)) (percent_decode s')
            | _, _ => plain
            end
        | _ => plain
        end
      else plain
  end.

Fixpoint split_on (sep : ascii) (s : string) : list string :=
  match s with
  | EmptyString => [EmptyString]
  | String c s' =>
      if Ascii.eqb c sep then EmptyString :: split_on sep s'
      else
        match split_on sep s' with
        | [] => [String c EmptyString]
        | x :: l => String c x :: l
        end
  end.

(** The part before the first [=] and the part after it; the whole and
    the empty string when there is none. *)
Fixpoint break_eq (s : string) : string * string :=
  match s with
  | EmptyString => (EmptyString, EmptyString)
  | String c s' =>
      if Ascii.eqb c "=" then (EmptyString, s')
      else let '(n, v) := break_eq s' in (String c n, v)
  end.

Definition parse (s : string) : t :=
  map (λ piece, let '(n, v) := break_eq piece in
                (percent_decode (plus_to_space n), percent_decode (plus_to_space v)))
      (filter (λ piece, nonempty piece) (split_on "&" s)).

(** [new URLSearchParams(search)]: a leading [?] is dropped. *)
Definition of_search (search : string) : t :=
  match search with
  | String c s' => if Ascii.eqb c "?" then parse s' else parse search
  | EmptyString => parse search
  end.

End URLSearchParams.

(** The state that is mirrored in the URL and read by the filter and the
    sort: the object [parseUrlState] returns and [writeUrlState] takes. *)
Record UrlState := {
  q : string;
  city : string;
  cuisine : string;
  neighborhood : string;
  tag : string;
  minRating : num;
  price : num;
  wouldReturn : bool;
  sort : string
}.

(** [SORTS], the values of the sort control. *)
Definition SORTS : list string := ["top"; "recent"; "name"; "nearest"].

(** [localStorage]: reading raises when the storage is not available. *)
Inductive Storage := Unavailable | Items (m : gmap string string).

Definition getItem (st : Storage) (k : string) : completion (option string) :=
  match st with
  | Unavailable => Throw
  | Items m => Normal (m !! k)
  end.

Definition EDITS_KEY : string := "aleks-food-map:edits:v1".

(** The fields of a place that the edit form writes ([saveEdit]). *)
Definition mutable_fields : gset string :=
  {[ "rating"; "price"; "wouldReturn"; "notes"; "photo" ]}.

(** ** App.jsx *)

Section App.
Context (E : Engine).

(** [haversineMiles(lat1, lon1, lat2, lon2)] *)
Definition haversineMiles (lat1 lon1 lat2 lon2 : Qc) : Qc :=
  let R := Q2Qc 3958.8 in
  let toRad := λ d : Qc, d * Math_PI E / Q2Qc 180 in
  let dLat := toRad (lat2 - lat1) in
  let dLon := toRad (lon2 - lon1) in
  let a :=
    Math_sin E (dLat / 2) ^ 2 +
    Math_cos E (toRad lat1) * Math_cos E (toRad lat2) * Math_sin E (dLon / 2) ^ 2 in
  2 * R * Math_asin E (Math_sqrt E a).

(** [parseUrlState()], as a function of [window.location.search]. *)
Definition parseUrlState (search : string) : UrlState :=
  let sp := URLSearchParams.of_search search in
  {| q := default "" (URLSearchParams.get sp "q");
     city := default "" (URLSearchParams.get sp "city");
     cuisine := default "" (URLSearchParams.get sp "cuisine");
     neighborhood := default "" (URLSearchParams.get sp "hood");
     tag := default "" (URLSearchParams.get sp "tag");
     minRating := StringToNumber E (default "0" (URLSearchParams.get sp "minRating"));
     price := StringToNumber E (default "0" (URLSearchParams.get sp "price"));
     wouldReturn :=
       match URLSearchParams.get sp "return" with
       | Some v => String.eqb v "1"
       | None => false
       end;
     sort := default "top" (URLSearchParams.get sp "sort") |}.

(** The parameters [writeUrlState(state)] sets, in its order. *)
Definition url_params (state : UrlState) : URLSearchParams.t :=
  let sp : URLSearchParams.t := [] in
  let sp := if nonempty (q state) then URLSearchParams.set sp "q" (q state) else sp in
  let sp := if nonempty (city state) then URLSearchParams.set sp "city" (city state) else sp in
  let sp := if nonempty (cuisine state) then URLSearchParams.set sp "cuisine" (cuisine state) else sp in
  let sp := if nonempty (neighborhood state)
            then URLSearchParams.set sp "hood" (neighborhood state) else sp in
  let sp := if nonempty (tag state) then URLSearchParams.set sp "tag" (tag state) else sp in
  let sp := if num_ltb (Fin 0) (minRating state)
            then URLSearchParams.set sp "minRating" (num_to_string E (minRating state)) else sp in
  let sp := if num_ltb (Fin 0) (price state)
            then URLSearchParams.set sp "price" (num_to_string E (price state)) else sp in
  let sp := if wouldReturn state then URLSearchParams.set sp "return" "1" else sp in
  let sp := if nonempty (sort state) && negb (String.eqb (sort state) "top")
            then URLSearchParams.set sp "sort" (sort state) else sp in
  sp.

(** [writeUrlState(state)]: the function replaces the current history
    entry by [next], the path followed by the result below, which is what
    [window.location.search] reads afterwards. *)
Definition writeUrlState (state : UrlState) : string :=
  let sp := url_params state in
  if nonempty (URLSearchParams.toString sp)
  then "?" ++ URLSearchParams.toString sp
  else "".

(** [loadEdits()] *)
Definition loadEdits (storage : Storage) : completion value :=
  try_catch
    (bind (getItem storage EDITS_KEY) (λ raw,
       match raw with
       | None => Normal (VObj ∅)
       | Some raw =>
           if negb (nonempty raw) then Normal (VObj ∅)
           else
             bind (match JSON_parse E raw with
                   | Some v => Normal v
                   | None => Throw
                   end) (λ parsed,
               Normal (if ToBoolean parsed && String.eqb (typeof parsed) "object"
                       then parsed else VObj ∅))
       end))
    (Normal (VObj ∅)).

(** The merge of the base data and the local edits:
    [basePlaces.map((p) => { const patch = edits?.[p.id];
                             return patch ? { ...p, ...patch } : p; })] *)
Definition patch_of (edits : value) (p : place) : value :=
  get E edits (ToString E (field p "id")).

Definition merge_place (edits : value) (p : place) : place :=
  let patch := patch_of edits p in
  if ToBoolean patch then own_props E patch ∪ p else p.

Definition places (basePlaces : list place) (edits : value) : list place :=
  map (merge_place edits) basePlaces.

End App.

Section Pipeline.
Context (E : Engine).

(** [recv.includes(x)] for a string [x]: membership in an array, occurrence
    in a string; the other values have no such method and the call
    raises a TypeError. *)
Definition includes (recv : value) (x : string) : completion bool :=
  match recv with
  | VArr l => Normal (existsb (λ e, is_str e x) l)
  | VStr s => Normal (str_includes s x)
  | _ => Throw
  end.

(** [...v] in an array literal: the elements of an array, the characters of
    a string; the other values are not iterable and the spread raises. *)
Definition spread (v : value) : completion (list value) :=
  match v with
  | VArr l => Normal l
  | VStr s =>
      Normal (map (λ c, VStr (String c EmptyString)) (String.list_ascii_of_string s))
  | _ => Throw
  end.

(** The text a place is searched in:
    [[p.name, p.address, p.city, p.neighborhood, ...(p.cuisine || []),
      ...(p.tags || []), p.notes].filter(Boolean).join(" ").toLowerCase()] *)
Definition hay (p : place) : completion string :=
  bind (spread (or_else (field p "cuisine") (VArr []))) (λ cs,
  bind (spread (or_else (field p "tags") (VArr []))) (λ ts,
    Normal (toLowerCase E
      (join " "
         (map (ToString E)
            (filter (λ v, ToBoolean v)
               ([field p "name"; field p "address"; field p "city";
                 field p "neighborhood"] ++ cs ++ ts ++ [field p "notes"])%list)))))).

(** [if (c) return false; rest] *)
Definition reject_if (c : completion bool) (rest : completion bool) : completion bool :=
  bind c (λ b, if b then Normal false else rest).

(** [a && b], where [b] is evaluated only when [a] holds. *)
Definition and_then (a : bool) (b : completion bool) : completion bool :=
  if a then b else Normal false.

Definition not_c (c : completion bool) : completion bool :=
  bind c (λ b, Normal (negb b)).

(** [typeof p.rating === "number" ? p.rating : 0] *)
Definition rating_or_zero (p : place) : num :=
  match field p "rating" with
  | VNum x => Fin x
  | _ => Fin 0
  end.

(** The callback of [places.filter], with [qq] the trimmed, lower-cased
    search term. *)
Definition keep (st : UrlState) (qq : string) (p : place) : completion bool :=
  reject_if (Normal (nonempty (city st) &&
                     negb (is_str (or_else (field p "city") (VStr "")) (city st))))
  (reject_if (Normal (nonempty (neighborhood st) &&
                      negb (is_str (or_else (field p "neighborhood") (VStr ""))
                                   (neighborhood st))))
  (reject_if (and_then (nonempty (cuisine st))
                (not_c (includes (or_else (field p "cuisine") (VArr [])) (cuisine st))))
  (reject_if (and_then (nonempty (tag st))
                (not_c (includes (or_else (field p "tags") (VArr [])) (tag st))))
  (reject_if (Normal (num_ltb (Fin 0) (price st) &&
                      negb (num_eqb (ToNumber E (or_else (field p "price") (VNum 0)))
                                    (price st))))
  (reject_if (Normal (wouldReturn st && negb (is_true (field p "wouldReturn"))))
  (reject_if (Normal (num_ltb (Fin 0) (minRating st) &&
                      num_ltb (rating_or_zero p) (minRating st)))
  (if negb (nonempty qq) then Normal true
   else bind (hay p) (λ h, Normal (str_includes h qq))))))))).

(** [Array.prototype.filter] with a callback that may raise. *)
Fixpoint filter_c {A} (f : A → completion bool) (l : list A) : completion (list A) :=
  match l with
  | [] => Normal []
  | x :: l' =>
      bind (f x) (λ b,
      bind (filter_c f l') (λ r, Normal (if b then x :: r else r)))
  end.

(** [filtered] *)
Definition filtered (st : UrlState) (places : list place) : completion (list place) :=
  let qq := toLowerCase E (trim E (q st)) in
  filter_c (keep st qq) places.

(** [(v || "")] as the receiver and the argument of [localeCompare]: a
    string.  (A truthy value that is no string has no method
    [localeCompare]; the name and the visit date of a place are text.  The
    calls with their TypeError are [name_callback] and [recent_callback]
    below; on text they return what the comparison functions here
    return.) *)
Definition text_or_empty (v : value) : string :=
  match or_else v (VStr "") with
  | VStr s => s
  | _ => ""
  end.

(** [Number(a.rating) || -1]: NaN and 0 are falsy. *)
Definition top_key (a : place) : Qc :=
  match ToNumber E (field a "rating") with
  | Fin x => if bool_decide (x = 0) then -1 else x
  | NaN => -1
  end.

(** [Number.isFinite(Number(a.lat)) && Number.isFinite(Number(a.lon))] *)
Definition valid_coords (a : place) : bool :=
  isFinite (ToNumber E (field a "lat")) && isFinite (ToNumber E (field a "lon")).

(** The distance of a place from the user: [haversineMiles(myLoc.lat,
    myLoc.lon, Number(a.lat), Number(a.lon))], for finite coordinates. *)
Definition distance (myLoc : Qc * Qc) (a : place) : option Qc :=
  match ToNumber E (field a "lat"), ToNumber E (field a "lon") with
  | Fin lat, Fin lon => Some (haversineMiles E myLoc.1 myLoc.2 lat lon)
  | _, _ => None
  end.

(** The comparison function of the [nearest] strategy. *)
Definition nearest_cmp (myLoc : Qc * Qc) (a b : place) : num :=
  match distance myLoc a with
  | None => Fin 1
  | Some da =>
      match distance myLoc b with
      | None => Fin (-1)
      | Some db => Fin (da - db)
      end
  end.

Definition name_cmp (a b : place) : num :=
  Fin (localeCompare E (text_or_empty (field a "name")) (text_or_empty (field b "name"))).

Definition recent_cmp (a b : place) : num :=
  Fin (localeCompare E (text_or_empty (field b "visitedAt"))
                       (text_or_empty (field a "visitedAt"))).

Definition top_cmp (a b : place) : num := Fin (top_key b - top_key a).

(** [sorted], with [myLoc] the user location when there is one. *)
Definition sorted (st : UrlState) (myLoc : option (Qc * Qc)) (filtered : list place)
    : list place :=
  let arr := filtered in
  if String.eqb (sort st) "name" then Array_sort E name_cmp arr
  else if String.eqb (sort st) "recent" then Array_sort E recent_cmp arr
  else if String.eqb (sort st) "nearest" then
    match myLoc with
    | None => arr
    | Some loc => Array_sort E (nearest_cmp loc) arr
    end
  else Array_sort E top_cmp arr.

End Pipeline.

Section Edits.
Context (E : Engine).

(** The edit form: the values of its five inputs. *)
Record Draft := {
  draft_rating : value;
  draft_price : value;
  draft_wouldReturn : value;
  draft_notes : value;
  draft_photo : value
}.

(** [v === "" ? null : Number.isFinite(Number(v)) ? Number(v) : null] *)
Definition number_or_null (v : value) : value :=
  if is_str v "" then VNull
  else match ToNumber E v with
       | Fin x => VNum x
       | NaN => VNull
       end.

(** The patch [saveEdit] builds from the draft. *)
Definition draft_patch (draft : Draft) : gmap string value :=
  <[ "rating" := number_or_null (draft_rating draft) ]>
  (<[ "price" := number_or_null (draft_price draft) ]>
  (<[ "wouldReturn" := VBool (ToBoolean (draft_wouldReturn draft)) ]>
  (<[ "notes" := or_else (draft_notes draft) (VStr "") ]>
  (<[ "photo" := or_else (draft_photo draft) VNull ]> ∅)))).

(** The state update of [saveEdit(id)]:
    [{ ...(prev || {}), [id]: { ...((prev || {})[id] || {}), ...patch } }] *)
Definition saveEdit (id : value) (draft : Draft) (prev : value) : value :=
  let prev' := or_else prev (VObj ∅) in
  let key := ToString E id in
  VObj (<[ key := VObj (draft_patch draft ∪
                        own_props E (or_else (get E prev' key) (VObj ∅))) ]>
        (own_props E prev')).

End Edits.

(** ** App.jsx: the filter controls *)

(** The filter state after [clearFilters()]. *)
Definition clearFilters : UrlState :=
  {| q := ""; city := ""; cuisine := ""; neighborhood := ""; tag := "";
     minRating := Fin 0; price := Fin 0; wouldReturn := false; sort := "top" |}.

(** [applyFeatured(which)]: the filter state after the call, from the state
    before it.  The function resets every filter but the sort, and then sets
    the sort and one filter by [which]; of two calls of a setter the later
    one counts. *)
Definition applyFeatured (which : string) (st : UrlState) : UrlState :=
  if String.eqb which "top" then
    {| q := ""; city := ""; cuisine := ""; neighborhood := ""; tag := "";
       minRating := Fin (Q2Qc 4.5); price := Fin 0; wouldReturn := false; sort := "top" |}
  else if String.eqb which "date-night" then
    {| q := ""; city := ""; cuisine := ""; neighborhood := ""; tag := "date-night";
       minRating := Fin 0; price := Fin 0; wouldReturn := false; sort := "top" |}
  else if String.eqb which "late-night" then
    {| q := ""; city := ""; cuisine := ""; neighborhood := ""; tag := "late-night";
       minRating := Fin 0; price := Fin 0; wouldReturn := false; sort := "top" |}
  else if String.eqb which "cheap" then
    {| q := ""; city := ""; cuisine := ""; neighborhood := ""; tag := "";
       minRating := Fin 0; price := Fin 1; wouldReturn := false; sort := "top" |}
  else if String.eqb which "recent" then
    {| q := ""; city := ""; cuisine := ""; neighborhood := ""; tag := "";
       minRating := Fin 0; price := Fin 0; wouldReturn := false; sort := "recent" |}
  else
    {| q := ""; city := ""; cuisine := ""; neighborhood := ""; tag := "";
       minRating := Fin 0; price := Fin 0; wouldReturn := false; sort := sort st |}.

(** [setMinRating(m)]: the state with another minimum rating. *)
Definition setMinRating (m : num) (st : UrlState) : UrlState :=
  {| q := q st; city := city st; cuisine := cuisine st;
     neighborhood := neighborhood st; tag := tag st; minRating := m;
     price := price st; wouldReturn := wouldReturn st; sort := sort st |}.

(** The keys of the featured lists in the menu. *)
Definition FEATURED : list string := ["top"; "recent"; "date-night"; "late-night"; "cheap"].

(** The list of cards: [sorted], computed from [filtered]. *)
Definition listed (E : Engine) (st : UrlState) (myLoc : option (Qc * Qc))
    (places : list place) : completion (list place) :=
  bind (filtered E st places) (λ l, Normal (sorted E st myLoc l)).

(** ** App.jsx: the edit form and the stored overlay *)

(** [a ?? b] *)
Definition nullish_or (a b : value) : value :=
  match a with
  | VUndef | VNull => b
  | _ => a
  end.

(** The draft [startEdit(p)] opens the form with. *)
Definition startEdit (p : place) : Draft :=
  {| draft_rating := nullish_or (field p "rating") (VStr "");
     draft_price := nullish_or (field p "price") (VStr "");
     draft_wouldReturn := nullish_or (field p "wouldReturn") (VBool false);
     draft_notes := nullish_or (field p "notes") (VStr "");
     draft_photo := nullish_or (field p "photo") (VStr "") |}.

(** The data [exportPlaces()] hands to [downloadJSON]:
    [basePlaces.map((p) => (edits?.[p.id] ? { ...p, ...edits[p.id] } : p))] *)
Definition exportPlaces (E : Engine) (basePlaces : list place) (edits : value)
    : list place :=
  map (λ p, if ToBoolean (get E edits (ToString E (field p "id")))
            then own_props E (get E edits (ToString E (field p "id"))) ∪ p
            else p)
      basePlaces.

(** What [saveEdits] takes from the platform besides: [JSON.stringify(v)],
    which gives no text for [undefined], and whether the storage has room
    for what it would hold after a write. *)
Record Host := {
  engine :> Engine;
  JSON_stringify : value → option string;
  has_room : gmap string string → bool
}.

(** [localStorage.setItem(k, v)]: raises when the storage is not available
    or has no room for the item. *)
Definition setItem (H : Host) (st : Storage) (k v : string) : completion Storage :=
  match st with
  | Unavailable => Throw
  | Items m =>
      if has_room H (<[k := v]> m) then Normal (Items (<[k := v]> m)) else Throw
  end.

(** [saveEdits(edits)]: the storage after the call. *)
Definition saveEdits (H : Host) (st : Storage) (edits : value) : completion Storage :=
  try_catch
    (setItem H st EDITS_KEY (default "undefined" (JSON_stringify H edits)))
    (Normal st).

(** An overlay whose entries have none but the fields of the edit form. *)
Definition form_written (E : Engine) (edits : value) : Prop :=
  ∀ k, dom (own_props E (get E edits k)) ⊆ mutable_fields.

(** ** App.jsx: the comparisons of names and dates as calls *)

(** [recv.localeCompare(arg)]: a string compares itself with the string of
    the argument; any other receiver has no method [localeCompare] and the
    call raises a TypeError. *)
Definition localeCompare_call (E : Engine) (recv arg : value) : completion num :=
  match recv with
  | VStr s => Normal (Fin (localeCompare E s (ToString E arg)))
  | _ => Throw
  end.

(** [(a.name || "").localeCompare(b.name || "")] *)
Definition name_callback (E : Engine) (a b : place) : completion num :=
  localeCompare_call E (or_else (field a "name") (VStr ""))
                       (or_else (field b "name") (VStr "")).

(** [(b.visitedAt || "").localeCompare(a.visitedAt || "")] *)
Definition recent_callback (E : Engine) (a b : place) : completion num :=
  localeCompare_call E (or_else (field b "visitedAt") (VStr ""))
                       (or_else (field a "visitedAt") (VStr "")).

(** ** App.jsx: the markers *)

(** [a === b].  Two objects, arrays included, are equal when they are one
    object, which their values do not tell: no answer. *)
Definition strict_equal (a b : value) : option bool :=
  match a, b with
  | VUndef, VUndef | VNull, VNull => Some true
  | VBool x, VBool y => Some (Bool.eqb x y)
  | VNum x, VNum y => Some (bool_decide (x = y))
  | VStr s, VStr t => Some (String.eqb s t)
  | (VArr _ | VObj _), (VArr _ | VObj _) => None
  | _, _ => Some false
  end.

(** [arr.some(f)]: the callback is called until it answers true. *)
Fixpoint some_o {A} (f : A → option bool) (l : list A) : option bool :=
  match l with
  | [] => Some false
  | x :: l' =>
      match f x with
      | Some true => Some true
      | Some false => some_o f l'
      | None => None
      end
  end.

(** [arr.filter(f)] *)
Fixpoint filter_o {A} (f : A → option bool) (l : list A) : option (list A) :=
  match l with
  | [] => Some []
  | x :: l' =>
      match f x, filter_o f l' with
      | Some b, Some r => Some (if b then x :: r else r)
      | _, _ => None
      end
  end.

(** [placesWithCoords] *)
Definition placesWithCoords (E : Engine) (places : list place) : list place :=
  filter (λ p, valid_coords E p) places.

(** The places that get a marker on the map:
    [placesWithCoords.filter((p) => sorted.some((s) => s.id === p.id))] *)
Definition markers (E : Engine) (places sorted : list place) : option (list place) :=
  filter_o (λ p, some_o (λ s, strict_equal (field s "id") (field p "id")) sorted)
           (placesWithCoords E places).

(** A value that is no object. *)
Definition is_primitive (v : value) : bool :=
  match v with
  | VArr _ | VObj _ => false
  | _ => true
  end.

(** ** App.jsx: the statistics and the facets *)

(** *** Arithmetic on doubles *)

(** The numbers of JavaScript are doubles: [+], [-], [*] and [/] return
    the double nearest to the exact result.  [fl] stands for that rounding.
    What the properties below need of it: it keeps the order, and it leaves
    the whole numbers below 2^53 as they are. *)
Record rounds (fl : Qc → Qc) : Prop := {
  fl_monotone : ∀ x y, x <= y → fl x <= fl y;
  fl_whole : ∀ z : Z, (Z.abs z < 2 ^ 53)%Z → fl (Qc_of_Z z) = Qc_of_Z z
}.

Module Float.

(** 2^e *)
Definition pow2 (e : Z) : Qc :=
  if (0 <=? e)%Z then Qc_of_Z (2 ^ e) else / Qc_of_Z (2 ^ (- e)).

(** The whole number nearest to [x], the even one of two that are equally
    near. *)
Definition round_even (x : Qc) : Z :=
  let f := Qfloor x in
  let r := x - Qc_of_Z f in
  if bool_decide (r < Q2Qc (1 # 2)) then f
  else if bool_decide (Q2Qc (1 # 2) < r) then (f + 1)%Z
  else if Z.even f then f else (f + 1)%Z.

(** The exponent [e] of a positive number [x]: 2^e <= x < 2^(e+1). *)
Definition exponent (x : Qc) : Z :=
  if bool_decide (1 <= x) then Z.log2 (Qfloor x)
  else
    let k := Z.log2 (Qfloor (/ x)%Qc) in
    if bool_decide (x = pow2 (- k)) then (- k)%Z else (- k - 1)%Z.

(** The nearest number with 53 significant bits, for a positive [x]. *)
Definition round_pos (x : Qc) : Qc :=
  let u := pow2 (exponent x - 52) in
  u * Qc_of_Z (round_even (x / u)).

(** The nearest double (without a bound on the exponent). *)
Definition binary64 (x : Qc) : Qc :=
  if bool_decide (x = 0) then 0
  else if bool_decide (x < 0) then - round_pos (- x)
  else round_pos x.

End Float.

(** *** The statistics *)

(** [Math.round]: the nearest integer, and of two that are equally near the
    greater one. *)
Definition Math_round (x : Qc) : Qc := Qc_of_Z (Qfloor (x + Q2Qc (1 # 2))).

(** [arr.length] as a number. *)
Definition count {A} (l : list A) : Qc := Qc_of_Z (Z.of_nat (length l)).

(** [places.filter((p) => typeof p.rating === "number")] *)
Definition rated (places : list place) : list place :=
  filter (λ p, String.eqb (typeof (field p "rating")) "number") places.

(** [p.rating] where it is a number. *)
Definition rating_number (p : place) : Qc :=
  match field p "rating" with
  | VNum x => x
  | _ => 0
  end.

(** [stats.avgRating], with [None] for null:
    [rated.length ? rated.reduce((sum, p) => sum + p.rating, 0) / rated.length : null].
    Each sum and the quotient are rounded. *)
Definition avgRating (fl : Qc → Qc) (places : list place) : option Qc :=
  let rated := rated places in
  if bool_decide (count rated = 0) then None
  else Some (fl (foldl (λ sum p, fl (sum + rating_number p)) 0 rated / count rated)).

(** [stats.wouldReturnCount] *)
Definition wouldReturnCount (places : list place) : Qc :=
  count (filter (λ p, is_true (field p "wouldReturn")) places).

(** [stats.wouldReturnPct]:
    [total ? Math.round((wouldReturnCount / total) * 100) : 0].  The
    quotient and the product are rounded; [Math.round] is exact. *)
Definition wouldReturnPct (fl : Qc → Qc) (places : list place) : Qc :=
  let total := count places in
  if bool_decide (total = 0) then 0
  else Math_round (fl (fl (wouldReturnCount places / total) * Q2Qc 100)).

(** [arr.flatMap(f)]: an array that [f] returns is spliced in, any other
    value is an element. *)
Definition flatMap {A} (f : A → value) (l : list A) : list value :=
  concat (map (λ x, match f x with VArr l' => l' | v => [v] end) l).

(** [new Set(arr)], its values in the order of their first insertion.  The
    values of a set are compared like [===] here (there is no NaN). *)
Fixpoint new_Set (set : list value) (arr : list value) : option (list value) :=
  match arr with
  | [] => Some set
  | v :: arr' =>
      match some_o (λ s, strict_equal s v) set with
      | Some true => new_Set set arr'
      | Some false => new_Set (set ++ [v]) arr'
      | None => None
      end
  end.

(** [uniq] of the statistics: [Array.from(new Set(arr.filter(Boolean)))] *)
Definition uniq (arr : list value) : option (list value) :=
  new_Set [] (filter (λ v, ToBoolean v) arr).

(** The order of strings by UTF-16 code units, which [arr.sort()] without a
    comparison function uses.  A string holds the UTF-8 bytes of the text.
    The bytes compare as the code units do but for one case: a character
    beyond U+FFFF (lead bytes F0 to F4) is a surrogate pair in UTF-16 and
    comes before the characters U+E000 to U+FFFF (lead bytes EE and EF).
    [code_unit_key] moves these two lead bytes behind the others. *)
Definition code_unit_rank (c : ascii) : ascii :=
  let n := N_of_ascii c in
  if ((n =? 238) || (n =? 239))%N then ascii_of_N (n + 16) else c.

Fixpoint code_unit_key (s : string) : string :=
  match s with
  | EmptyString => EmptyString
  | String c s' => String (code_unit_rank c) (code_unit_key s')
  end.

Definition code_unit_compare (s t : string) : comparison :=
  String.compare (code_unit_key s) (code_unit_key t).

(** The comparison of [arr.sort()] without a comparison function: by the
    strings of the values, code unit by code unit, [undefined] last. *)
Definition default_compare (E : Engine) (a b : value) : num :=
  match a, b with
  | VUndef, VUndef => Fin 0
  | VUndef, _ => Fin 1
  | _, VUndef => Fin (-1)
  | _, _ =>
      match code_unit_compare (ToString E a) (ToString E b) with
      | Lt => Fin (-1)
      | Eq => Fin 0
      | Gt => Fin 1
      end
  end.

(** [uniq] of the facets: [Array.from(new Set(arr.filter(Boolean))).sort()] *)
Definition uniq_sorted (E : Engine) (arr : list value) : option (list value) :=
  Array_sort E (default_compare E) <$> uniq arr.

(** [facets]: the options of the four dropdowns. *)
Definition facet_cities (E : Engine) (places : list place) : option (list value) :=
  uniq_sorted E (map (λ p, field p "city") places).
Definition facet_hoods (E : Engine) (places : list place) : option (list value) :=
  uniq_sorted E (map (λ p, field p "neighborhood") places).
Definition facet_cuisines (E : Engine) (places : list place) : option (list value) :=
  uniq_sorted E (flatMap (λ p, or_else (field p "cuisine") (VArr [])) places).
Definition facet_tags (E : Engine) (places : list place) : option (list value) :=
  uniq_sorted E (flatMap (λ p, or_else (field p "tags") (VArr [])) places).

(** [cuisineCounts.set(c, (cuisineCounts.get(c) || 0) + 1)] on a Map, its
    entries in the order of their first insertion; the count of an entry
    is not 0, so that [n || 0] is [n]. *)
Fixpoint count_one (counts : list (value * Qc)) (c : value) : option (list (value * Qc)) :=
  match counts with
  | [] => Some [(c, 0 + 1)]
  | (k, n) :: rest =>
      match strict_equal k c with
      | Some true => Some ((k, n + 1) :: rest)
      | Some false => cons (k, n) <$> count_one rest c
      | None => None
      end
  end.

Fixpoint count_all (counts : list (value * Qc)) (cs : list value)
    : option (list (value * Qc)) :=
  match cs with
  | [] => Some counts
  | c :: cs' =>
      match count_one counts c with
      | Some counts' => count_all counts' cs'
      | None => None
      end
  end.

(** What [for (const c of p.cuisine || [])] goes through, place by place;
    the loop raises on a value that cannot be iterated. *)
Fixpoint iterated (places : list place) : completion (list value) :=
  match places with
  | [] => Normal []
  | p :: places' =>
      bind (spread (or_else (field p "cuisine") (VArr []))) (λ cs,
      bind (iterated places') (λ rest, Normal (cs ++ rest)%list))
  end.

(** [stats.topCuisines]: the entries of [cuisineCounts], sorted by
    [(a, b) => b[1] - a[1]], the first six. *)
Definition topCuisines (E : Engine) (places : list place)
    : completion (option (list (value * Qc))) :=
  bind (iterated places) (λ cs,
    Normal ((λ counts, take 6 (Array_sort E (λ a b, Fin (b.2 - a.2)) counts))
            <$> count_all [] cs)).

(** ** App.jsx: the price label *)

(** [Math.min(a, b)] and [Math.max(a, b)]: NaN when an argument is NaN. *)
Definition Math_min (a b : num) : num :=
  match a, b with
  | Fin x, Fin y => Fin (if bool_decide (x <= y) then x else y)
  | _, _ => NaN
  end.

Definition Math_max (a b : num) : num :=
  match a, b with
  | Fin x, Fin y => Fin (if bool_decide (x <= y) then y else x)
  | _, _ => NaN
  end.

(** The integer a number is cut to where a count is expected: the
    fraction is dropped. *)
Definition truncate (x : Qc) : Z := Z.quot (Qnum x) (Zpos (Qden x)).

Fixpoint copies (n : nat) (s : string) : string :=
  match n with
  | O => ""
  | S n' => s ++ copies n' s
  end.

(** [s.repeat(count)]: NaN counts as 0, and a negative count raises a
    RangeError. *)
Definition String_repeat (s : string) (count : num) : completion string :=
  match count with
  | NaN => Normal ""
  | Fin x =>
      if (truncate x <? 0)%Z then Throw else Normal (copies (Z.to_nat (truncate x)) s)
  end.

(** [priceLabel(p)] *)
Definition priceLabel (E : Engine) (p : value) : completion string :=
  if negb (ToBoolean p) then Normal "—"
  else
    let n := ToNumber E p in
    String_repeat "$" (Math_max (Fin 1) (Math_min (Fin (Q2Qc 4)) (if isFinite n then n else Fin 1))).

(** * The script that adds a place *)

(** The script looks a place up with a geocoder, lets the user pick one of
    the results, builds a place record and appends it to the dataset the
    application imports.  What the geocoder answered, what the user typed,
    the clock and the text of the dataset file are the inputs of the
    functions below. *)
Module AddPlace.

(** [CATEGORY_TAG_MAP] *)
Definition CATEGORY_TAG_MAP : list (string * string) :=
  [ ("catering.restaurant", "restaurant");
    ("catering.cafe", "cafe");
    ("catering.fast_food", "fast-food");
    ("catering.bar", "bar");
    ("catering.pub", "pub");
    ("catering.ice_cream", "ice-cream");
    ("catering.bakery", "bakery");
    ("catering.food_court", "food-court") ].

(** [Object.entries(CUISINE_KEYWORDS)] *)
Definition CUISINE_KEYWORDS : list (string * string) :=
  [ ("italian", "Italian"); ("mexican", "Mexican"); ("thai", "Thai");
    ("korean", "Korean"); ("chinese", "Chinese"); ("japanese", "Japanese");
    ("vietnamese", "Vietnamese"); ("indian", "Indian"); ("greek", "Greek");
    ("mediterranean", "Mediterranean"); ("turkish", "Turkish");
    ("lebanese", "Lebanese"); ("ethiopian", "Ethiopian"); ("french", "French");
    ("spanish", "Spanish"); ("ramen", "Ramen"); ("sushi", "Sushi");
    ("pizza", "Pizza"); ("taco", "Tacos"); ("tacos", "Tacos");
    ("burger", "Burgers"); ("bbq", "BBQ"); ("seafood", "Seafood");
    ("steak", "Steakhouse") ].

(** A character of [a-z0-9]. *)
Definition is_slug_letter (c : ascii) : bool :=
  let n := N_of_ascii c in
  ((97 <=? n) && (n <=? 122) || (48 <=? n) && (n <=? 57))%N.

(** [s.replace(/[^a-z0-9]+/g, "-")]: each run of other characters becomes
    one hyphen; [in_run] tells that the character before was one of
    them. *)
Fixpoint hyphenate (in_run : bool) (s : string) : string :=
  match s with
  | EmptyString => EmptyString
  | String c s' =>
      if is_slug_letter c then String c (hyphenate false s')
      else if in_run then hyphenate true s'
      else String "-" (hyphenate true s')
  end.

(** [s.replace(/(^-|-$)/g, "")]: a hyphen at the start goes, and a hyphen at
    the end of what is left. *)
Definition strip_start (s : string) : string :=
  match s with
  | String c s' => if Ascii.eqb c "-" then s' else s
  | EmptyString => EmptyString
  end.

Fixpoint strip_end (s : string) : string :=
  match s with
  | EmptyString => EmptyString
  | String c EmptyString => if Ascii.eqb c "-" then EmptyString else s
  | String c s' => String c (strip_end s')
  end.

(** The set of the labels collected so far, in the order of their
    insertion: [set.add(s)]. *)
Definition add_label (set : list string) (s : string) : list string :=
  if bool_decide (s ∈ set) then set else (set ++ [s])%list.

(** The comparison of [arr.sort()] on strings: by code units. *)
Definition string_compare (s t : string) : num :=
  match code_unit_compare s t with
  | Lt => Fin (-1)
  | Eq => Fin 0
  | Gt => Fin 1
  end.

(** [Math.abs] *)
Definition Math_abs (n : num) : num :=
  match n with
  | Fin x => Fin (if bool_decide (x < 0) then - x else x)
  | NaN => NaN
  end.

(** [arr.some(f)] with a callback that may raise. *)
Fixpoint some_c {A} (f : A → completion bool) (l : list A) : completion bool :=
  match l with
  | [] => Normal false
  | x :: l' => bind (f x) (λ b, if b then Normal true else some_c f l')
  end.


Section AddPlace.
Context (E : Engine) (fl : Qc → Qc).

(** [v.k]: reading a property of null or undefined raises. *)
Definition member (v : value) (k : string) : completion value :=
  match v with
  | VUndef | VNull => Throw
  | _ => Normal (get E v k)
  end.

(** [safeReadJSON(filePath)], from the text of the file when there is
    one. *)
Definition safeReadJSON (file : option string) : completion (list value) :=
  match file with
  | None => Normal []
  | Some text =>
      let raw := trim E text in
      if negb (nonempty raw) then Normal []
      else
        match JSON_parse E raw with
        | Some (VArr l) => Normal l
        | Some _ => Normal []
        | None => Throw
        end
  end.

(** [slugify(s)] *)
Definition slugify (s : value) : string :=
  strip_end (strip_start
    (hyphenate false (toLowerCase E (ToString E (or_else s (VStr "")))))).

(** [pickCity(p)] *)
Definition pickCity (p : value) : completion value :=
  match p with
  | VUndef | VNull => Throw
  | _ =>
      Normal (or_else (get E p "city") (or_else (get E p "town")
             (or_else (get E p "village") (or_else (get E p "hamlet")
             (or_else (get E p "municipality") (or_else (get E p "locality")
              VNull))))))
  end.

(** [pickNeighborhood(p)] *)
Definition pickNeighborhood (p : value) : completion value :=
  match p with
  | VUndef | VNull => Throw
  | _ =>
      Normal (or_else (get E p "neighbourhood") (or_else (get E p "neighborhood")
             (or_else (get E p "suburb") (or_else (get E p "district")
             (or_else (get E p "quarter") (or_else (get E p "borough")
             (or_else (get E p "city_district") VNull)))))))
  end.

(** [Array.isArray(pick.categories) ? pick.categories : []] *)
Definition categories (pick : value) : list value :=
  match get E pick "categories" with VArr l => l | _ => [] end.

(** [categories.some((c) => String(c).startsWith(prefix))] *)
Definition has_category (pick : value) (prefix : string) : bool :=
  existsb (λ c, starts_with prefix (ToString E c)) (categories pick).

(** The text [deriveTagsAndCuisine] looks the cuisine keywords up in:
    the categories and the name, in lower case. *)
Definition inference_text (pick : value) : string :=
  toLowerCase E
    (join " " (map (λ e, match e with VUndef | VNull => "" | _ => ToString E e end)
                   (categories pick)) ++
     " " ++
     ToString E (or_else (get E pick "name") (or_else (get E pick "formatted") (VStr "")))).

(** [deriveTagsAndCuisine(pick)]: the tags and the cuisines. *)
Definition deriveTagsAndCuisine (pick : value) : completion (list string * list string) :=
  match pick with
  | VUndef | VNull => Throw
  | _ =>
      let tags :=
        foldl (λ tags e, if has_category pick e.1 then add_label tags e.2 else tags)
              [] CATEGORY_TAG_MAP in
      let hay := inference_text pick in
      let found :=
        foldl (λ acc e,
                 if str_includes hay e.1
                 then (add_label acc.1 (if String.eqb e.1 "tacos" then "tacos" else e.1),
                       add_label acc.2 e.2)
                 else acc)
              (tags, []) CUISINE_KEYWORDS in
      Normal (Array_sort E string_compare found.1, Array_sort E string_compare found.2)
  end.


(** [(v || "").toLowerCase().trim()]: a truthy value that is no string has
    no method [toLowerCase]. *)
Definition folded_name (v : value) : completion string :=
  match or_else v (VStr "") with
  | VStr s => Normal (trim E (toLowerCase E s))
  | _ => Throw
  end.

(** [m - n] on doubles: the difference, rounded. *)
Definition minus (m n : num) : num :=
  match num_sub m n with
  | Fin x => Fin (fl x)
  | NaN => NaN
  end.

(** [typeof p.lat === "number" && typeof p.lon === "number" &&
     Math.abs(p.lat - candidate.lat) < 0.0006 &&
     Math.abs(p.lon - candidate.lon) < 0.0006]; the literal is the double
    nearest to 0.0006. *)
Definition close_to (p candidate : value) : bool :=
  match get E p "lat", get E p "lon" with
  | VNum lat, VNum lon =>
      num_ltb (Math_abs (minus (Fin lat) (ToNumber E (get E candidate "lat"))))
              (Fin (fl (Q2Qc 0.0006))) &&
      num_ltb (Math_abs (minus (Fin lon) (ToNumber E (get E candidate "lon"))))
              (Fin (fl (Q2Qc 0.0006)))
  | _, _ => false
  end.

(** [isNearDuplicate(existing, candidate)] *)
Definition isNearDuplicate (existing : list value) (candidate : value) : completion bool :=
  bind (member candidate "name") (λ cn,
  bind (folded_name cn) (λ nameA,
    some_c (λ p,
      bind (member p "name") (λ pn,
      bind (folded_name pn) (λ nameB,
        if negb (nonempty nameA) || negb (nonempty nameB) then Normal false
        else Normal (String.eqb nameA nameB && close_to p candidate))))
      existing)).

(** The place the script builds from the chosen result [pick], the point of
    interest [poi] (null without one), the clock and the date. *)
Definition newPlace (pick poi : value) (now : Qc) (today : string) : completion place :=
  match pick with
  | VUndef | VNull => Throw
  | _ =>
      let categoriesFromPoi :=
        or_else (get E poi "categories") (or_else (get E pick "categories") (VArr [])) in
      let nameForInference :=
        or_else (get E poi "name") (or_else (get E pick "name") (get E pick "formatted")) in
      bind (deriveTagsAndCuisine
              (VObj (<[ "categories" := categoriesFromPoi ]>
                      (<[ "name" := nameForInference ]> (own_props E pick))))) (λ derived,
      bind (pickCity pick) (λ city,
      bind (pickNeighborhood pick) (λ hood,
        Normal
          (<[ "id" :=
                VStr (slugify (or_else (get E pick "name") (get E pick "formatted")) ++
                      "-" ++ NumberToString E now) ]>
          (<[ "name" := or_else (get E pick "name") (get E pick "formatted") ]>
          (<[ "address" := get E pick "formatted" ]>
          (<[ "lat" := get E pick "lat" ]>
          (<[ "lon" := get E pick "lon" ]>
          (<[ "city" := city ]>
          (<[ "neighborhood" := hood ]>
          (<[ "cuisine" := VArr (VStr <$> derived.2) ]>
          (<[ "tags" := VArr (VStr <$> derived.1) ]>
          (<[ "visitedAt" := VStr today ]>
          (<[ "price" := VNull ]>
          (<[ "rating" := VNull ]>
          (<[ "wouldReturn" := VNull ]>
          (<[ "notes" := VStr "" ]>
          (<[ "website" :=
                nullish_or (get E poi "website") (nullish_or (get E pick "website") VNull) ]>
          (<[ "phone" :=
                nullish_or (get E (get E poi "contact") "phone")
                           (nullish_or (get E pick "phone") VNull) ]>
           ∅)))))))))))))))))))
  end.

(** The run of the script on the dataset file: the array that is written,
    or none when the place is taken for a duplicate. *)
Definition add_place (file : option string) (place : place)
    : completion (option (list value)) :=
  bind (safeReadJSON file) (λ existing,
  bind (isNearDuplicate existing (VObj place)) (λ duplicate,
    Normal (if duplicate then None else Some (existing ++ [VObj place])%list))).

End AddPlace.
End AddPlace.

(** ** src/App.jsx, where it differs *)

(** The other copy reads [edits[p.id]] without the optional chaining (the same
    on every overlay [loadEdits] returns), compares the price without
    [Number], and sorts with the two comparison functions below. *)
Module Legacy.
Section Legacy.
Context (E : Engine).

(** [priceLabel(p)]: [Math.min(4, p)] converts the price as it is. *)
Definition priceLabel (p : value) : completion string :=
  if negb (ToBoolean p) then Normal "—"
  else String_repeat "$" (Math_max (Fin 1) (Math_min (Fin (Q2Qc 4)) (ToNumber E p))).

(** [price > 0 && (p.price || 0) !== price] *)
Definition price_rejects (st : UrlState) (p : place) : bool :=
  num_ltb (Fin 0) (price st) &&
  negb (match or_else (field p "price") (VNum 0) with
        | VNum x => num_eqb (Fin x) (price st)
        | _ => false
        end).

(** The merge: [edits[p.id]] raises when [edits] is null or undefined, at
    the first place. *)
Definition places (basePlaces : list place) (edits : value) : completion (list place) :=
  match edits, basePlaces with
  | (VUndef | VNull), _ :: _ => Throw
  | _, _ => Normal (map (merge_place E edits) basePlaces)
  end.

(** The callback of the filter; the price test is the one above. *)
Definition keep (st : UrlState) (qq : string) (p : place) : completion bool :=
  reject_if (Normal (nonempty (city st) &&
                     negb (is_str (or_else (field p "city") (VStr "")) (city st))))
  (reject_if (Normal (nonempty (neighborhood st) &&
                      negb (is_str (or_else (field p "neighborhood") (VStr ""))
                                   (neighborhood st))))
  (reject_if (and_then (nonempty (cuisine st))
                (not_c (includes (or_else (field p "cuisine") (VArr [])) (cuisine st))))
  (reject_if (and_then (nonempty (tag st))
                (not_c (includes (or_else (field p "tags") (VArr [])) (tag st))))
  (reject_if (Normal (price_rejects st p))
  (reject_if (Normal (wouldReturn st && negb (is_true (field p "wouldReturn"))))
  (reject_if (Normal (num_ltb (Fin 0) (minRating st) &&
                      num_ltb (rating_or_zero p) (minRating st)))
  (if negb (nonempty qq) then Normal true
   else bind (hay E p) (λ h, Normal (str_includes h qq))))))))).

Definition filtered (st : UrlState) (places : list place) : completion (list place) :=
  let qq := toLowerCase E (trim E (q st)) in
  filter_c (keep st qq) places.

(** [haversineMiles(myLoc.lat, myLoc.lon, a.lat, a.lon)]: the coordinates
    of the place enter the arithmetic as they are, so the distance is NaN
    unless both convert to numbers. *)
Definition distance (myLoc : Qc * Qc) (a : place) : num :=
  match ToNumber E (field a "lat"), ToNumber E (field a "lon") with
  | Fin lat, Fin lon => Fin (haversineMiles E myLoc.1 myLoc.2 lat lon)
  | _, _ => NaN
  end.

(** [(a, b) => da - db], without the coordinate guards. *)
Definition nearest_cmp (myLoc : Qc * Qc) (a b : place) : num :=
  num_sub (distance myLoc a) (distance myLoc b).

(** [(b.rating || -1) - (a.rating || -1)] *)
Definition top_cmp (a b : place) : num :=
  num_sub (ToNumber E (or_else (field b "rating") (VNum (-1))))
          (ToNumber E (or_else (field a "rating") (VNum (-1)))).

Definition sorted (st : UrlState) (myLoc : option (Qc * Qc)) (filtered : list place)
    : list place :=
  let arr := filtered in
  if String.eqb (sort st) "name" then Array_sort E (name_cmp E) arr
  else if String.eqb (sort st) "recent" then Array_sort E (recent_cmp E) arr
  else if String.eqb (sort st) "nearest" then
    match myLoc with
    | None => arr
    | Some loc => Array_sort E (nearest_cmp loc) arr
    end
  else Array_sort E top_cmp arr.

(** The list of cards. *)
Definition listed (st : UrlState) (myLoc : option (Qc * Qc)) (places : list place)
    : completion (list place) :=
  bind (filtered st places) (λ l, Normal (sorted st myLoc l)).

End Legacy.
End Legacy.

(** ** The contract of the platform *)

(** SortCompare of ECMAScript: the value of the comparison function, NaN
    counting as +0. *)
Definition SortCompare {A} (comparefn : A → A → num) (x y : A) : Qc :=
  match comparefn x y with
  | Fin v => v
  | NaN => 0
  end.

(** A consistent comparison function for the values of [l] (ECMAScript,
    Array.prototype.sort): it returns numbers other than NaN, and on the
    values of [l] "compares equal" is an equivalence and "compares less" and
    "compares greater" are transitive. *)
Record consistent_on {A} (comparefn : A → A → num) (l : list A) : Prop := {
  cc_number : ∀ a b, a ∈ l → b ∈ l → comparefn a b ≠ NaN;
  cc_refl : ∀ a, a ∈ l → SortCompare comparefn a a = 0;
  cc_sym : ∀ a b, a ∈ l → b ∈ l →
    SortCompare comparefn a b = 0 → SortCompare comparefn b a = 0;
  cc_trans_eq : ∀ a b c, a ∈ l → b ∈ l → c ∈ l →
    SortCompare comparefn a b = 0 → SortCompare comparefn b c = 0 →
    SortCompare comparefn a c = 0;
  cc_trans_lt : ∀ a b c, a ∈ l → b ∈ l → c ∈ l →
    SortCompare comparefn a b < 0 → SortCompare comparefn b c < 0 →
    SortCompare comparefn a c < 0;
  cc_trans_gt : ∀ a b c, a ∈ l → b ∈ l → c ∈ l →
    0 < SortCompare comparefn a b → 0 < SortCompare comparefn b c →
    0 < SortCompare comparefn a c
}.

(** What the theorems below use of the platform.  The sort returns a
    permutation of the array; for a consistent comparison function the
    result is in the order of the function, and values that compare equal
    keep their order (the sort is stable); for any other comparison
    function the order is left to the implementation. *)
Record conforming (E : Engine) : Prop := {
  sort_permutation : ∀ A (comparefn : A → A → num) (l : list A),
    Array_sort E comparefn l ≡ₚ l;
  sort_ordered : ∀ A (comparefn : A → A → num) (l : list A),
    consistent_on comparefn l →
    StronglySorted (λ a b, SortCompare comparefn a b <= 0) (Array_sort E comparefn l);
  sort_stable : ∀ A (comparefn : A → A → num) (l : list A),
    consistent_on comparefn l →
    ∀ a, a ∈ l →
      filter (λ b, SortCompare comparefn a b = 0) (Array_sort E comparefn l) =
      filter (λ b, SortCompare comparefn a b = 0) l;
  localeCompare_consistent : ∀ l : list string,
    consistent_on (λ s t, Fin (localeCompare E s t)) l;
  toLowerCase_empty : toLowerCase E "" = "";
  trim_empty : trim E "" = "";
  StringToNumber_zero : StringToNumber E "0" = Fin 0
}.

(** ** Two sample engines *)

(** Insertion sort: [x] goes in front of the first [y] it may stay before. *)
Fixpoint insert_by {A} (stays_before : A → A → bool) (x : A) (l : list A) : list A :=
  match l with
  | [] => [x]
  | y :: l' => if stays_before x y then x :: l else y :: insert_by stays_before x l'
  end.

Definition insertion_sort {A} (stays_before : A → A → bool) (l : list A) : list A :=
  foldr (insert_by stays_before) [] l.

(** The two usual ways to ask the comparison function whether [x], which
    comes first in the array, stays before [y]: [comparefn(x, y) <= 0], or
    not [comparefn(y, x) < 0]. *)
Definition sort_asking_le {A} (comparefn : A → A → num) : list A → list A :=
  insertion_sort (λ x y, bool_decide (SortCompare comparefn x y <= 0)).

Definition sort_asking_lt {A} (comparefn : A → A → num) : list A → list A :=
  insertion_sort (λ x y, negb (bool_decide (SortCompare comparefn y x < 0))).

(** The platform functions of the sample engines.  They stand in for the
    browser where a statement is evaluated; no theorem about [conforming]
    engines depends on them. *)
Module Sample.

(** Byte-wise comparison. *)
Definition localeCompare (s t : string) : Qc :=
  match String.compare s t with
  | Lt => -1
  | Eq => 0
  | Gt => 1
  end.

Definition lower (c : ascii) : ascii :=
  let n := N_of_ascii c in
  if ((65 <=? n) && (n <=? 90))%N then ascii_of_N (n + 32) else c.

Fixpoint toLowerCase (s : string) : string :=
  match s with
  | EmptyString => EmptyString
  | String c s' => String (lower c) (toLowerCase s')
  end.

Definition is_space (c : ascii) : bool :=
  let n := N_of_ascii c in
  ((n =? 32) || (9 <=? n) && (n <=? 13))%N.

Fixpoint trim_start (s : string) : string :=
  match s with
  | EmptyString => EmptyString
  | String c s' => if is_space c then trim_start s' else s
  end.

Definition trim (s : string) : string :=
  String.rev (trim_start (String.rev (trim_start s))).

(** *** Numbers and decimal notation *)

Definition digits (n : N) : string := NilZero.string_of_uint (N.to_uint n).

Definition pow10 (z : Z) : Qc :=
  if (0 <=? z)%Z then Qc_of_Z (10 ^ z) else / Qc_of_Z (10 ^ (- z)).

Fixpoint zeros (n : nat) : string :=
  match n with
  | O => EmptyString
  | S n' => String "0" (zeros n')
  end.

(** The number of decimals of [n / d], up to the fuel. *)
Fixpoint decimals (fuel : nat) (n d : N) : nat :=
  match fuel with
  | O => O
  | S fuel' => if (n mod d =? 0)%N then O else S (decimals fuel' (n * 10) d)
  end.

Fixpoint strip_zeros (rev_digits : string) : string :=
  match rev_digits with
  | String c s' => if Ascii.eqb c "0" then strip_zeros s' else rev_digits
  | EmptyString => EmptyString
  end.

(** Number::toString for a positive number [n / d]: with [ds] the [k]
    significant digits and [10^(e-k)] the weight of the last one, the digits
    with zeros appended, a decimal point inserted, or "0." and zeros in
    front; exponent notation outside [1e-6, 1e21). *)
Definition positive_to_string (n d : N) : string :=
  let f := decimals 400 n d in
  let all := digits (n * 10 ^ N.of_nat f / d) in
  let ds := String.rev (strip_zeros (String.rev all)) in
  let k := Z.of_nat (String.length ds) in
  let e := (Z.of_nat (String.length all) - Z.of_nat f)%Z in
  if ((k <=? e) && (e <=? 21))%Z then ds ++ zeros (Z.to_nat (e - k))
  else if ((0 <? e) && (e <=? 21))%Z then
    String.substring 0 (Z.to_nat e) ds ++ "." ++
    String.substring (Z.to_nat e) (Z.to_nat (k - e)) ds
  else if ((-6 <? e) && (e <=? 0))%Z then "0." ++ zeros (Z.to_nat (- e)) ++ ds
  else
    (if (k =? 1)%Z then ds
     else String.substring 0 1 ds ++ "." ++ String.substring 1 (Z.to_nat (k - 1)) ds)
    ++ "e" ++ (if (e - 1 <? 0)%Z then "-" else "+") ++ digits (Z.to_N (Z.abs (e - 1))).

Definition NumberToString (x : Qc) : string :=
  let n := Qnum x in
  let d := Npos (Qden x) in
  if (n =? 0)%Z then "0"
  else if (n <? 0)%Z then "-" ++ positive_to_string (Z.to_N (- n)) d
  else positive_to_string (Z.to_N n) d.

Definition is_digit (c : ascii) : bool :=
  let n := N_of_ascii c in ((48 <=? n) && (n <=? 57))%N.

(** The digits at the start of a string, and the rest. *)
Fixpoint span_digits (s : string) : string * string :=
  match s with
  | String c s' =>
      if is_digit c then let '(ds, r) := span_digits s' in (String c ds, r)
      else (EmptyString, s)
  | EmptyString => (EmptyString, EmptyString)
  end.

Fixpoint digits_value (acc : N) (ds : string) : N :=
  match ds with
  | String c s' => digits_value (acc * 10 + (N_of_ascii c - 48)) s'
  | EmptyString => acc
  end.

(** An optional sign. *)
Definition span_sign (s : string) : bool * string :=
  match s with
  | String c s' =>
      if Ascii.eqb c "-" then (true, s')
      else if Ascii.eqb c "+" then (false, s')
      else (false, s)
  | EmptyString => (false, s)
  end.

(** The exponent part at the start of a string, and the rest: nothing, or
    [e] or [E], an optional sign and at least one digit. *)
Definition span_exponent (s : string) : option (Z * string) :=
  match s with
  | EmptyString => Some (0%Z, s)
  | String c s' =>
      if Ascii.eqb c "e" || Ascii.eqb c "E" then
        let '(neg, r) := span_sign s' in
        let '(ds, r') := span_digits r in
        if nonempty ds
        then Some (if neg then - Z.of_N (digits_value 0 ds)
                   else Z.of_N (digits_value 0 ds), r')%Z
        else None
      else Some (0%Z, s)
  end.

(** The exponent part up to the end of the string. *)
Definition exponent (s : string) : option Z :=
  match span_exponent s with
  | Some (e, r) => if nonempty r then None else Some e
  | None => None
  end.

(** StringToNumber on decimal literals: white space around, an optional
    sign, digits with an optional fraction or a fraction alone, an
    optional exponent; the empty string is 0.  (The literals Infinity,
    0x.., 0o.. and 0b.. are not covered.) *)
Definition StringToNumber (s : string) : num :=
  let s := trim s in
  if negb (nonempty s) then Fin 0
  else
    let '(neg, r) := span_sign s in
    let '(ip, r1) := span_digits r in
    let '(fp, r2) :=
      match r1 with
      | String c r' => if Ascii.eqb c "." then span_digits r' else (EmptyString, r1)
      | EmptyString => (EmptyString, r1)
      end in
    if negb (nonempty ip) && negb (nonempty fp) then NaN
    else
      match exponent r2 with
      | None => NaN
      | Some e =>
          let m := Z.of_N (digits_value (digits_value 0 ip) fp) in
          let x := Qc_of_Z m * pow10 (e - Z.of_nat (String.length fp)) in
          Fin (if neg then - x else x)
      end.


(** *** JSON *)

Definition is_json_space (c : ascii) : bool :=
  let n := N_of_ascii c in
  ((n =? 32) || (n =? 9) || (n =? 10) || (n =? 13))%N.

Fixpoint skip_ws (s : string) : string :=
  match s with
  | String c s' => if is_json_space c then skip_ws s' else s
  | EmptyString => EmptyString
  end.

(** The rest of [s] after the prefix [p]. *)
Fixpoint after_prefix (p s : string) : option string :=
  match p with
  | EmptyString => Some s
  | String c p' =>
      match s with
      | String d s' => if Ascii.eqb c d then after_prefix p' s' else None
      | EmptyString => None
      end
  end.

(** A code unit below 65536 in UTF-8. *)
Definition utf8 (n : N) : string :=
  if (n <? 128)%N then String (ascii_of_N n) EmptyString
  else if (n <? 2048)%N then
    String (ascii_of_N (192 + n / 64))
      (String (ascii_of_N (128 + n mod 64)) EmptyString)
  else
    String (ascii_of_N (224 + n / 4096))
      (String (ascii_of_N (128 + (n / 64) mod 64))
         (String (ascii_of_N (128 + n mod 64)) EmptyString)).

Definition escape (e : ascii) : option ascii :=
  if Ascii.eqb e dquote then Some dquote
  else if Ascii.eqb e "\" then Some "\"%char
  else if Ascii.eqb e "/" then Some "/"%char
  else if Ascii.eqb e "b" then Some (ascii_of_N 8)
  else if Ascii.eqb e "f" then Some (ascii_of_N 12)
  else if Ascii.eqb e "n" then Some (ascii_of_N 10)
  else if Ascii.eqb e "r" then Some (ascii_of_N 13)
  else if Ascii.eqb e "t" then Some (ascii_of_N 9)
  else None.

Definition hex4 (a b c d : ascii) : option N :=
  match URLSearchParams.hex_value a, URLSearchParams.hex_value b,
        URLSearchParams.hex_value c, URLSearchParams.hex_value d with
  | Some x, Some y, Some z, Some w => Some (((x * 16 + y) * 16 + z) * 16 + w)%N
  | _, _, _, _ => None
  end.

(** A JSON string after its opening quote: the text, and what follows the
    closing quote. *)
Fixpoint json_string (s : string) : option (string * string) :=
  match s with
  | EmptyString => None
  | String c s' =>
      if Ascii.eqb c dquote then Some (EmptyString, s')
      else if Ascii.eqb c "\" then
        match s' with
        | String e s'' =>
            if Ascii.eqb e "u" then
              match s'' with
              | String h1 (String h2 (String h3 (String h4 s3))) =>
                  match hex4 h1 h2 h3 h4, json_string s3 with
                  | Some n, Some (t, r) => Some (utf8 n ++ t, r)
                  | _, _ => None
                  end
              | _ => None
              end
            else
              match escape e, json_string s'' with
              | Some x, Some (t, r) => Some (String x t, r)
              | _, _ => None
              end
        | EmptyString => None
        end
      else if (N_of_ascii c <? 32)%N then None
      else
        match json_string s' with
        | Some (t, r) => Some (String c t, r)
        | None => None
        end
  end.

(** A JSON number: an optional minus, an integer part without leading
    zeros, an optional fraction, an optional exponent. *)
Definition json_number (s : string) : option (Qc * string) :=
  let '(neg, r) :=
    match s with
    | String c s' => if Ascii.eqb c "-" then (true, s') else (false, s)
    | EmptyString => (false, s)
    end in
  let '(ip, r1) := span_digits r in
  if negb (nonempty ip) || String.prefix "0" ip && negb (String.eqb ip "0") then None
  else
    let frac :=
      match r1 with
      | String c r' =>
          if Ascii.eqb c "." then
            let '(fp, r2) := span_digits r' in
            if nonempty fp then Some (fp, r2) else None
          else Some (EmptyString, r1)
      | EmptyString => Some (EmptyString, r1)
      end in
    match frac with
    | None => None
    | Some (fp, r2) =>
        match span_exponent r2 with
        | None => None
        | Some (e, r3) =>
            let m := Z.of_N (digits_value (digits_value 0 ip) fp) in
            let x := Qc_of_Z m * pow10 (e - Z.of_nat (String.length fp)) in
            Some (if neg then - x else x, r3)
        end
    end.

(** A JSON value at the start of [s], and the rest of [s].  [json_elements]
    reads an array from its first element on, [json_members] an object
    from its first key on. *)
Fixpoint json_value (fuel : nat) (s : string) {struct fuel} : option (value * string) :=
  match fuel with
  | O => None
  | S fuel' =>
      match skip_ws s with
      | EmptyString => None
      | String c s' as s0 =>
          if Ascii.eqb c "{" then
            match skip_ws s' with
            | String d r => if Ascii.eqb d "}" then Some (VObj ∅, r)
                            else json_members fuel' ∅ (String d r)
            | EmptyString => None
            end
          else if Ascii.eqb c "[" then
            match skip_ws s' with
            | String d r => if Ascii.eqb d "]" then Some (VArr [], r)
                            else json_elements fuel' [] (String d r)
            | EmptyString => None
            end
          else if Ascii.eqb c dquote then
            match json_string s' with
            | Some (t, r) => Some (VStr t, r)
            | None => None
            end
          else
            match after_prefix "true" s0, after_prefix "false" s0,
                  after_prefix "null" s0 with
            | Some r, _, _ => Some (VBool true, r)
            | _, Some r, _ => Some (VBool false, r)
            | _, _, Some r => Some (VNull, r)
            | _, _, _ =>
                match json_number s0 with
                | Some (x, r) => Some (VNum x, r)
                | None => None
                end
            end
      end
  end
with json_elements (fuel : nat) (acc : list value) (s : string) {struct fuel}
    : option (value * string) :=
  match fuel with
  | O => None
  | S fuel' =>
      match json_value fuel' s with
      | Some (v, r) =>
          match skip_ws r with
          | String c r' =>
              if Ascii.eqb c "," then json_elements fuel' (acc ++ [v]) r'
              else if Ascii.eqb c "]" then Some (VArr (acc ++ [v]), r')
              else None
          | EmptyString => None
          end
      | None => None
      end
  end
with json_members (fuel : nat) (acc : gmap string value) (s : string) {struct fuel}
    : option (value * string) :=
  match fuel with
  | O => None
  | S fuel' =>
      match skip_ws s with
      | String c s' =>
          if Ascii.eqb c dquote then
            match json_string s' with
            | Some (k, r) =>
                match skip_ws r with
                | String d r' =>
                    if Ascii.eqb d ":" then
                      match json_value fuel' r' with
                      | Some (v, r'') =>
                          match skip_ws r'' with
                          | String e r3 =>
                              if Ascii.eqb e "," then json_members fuel' (<[k := v]> acc) r3
                              else if Ascii.eqb e "}" then Some (VObj (<[k := v]> acc), r3)
                              else None
                          | EmptyString => None
                          end
                      | None => None
                      end
                    else None
                | EmptyString => None
                end
            | None => None
            end
          else None
      | EmptyString => None
      end
  end.

(** JSON.parse: one value, with white space around it. *)
Definition JSON_parse (s : string) : option value :=
  match json_value (2 * String.length s + 2) s with
  | Some (v, r) => if nonempty (skip_ws r) then None else Some v
  | None => None
  end.

(** *** JSON.stringify *)

Definition lower_hex_digit (n : N) : ascii :=
  match String.get (N.to_nat n) "0123456789abcdef" with
  | Some c => c
  | None => "0"%char
  end.

(** A character inside a JSON string: the quote, the backslash and the
    control characters are escaped. *)
Definition json_escape (c : ascii) : string :=
  let n := N_of_ascii c in
  if Ascii.eqb c dquote then String "\" (String dquote EmptyString)
  else if Ascii.eqb c "\" then String "\" (String "\" EmptyString)
  else if (n =? 8)%N then "\b"
  else if (n =? 12)%N then "\f"
  else if (n =? 10)%N then "\n"
  else if (n =? 13)%N then "\r"
  else if (n =? 9)%N then "\t"
  else if (n <? 32)%N then
    "\u00" ++ String (lower_hex_digit (n / 16)) (String (lower_hex_digit (n mod 16)) EmptyString)
  else String c EmptyString.

Fixpoint json_escape_all (s : string) : string :=
  match s with
  | EmptyString => EmptyString
  | String c s' => json_escape c ++ json_escape_all s'
  end.

Definition json_quote (s : string) : string :=
  String dquote (json_escape_all s ++ String dquote EmptyString).

(** The JSON text of a value, for values nested less deep than the fuel;
    no text for [undefined]; an [undefined] element of an array prints as
    null and a property with the value [undefined] is left out.  The
    properties of an object come in the order of the finite map. *)
Fixpoint json_text (fuel : nat) (v : value) : option string :=
  match fuel with
  | O => None
  | S fuel' =>
      match v with
      | VUndef => None
      | VNull => Some "null"
      | VBool b => Some (if b then "true" else "false")
      | VNum x => Some (NumberToString x)
      | VStr s => Some (json_quote s)
      | VArr l =>
          Some ("[" ++ join "," (map (λ e, default "null" (json_text fuel' e)) l) ++ "]")
      | VObj o =>
          Some ("{" ++
                join ","
                  (omap (λ e, (λ t, json_quote e.1 ++ ":" ++ t) <$> json_text fuel' e.2)
                        (map_to_list o)) ++
                "}")
      end
  end.

Definition JSON_stringify (v : value) : option string := json_text 1000 v.

(** *** Math: polynomial approximations around 0 and a square root, each
    rounded down to twelve decimals. *)

Definition round12 (x : Qc) : Qc :=
  let scaled := x * Qc_of_Z (10 ^ 12) in
  Qc_of_Z (Qnum scaled / Zpos (Qden scaled)) / Qc_of_Z (10 ^ 12).

Definition Math_PI : Qc := Q2Qc 3.141592653589793.
Definition Math_sin (x : Qc) : Qc := round12 (x - x ^ 3 / Q2Qc 6 + x ^ 5 / Q2Qc 120).
Definition Math_cos (x : Qc) : Qc := round12 (1 - x ^ 2 / Q2Qc 2 + x ^ 4 / Q2Qc 24).
Definition Math_asin (x : Qc) : Qc :=
  round12 (x + x ^ 3 / Q2Qc 6 + Q2Qc 3 * x ^ 5 / Q2Qc 40).
Definition Math_sqrt (x : Qc) : Qc :=
  let scaled := x * Qc_of_Z (10 ^ 24) in
  Qc_of_Z (Z.sqrt (Qnum scaled / Zpos (Qden scaled))) / Qc_of_Z (10 ^ 12).

End Sample.

(** The engine that asks [comparefn(x, y) <= 0]. *)
Definition engine_le : Engine := {|
  Array_sort := @sort_asking_le;
  localeCompare := Sample.localeCompare;
  toLowerCase := Sample.toLowerCase;
  trim := Sample.trim;
  NumberToString := Sample.NumberToString;
  StringToNumber := Sample.StringToNumber;
  JSON_parse := Sample.JSON_parse;
  Math_PI := Sample.Math_PI;
  Math_sin := Sample.Math_sin;
  Math_cos := Sample.Math_cos;
  Math_asin := Sample.Math_asin;
  Math_sqrt := Sample.Math_sqrt
|}.

(** The engine that asks [comparefn(y, x) < 0]. *)
Definition engine_lt : Engine := {|
  Array_sort := @sort_asking_lt;
  localeCompare := Sample.localeCompare;
  toLowerCase := Sample.toLowerCase;
  trim := Sample.trim;
  NumberToString := Sample.NumberToString;
  StringToNumber := Sample.StringToNumber;
  JSON_parse := Sample.JSON_parse;
  Math_PI := Sample.Math_PI;
  Math_sin := Sample.Math_sin;
  Math_cos := Sample.Math_cos;
  Math_asin := Sample.Math_asin;
  Math_sqrt := Sample.Math_sqrt
|}.

(** An engine with another sort. *)
Definition with_sort (E : Engine)
    (sort : ∀ A : Type, (A → A → num) → list A → list A) : Engine := {|
  Array_sort := sort;
  localeCompare := localeCompare E;
  toLowerCase := toLowerCase E;
  trim := trim E;
  NumberToString := NumberToString E;
  StringToNumber := StringToNumber E;
  JSON_parse := JSON_parse E;
  Math_PI := Math_PI E;
  Math_sin := Math_sin E;
  Math_cos := Math_cos E;
  Math_asin := Math_asin E;
  Math_sqrt := Math_sqrt E
|}.

(** The sample host: the engine that asks [comparefn(x, y) <= 0], with a
    storage that has room for five million characters. *)
Definition host_le : Host := {|
  engine := engine_le;
  JSON_stringify := Sample.JSON_stringify;
  has_room := λ m,
    (map_fold (λ k v n, n + N.of_nat (String.length k) + N.of_nat (String.length v)) 0 m
     <=? 5000000)%N
|}.

(** ** The data model *)

(** A text field of a place: absent, null or a string. *)
Definition is_text (v : value) : bool :=
  match v with
  | VUndef | VNull | VStr _ => true
  | _ => false
  end.

(** A sequence of labels: absent, null or an array of strings. *)
Definition is_labels (v : value) : bool :=
  match v with
  | VUndef | VNull => true
  | VArr l => forallb (λ e, match e with VStr _ => true | _ => false end) l
  | _ => false
  end.

(** A number or absent. *)
Definition is_number (v : value) : bool :=
  match v with
  | VUndef | VNull | VNum _ => true
  | _ => false
  end.

(** A flag: absent, null or a boolean. *)
Definition is_flag (v : value) : bool :=
  match v with
  | VUndef | VNull | VBool _ => true
  | _ => false
  end.

(** A place record as section 3 of the specification describes it, as far
    as the filter and the sort read it. *)
Definition well_formed (p : place) : bool :=
  is_text (field p "name") && is_text (field p "address") &&
  is_text (field p "city") && is_text (field p "neighborhood") &&
  is_text (field p "notes") && is_text (field p "visitedAt") &&
  is_labels (field p "cuisine") && is_labels (field p "tags") &&
  is_number (field p "price").

(** ** The filter as the specification words it (section 4.3) *)

Module Spec.

(** A text field; absent reads as the empty text. *)
Definition text (p : place) (k : string) : string :=
  match field p k with
  | VStr s => s
  | _ => ""
  end.

(** The labels of a sequence field. *)
Definition labels (p : place) (k : string) : list string :=
  match field p k with
  | VArr l => omap (λ e, match e with VStr s => Some s | _ => None end) l
  | _ => []
  end.

(** The rating, treated as 0 when absent. *)
Definition rating (p : place) : Qc :=
  match field p "rating" with
  | VNum x => x
  | _ => 0
  end.

Definition price_tier (p : place) : option Qc :=
  match field p "price" with
  | VNum x => Some x
  | _ => None
  end.

(** [t] appears as a substring in [s]. *)
Definition substring_of (t s : string) : Prop :=
  ∃ pre post, s = pre ++ t ++ post.

(** A threshold or a price tier of 0 means unconstrained; any other value
    constrains. *)
Definition active (n : num) : Prop := n ≠ Fin 0.

(** A number that is 0 or positive. *)
Definition nonnegative (n : num) : Prop := ∃ x, n = Fin x ∧ 0 <= x.

Section Predicates.
Context (E : Engine) (st : UrlState) (p : place).

Definition city_ok : Prop := city st = "" ∨ text p "city" = city st.
Definition neighborhood_ok : Prop :=
  neighborhood st = "" ∨ text p "neighborhood" = neighborhood st.
Definition cuisine_ok : Prop := cuisine st = "" ∨ cuisine st ∈ labels p "cuisine".
Definition tag_ok : Prop := tag st = "" ∨ tag st ∈ labels p "tags".
Definition price_ok : Prop :=
  ¬ active (price st) ∨ Fin <$> price_tier p = Some (price st).
Definition wouldReturn_ok : Prop :=
  wouldReturn st = true → field p "wouldReturn" = VBool true.
Definition minRating_ok : Prop :=
  ¬ active (minRating st) ∨ ∃ x, minRating st = Fin x ∧ x <= rating p.

(** The query term, trimmed and case-folded. *)
Definition term : string := toLowerCase E (trim E (q st)).

(** The case-folded concatenation of name, address, city, neighborhood,
    all cuisines, all tags and notes, space-joined, missing ones
    omitted. *)
Definition searched_text : string :=
  toLowerCase E
    (join " "
       (filter (λ s, s ≠ "")
          ([text p "name"; text p "address"; text p "city"; text p "neighborhood"]
           ++ labels p "cuisine" ++ labels p "tags" ++ [text p "notes"])%list)).

Definition text_ok : Prop := term = "" ∨ substring_of term searched_text.

(** A place matches iff all active predicates hold. *)
Definition matches : Prop :=
  city_ok ∧ neighborhood_ok ∧ cuisine_ok ∧ tag_ok ∧ price_ok ∧
  wouldReturn_ok ∧ minRating_ok ∧ text_ok.
End Predicates.

(** [st'] is [st] with one of its constraints deactivated. *)
Inductive relaxes (st : UrlState) : UrlState → Prop :=
  | relax_q : relaxes st
      {| q := ""; city := city st; cuisine := cuisine st;
         neighborhood := neighborhood st; tag := tag st; minRating := minRating st;
         price := price st; wouldReturn := wouldReturn st; sort := sort st |}
  | relax_city : relaxes st
      {| q := q st; city := ""; cuisine := cuisine st;
         neighborhood := neighborhood st; tag := tag st; minRating := minRating st;
         price := price st; wouldReturn := wouldReturn st; sort := sort st |}
  | relax_cuisine : relaxes st
      {| q := q st; city := city st; cuisine := "";
         neighborhood := neighborhood st; tag := tag st; minRating := minRating st;
         price := price st; wouldReturn := wouldReturn st; sort := sort st |}
  | relax_neighborhood : relaxes st
      {| q := q st; city := city st; cuisine := cuisine st;
         neighborhood := ""; tag := tag st; minRating := minRating st;
         price := price st; wouldReturn := wouldReturn st; sort := sort st |}
  | relax_tag : relaxes st
      {| q := q st; city := city st; cuisine := cuisine st;
         neighborhood := neighborhood st; tag := ""; minRating := minRating st;
         price := price st; wouldReturn := wouldReturn st; sort := sort st |}
  | relax_minRating : relaxes st
      {| q := q st; city := city st; cuisine := cuisine st;
         neighborhood := neighborhood st; tag := tag st; minRating := Fin 0;
         price := price st; wouldReturn := wouldReturn st; sort := sort st |}
  | relax_price : relaxes st
      {| q := q st; city := city st; cuisine := cuisine st;
         neighborhood := neighborhood st; tag := tag st; minRating := minRating st;
         price := Fin 0; wouldReturn := wouldReturn st; sort := sort st |}
  | relax_wouldReturn : relaxes st
      {| q := q st; city := city st; cuisine := cuisine st;
         neighborhood := neighborhood st; tag := tag st; minRating := minRating st;
         price := price st; wouldReturn := false; sort := sort st |}.

(** A query state of the canonical parameter set: the two numbers are 0
    (unconstrained) or positive, and printing and reading a positive one
    gives it back, as it does for every JavaScript number; the sort is one
    of [SORTS]. *)
Definition canonical_number (E : Engine) (n : num) : Prop :=
  ∃ x, n = Fin x ∧ 0 <= x ∧ (0 < x → StringToNumber E (NumberToString E x) = Fin x).

Definition canonical (E : Engine) (st : UrlState) : Prop :=
  canonical_number E (minRating st) ∧ canonical_number E (price st) ∧
  sort st ∈ SORTS.

End Spec.

(** ** The state a query string carries *)

(** A number that printing and reading give back, when it is positive (as
    they do for every JavaScript number). *)
Definition printable (E : Engine) (n : num) : Prop :=
  ∀ x, n = Fin x → 0 < x → StringToNumber E (NumberToString E x) = Fin x.

(** A state as [writeUrlState] writes it: a number that is not positive is
    left out, which reads as 0, and an empty sort reads as the default. *)
Definition as_written (st : UrlState) : UrlState :=
  {| q := q st; city := city st; cuisine := cuisine st;
     neighborhood := neighborhood st; tag := tag st;
     minRating := if num_ltb (Fin 0) (minRating st) then minRating st else Fin 0;
     price := if num_ltb (Fin 0) (price st) then price st else Fin 0;
     wouldReturn := wouldReturn st;
     sort := if nonempty (sort st) then sort st else "top" |}.

(** ** The dropdowns *)

(** The four dropdowns that are filled from the data, their options, the
    state after one option is chosen with every other filter cleared, and
    what it means that a place has the chosen value. *)
Inductive facet := FCity | FHood | FCuisine | FTag.

Definition facet_options (E : Engine) (f : facet) (places : list place)
    : option (list value) :=
  match f with
  | FCity => facet_cities E places
  | FHood => facet_hoods E places
  | FCuisine => facet_cuisines E places
  | FTag => facet_tags E places
  end.

Definition chosen (f : facet) (c : string) : UrlState :=
  {| q := "";
     city := if f is FCity then c else "";
     cuisine := if f is FCuisine then c else "";
     neighborhood := if f is FHood then c else "";
     tag := if f is FTag then c else "";
     minRating := Fin 0; price := Fin 0; wouldReturn := false; sort := "top" |}.

Definition has_value (f : facet) (p : place) (c : string) : Prop :=
  match f with
  | FCity => field p "city" = VStr c
  | FHood => field p "neighborhood" = VStr c
  | FCuisine => c ∈ Spec.labels p "cuisine"
  | FTag => c ∈ Spec.labels p "tags"
  end.

(** ** Counting labels *)

(** The cuisine labels of a dataset, place by place, and the number of
    occurrences of a label. *)
Definition cuisine_labels (places : list place) : list string :=
  concat (map (λ p, Spec.labels p "cuisine") places).

Definition occurrences (labels : list string) (s : string) : Qc :=
  count (filter (λ l, l = s) labels).

(** The counting of [cuisineCounts] on strings: the entry of a label is
    raised by one, a label without an entry gets one at the end. *)
Fixpoint bump (counts : list (string * Qc)) (s : string) : list (string * Qc) :=
  match counts with
  | [] => [(s, 0 + 1)]
  | (k, n) :: rest =>
      if String.eqb k s then (k, n + 1) :: rest else (k, n) :: bump rest s
  end.

(** The count of the first entry of a label, 0 without one. *)
Fixpoint amount (counts : list (string * Qc)) (s : string) : Qc :=
  match counts with
  | [] => 0
  | (k, n) :: rest => if String.eqb k s then n else amount rest s
  end.

(** The entries of a Map with string keys. *)
Definition entries (counts : list (string * Qc)) : list (value * Qc) :=
  map (λ e, (VStr e.1, e.2)) counts.

(** ** The shape of a slug *)

(** Only characters of [a-z0-9] and hyphens, and no hyphen right after a
    hyphen. *)
Fixpoint single_hyphens (s : string) : bool :=
  match s with
  | EmptyString => true
  | String c s' =>
      (AddPlace.is_slug_letter c || Ascii.eqb c "-" && negb (starts_with "-" s')) &&
      single_hyphens s'
  end.

(** The last character is a hyphen. *)
Fixpoint ends_hyphen (s : string) : bool :=
  match s with
  | EmptyString => false
  | String c EmptyString => Ascii.eqb c "-"
  | String _ s' => ends_hyphen s'
  end.

(** ** Sort keys *)

(** What a strategy orders a place by: the name or the visit date, the
    rating key, the distance from the user; a place without valid
    coordinates has no distance, and without a user location no place has
    one. *)
Inductive sort_key := KeyText (s : string) | KeyNumber (x : Qc) | KeyNone.

#[global] Instance sort_key_eq_dec : EqDecision sort_key.
Proof. solve_decision. Defined.

Definition sort_key_of (E : Engine) (st : UrlState) (myLoc : option (Qc * Qc))
    (a : place) : sort_key :=
  if String.eqb (sort st) "name" then KeyText (text_or_empty (field a "name"))
  else if String.eqb (sort st) "recent" then KeyText (text_or_empty (field a "visitedAt"))
  else if String.eqb (sort st) "nearest" then
    match myLoc with
    | None => KeyNone
    | Some loc =>
        match distance E loc a with
        | Some d => KeyNumber d
        | None => KeyNone
        end
    end
  else KeyNumber (top_key E a).

(** [a] comes before [b] in [l], at some pair of positions. *)
Definition before {A} (a b : A) (l : list A) : Prop :=
  ∃ l1 l2 l3, l = (l1 ++ a :: l2 ++ b :: l3)%list.

(** ** Sample data *)

Module Ex.

(** The base dataset and the overlay of the scenario in section 8 of the
    specification. *)
Definition ramen : place :=
  {[ "id" := VStr "a"; "name" := VStr "Ramen House"; "rating" := VNum (Q2Qc 4.5);
     "price" := VNum (Q2Qc 2); "city" := VStr "Seattle" ]}.

Definition taco : place :=
  {[ "id" := VStr "b"; "name" := VStr "Taco Stand"; "rating" := VNum (Q2Qc 3);
     "price" := VNum (Q2Qc 1); "city" := VStr "Bellevue" ]}.

Definition overlay : value := VObj {[ "b" := VObj {[ "rating" := VNum (Q2Qc 4.8) ]} ]}.

(** The text [saveEdits] stores for that overlay. *)
Definition quoted (s : string) : string := String dquote (s ++ String dquote "").
Definition stored_overlay : string :=
  "{" ++ quoted "b" ++ ":{" ++ quoted "rating" ++ ":4.8}}".

(** A query state with nothing constrained and the given sort. *)
Definition query (sort_by : string) : UrlState :=
  {| q := ""; city := ""; cuisine := ""; neighborhood := ""; tag := "";
     minRating := Fin 0; price := Fin 0; wouldReturn := false; sort := sort_by |}.

(** A query state as a shared link carries it. *)
Definition shared_query : UrlState :=
  {| q := "ramen & tea"; city := "Seattle"; cuisine := ""; neighborhood := "";
     tag := "date-night"; minRating := Fin (Q2Qc 4.5); price := Fin (Q2Qc 2);
     wouldReturn := true; sort := "name" |}.

(** The effective list and the query of the scenario: minimum rating 4,
    top rated first. *)
Definition effective : list place := places engine_le [ramen; taco] overlay.
Definition rated_four : UrlState :=
  {| q := ""; city := ""; cuisine := ""; neighborhood := ""; tag := "";
     minRating := Fin (Q2Qc 4); price := Fin 0; wouldReturn := false; sort := "top" |}.

(** A state as the link [?minRating=-1] leaves it. *)
Definition negative_threshold : UrlState :=
  {| q := ""; city := ""; cuisine := ""; neighborhood := ""; tag := "";
     minRating := Fin (-1); price := Fin 0; wouldReturn := false; sort := "top" |}.

(** A state as the link [?price=-1] leaves it. *)
Definition negative_price : UrlState :=
  {| q := ""; city := ""; cuisine := ""; neighborhood := ""; tag := "";
     minRating := Fin 0; price := Fin (-1); wouldReturn := false; sort := "top" |}.

(** A place that was never rated and one rated 0. *)
Definition unrated : place := {[ "id" := VStr "u"; "name" := VStr "Closed Diner" ]}.
Definition rated_zero : place :=
  {[ "id" := VStr "z"; "name" := VStr "Sad Salad"; "rating" := VNum 0 ]}.

(** Two places without coordinates and one with; a user location. *)
Definition popup : place := {[ "id" := VStr "m"; "name" := VStr "Pop-up" ]}.
Definition truck : place := {[ "id" := VStr "n"; "name" := VStr "Food Truck" ]}.
Definition cafe : place :=
  {[ "id" := VStr "c"; "name" := VStr "Corner Cafe";
     "lat" := VNum (Q2Qc 47.61); "lon" := VNum (Q2Qc (-122.33)) ]}.
Definition bakery : place :=
  {[ "id" := VStr "k"; "name" := VStr "Far Bakery";
     "lat" := VNum (Q2Qc 47.9); "lon" := VNum (Q2Qc (-122.1)) ]}.
Definition here : Qc * Qc := (Q2Qc 47.6, Q2Qc (-122.3)).

(** An overlay entry that carries a name. *)
Definition renaming_overlay : value :=
  VObj {[ "a" := VObj {[ "name" := VStr "Noodle Bar" ]} ]}.

(** A state with a number that is no number and without a sort, as a
    hand-written link leaves it. *)
Definition loose_query : UrlState :=
  {| q := "pho"; city := ""; cuisine := ""; neighborhood := ""; tag := "";
     minRating := NaN; price := Fin (Q2Qc 2); wouldReturn := false; sort := "" |}.

(** What the edit form holds after a rating, a price and a note were typed
    in. *)
Definition typed_draft : Draft :=
  {| draft_rating := VStr "4.5"; draft_price := VStr "2";
     draft_wouldReturn := VBool true; draft_notes := VStr "get the broth";
     draft_photo := VStr "" |}.

(** A dataset with cuisines and tags. *)
Definition izakaya : place :=
  {[ "id" := VStr "i"; "name" := VStr "Izakaya Ten"; "city" := VStr "Seattle";
     "cuisine" := VArr [VStr "Japanese"]; "tags" := VArr [VStr "late-night"];
     "rating" := VNum (Q2Qc 4); "wouldReturn" := VBool true ]}.
Definition noodle_bar : place :=
  {[ "id" := VStr "r"; "name" := VStr "Noodle Bar"; "city" := VStr "Bellevue";
     "cuisine" := VArr [VStr "Ramen"; VStr "Japanese"];
     "tags" := VArr [VStr "date-night"]; "rating" := VNum (Q2Qc 4.5) ]}.
Definition dataset : list place := [izakaya; noodle_bar; taco].

(** Forty places, 23 of them to return to; a place rated with the double
    nearest to 0.1. *)
Definition survey : list place := (replicate 23 izakaya ++ replicate 17 taco)%list.
Definition tenth : place :=
  {[ "id" := VStr "t"; "rating" := VNum (Float.binary64 (Q2Qc 0.1)) ]}.

(** A result of the geocoder; the place the script builds from it without
    a point of interest, and the text of the dataset that holds that place
    alone. *)
Definition geocoded : place :=
  {[ "name" := VStr "Sushi Kashiba";
     "formatted" := VStr "Sushi Kashiba, 86 Pine St, Seattle, WA 98101";
     "lat" := VNum (Q2Qc 47.6097); "lon" := VNum (Q2Qc (-122.3331));
     "city" := VStr "Seattle"; "suburb" := VStr "Downtown";
     "categories" := VArr [VStr "catering"; VStr "catering.restaurant";
                           VStr "catering.restaurant.sushi"] ]}.

Definition added : place :=
  match AddPlace.newPlace engine_le (VObj geocoded) VNull (Qc_of_Z 1700000000000)
                          "2024-01-01" with
  | Normal p => p
  | Throw => ∅
  end.

Definition dataset_text : string :=
  default "" (Sample.JSON_stringify (VArr [VObj added])).

End Ex.

(** * Properties *)

(** ** The merge stage *)

Section Merge.
Context (E : Engine).

Lemma own_props_falsy v : ToBoolean v = false → own_props E v = ∅.
Proof.
  destruct v as [| |b|x|s|l|o]; simpl; try done.
  destruct s; [done|]. discriminate.
Qed.

Lemma merge_place_lookup edits p k :
  merge_place E edits p !! k =
    match own_props E (patch_of E edits p) !! k with
    | Some v => Some v
    | None => p !! k
    end.
Proof.
  unfold merge_place, patch_of.
  destruct (ToBoolean _) eqn:Hb.
  - rewrite lookup_union. by destruct (own_props _ _ !! k), (p !! k).
  - by rewrite own_props_falsy, lookup_empty.
Qed.

Lemma merge_place_no_patch edits p :
  own_props E (patch_of E edits p) = ∅ → merge_place E edits p = p.
Proof.
  intros He. apply map_eq. intros k.
  by rewrite merge_place_lookup, He, lookup_empty.
Qed.

End Merge.

Lemma get_entry (E : Engine) (o : gmap string value) (k : string) :
  get E (VObj o) k = default VUndef (o !! k).
Proof.
  unfold get. cbn [own_props]. destruct (o !! k); [done|].
  by destruct (String.eqb k "length").
Qed.

(** C1, patch precedence.  The merge keeps the order and the length of the
    base list.  The patch of a place is the entry that the overlay mapping
    holds for the identifier of the place, read as a property name (its
    string).  When there is such a patch, every field that the patch has
    (also one set to null) has the value of the patch in the merged place,
    and every other field has the value of the base place; when the
    mapping has no entry for the identifier, the merged place is the base
    place. *)
Theorem merge_patch_precedence (E : Engine) (basePlaces : list place)
    (overlay : gmap string value) :
  Forall2
    (λ p p',
       (∀ patch, overlay !! ToString E (field p "id") = Some (VObj patch) →
          ∀ k, p' !! k = match patch !! k with
                         | Some v => Some v
                         | None => p !! k
                         end) ∧
       (overlay !! ToString E (field p "id") = None → p' = p))
    basePlaces (places E basePlaces (VObj overlay)).
Proof.
  unfold places. induction basePlaces as [|p l IH]; simpl; constructor; [|done].
  split.
  - intros patch Hpatch k. rewrite merge_place_lookup. unfold patch_of.
    by rewrite get_entry, Hpatch.
  - intros Hnone. apply merge_place_no_patch. unfold patch_of.
    by rewrite get_entry, Hnone.
Qed.

(** A field the patch sets to null is null in the merged place. *)
Lemma merge_explicit_null (E : Engine) edits p k :
  own_props E (patch_of E edits p) !! k = Some VNull →
  field (merge_place E edits p) k = VNull.
Proof. intros H. unfold field. by rewrite merge_place_lookup, H. Qed.

(** C9, the empty overlay.  Merging with an empty overlay returns the base
    list: the same places in the same order. *)
Theorem merge_empty_overlay (E : Engine) (basePlaces : list place) :
  places E basePlaces (VObj ∅) = basePlaces.
Proof.
  unfold places. induction basePlaces as [|p l IH]; simpl; [done|].
  f_equal; [|done]. apply merge_place_no_patch.
  unfold patch_of. simpl. rewrite lookup_empty.
  by destruct (String.eqb _ _).
Qed.

(** C6 as the code has it.  When the patch of a place has none but the
    fields the edit form writes, the merged place has the identifier, the name
    and the coordinates of the base place, and every other field outside
    those five. *)
Theorem merge_frame (E : Engine) (edits : value) (p : place) :
  dom (own_props E (patch_of E edits p)) ⊆ mutable_fields →
  field (merge_place E edits p) "id" = field p "id" ∧
  field (merge_place E edits p) "name" = field p "name" ∧
  field (merge_place E edits p) "lat" = field p "lat" ∧
  field (merge_place E edits p) "lon" = field p "lon" ∧
  ∀ k, k ∉ mutable_fields → merge_place E edits p !! k = p !! k.
Proof.
  intros Hdom.
  assert (Hk : ∀ k, k ∉ mutable_fields → merge_place E edits p !! k = p !! k).
  { intros k Hk. rewrite merge_place_lookup.
    destruct (own_props _ _ !! k) eqn:Hl; [|done].
    exfalso. apply Hk, Hdom. apply elem_of_dom. eauto. }
  unfold field.
  repeat split; try (rewrite Hk; [done|by apply (bool_decide_unpack _); vm_compute]).
  exact Hk.
Qed.

Lemma merge_frame_witness :
  dom (own_props engine_le (patch_of engine_le Ex.overlay Ex.taco)) ⊆ mutable_fields ∧
  field (merge_place engine_le Ex.overlay Ex.taco) "name" = field Ex.taco "name".
Proof.
  assert (H : dom (own_props engine_le (patch_of engine_le Ex.overlay Ex.taco))
              ⊆ mutable_fields).
  { replace (own_props engine_le (patch_of engine_le Ex.overlay Ex.taco))
      with ({[ "rating" := VNum (Q2Qc 4.8) ]} : gmap string value)
      by (vm_compute; reflexivity).
    rewrite dom_singleton_L. apply (bool_decide_unpack _). vm_compute. exact I. }
  split; [exact H|].
  exact (proj1 (proj2 (merge_frame engine_le Ex.overlay Ex.taco H))).
Defined.

(** C6 as stated fails: the spread copies every field of the patch, so an
    overlay entry that carries a name replaces the name. *)
Lemma merge_frame_counterexample :
  field (merge_place engine_le Ex.renaming_overlay Ex.ramen) "name" ≠
  field Ex.ramen "name".
Proof. vm_compute. discriminate. Qed.

(** ** The overlay store *)

Lemma typeof_object v :
  ToBoolean v && String.eqb (typeof v) "object" = true ↔
  (∃ o, v = VObj o) ∨ (∃ l, v = VArr l).
Proof.
  split.
  - destruct v as [| |b|x|s|l|o]; simpl; rewrite ?andb_false_r; try done; eauto.
  - by intros [[o ->]|[l ->]].
Qed.

(** C8 as the code has it.  [loadEdits] never raises.  What it returns is
    the empty mapping, unless the stored text is not empty and parses to an
    object or an array, and then it is that value: a stored text that is
    absent, empty or malformed, or that parses to null, a boolean, a number or
    a string, gives the empty mapping. *)
Theorem loadEdits_fails_open (E : Engine) (storage : Storage) :
  ∃ v, loadEdits E storage = Normal v ∧
    (v ≠ VObj ∅ →
       ∃ m raw, storage = Items m ∧ m !! EDITS_KEY = Some raw ∧ raw ≠ "" ∧
                JSON_parse E raw = Some v ∧
                ((∃ o, v = VObj o) ∨ (∃ l, v = VArr l))) ∧
    (∀ m raw v0,
       storage = Items m → m !! EDITS_KEY = Some raw → raw ≠ "" →
       JSON_parse E raw = Some v0 →
       (∃ o, v0 = VObj o) ∨ (∃ l, v0 = VArr l) →
       v = v0).
Proof.
  unfold loadEdits. destruct storage as [|m]; simpl.
  { eexists; split; [done|]. split; [done|]. by intros. }
  destruct (m !! EDITS_KEY) as [raw|] eqn:Hraw; simpl.
  2:{ eexists; split; [done|]. split; [done|].
      intros m' raw' v0 [= <-] Hr. congruence. }
  unfold nonempty. rewrite negb_involutive.
  destruct (String.eqb_spec raw "") as [->|Hne]; simpl.
  { eexists; split; [done|]. split; [done|].
    intros m' raw' v0 [= <-] Hr. congruence. }
  destruct (JSON_parse E raw) as [parsed|] eqn:Hp; simpl.
  2:{ eexists; split; [done|]. split; [done|].
      intros m' raw' v0 [= <-] Hr _ Hp'. congruence. }
  destruct (ToBoolean parsed && String.eqb (typeof parsed) "object") eqn:Hobj.
  - apply typeof_object in Hobj.
    eexists; split; [done|]. split.
    + intros _. exists m, raw. done.
    + intros m' raw' v0 [= <-] Hr _ Hp' _. congruence.
  - eexists; split; [done|]. split; [done|].
    intros m' raw' v0 [= <-] Hr _ Hp' Hv.
    assert (v0 = parsed) as -> by congruence.
    apply typeof_object in Hv. congruence.
Qed.

Lemma loadEdits_fails_open_witness :
  ∃ v, loadEdits engine_le (Items {[ EDITS_KEY := Ex.stored_overlay ]}) = Normal v ∧
       v = Ex.overlay.
Proof.
  destruct (loadEdits_fails_open engine_le (Items {[ EDITS_KEY := Ex.stored_overlay ]}))
    as (v & Hv & _ & Hobj).
  exists v. split; [exact Hv|].
  eapply Hobj; [reflexivity|reflexivity|discriminate| |].
  - vm_compute. reflexivity.
  - left. eexists. reflexivity.
Defined.

(** C8 as stated fails on a stored array: it is JSON that is no object
    mapping, and [loadEdits] returns it. *)
Lemma loadEdits_array_counterexample :
  JSON_parse engine_le "[1]" = Some (VArr [VNum 1]) ∧
  loadEdits engine_le (Items {[ EDITS_KEY := "[1]" ]}) ≠ Normal (VObj ∅).
Proof. split; [vm_compute; reflexivity|]. vm_compute. discriminate. Qed.

(** ** The filter stage *)

Section FilterC.
Context {A : Type} (f : A → completion bool).

Lemma filter_c_sublist l out : filter_c f l = Normal out → out `sublist_of` l.
Proof.
  revert out. induction l as [|x l IH]; simpl; intros out H.
  - injection H as <-. constructor.
  - destruct (f x) as [b|]; [|done]. simpl in H.
    destruct (filter_c f l) as [r|]; [|done]. simpl in H.
    injection H as <-. destruct b; [apply sublist_skip|apply sublist_cons]; auto.
Qed.

Lemma filter_c_elem_of l out x :
  filter_c f l = Normal out → x ∈ out ↔ x ∈ l ∧ f x = Normal true.
Proof.
  revert out. induction l as [|y l IH]; simpl; intros out H.
  - injection H as <-. split; [by intros ?%elem_of_nil|by intros [?%elem_of_nil _]].
  - destruct (f y) as [b|] eqn:Hy; [|done]. simpl in H.
    destruct (filter_c f l) as [r|]; [|done]. simpl in H.
    injection H as <-. specialize (IH r eq_refl).
    destruct b; rewrite ?elem_of_cons, IH; split.
    + intros [->|[? ?]]; auto.
    + intros [[->|?] ?]; auto.
    + intros [? ?]; auto.
    + intros [[->|?] ?]; [congruence|auto].
Qed.

Lemma filter_c_total l :
  Forall (λ x, ∃ b, f x = Normal b) l → ∃ out, filter_c f l = Normal out.
Proof.
  induction 1 as [|x l [b Hb] _ [r Hr]]; simpl; [by eexists|].
  rewrite Hb, Hr. simpl. by eexists.
Qed.

Lemma filter_c_mono (g : A → completion bool) l out out' :
  (∀ x, x ∈ l → f x = Normal true → g x = Normal true) →
  filter_c f l = Normal out → filter_c g l = Normal out' →
  out `sublist_of` out'.
Proof.
  revert out out'. induction l as [|x l IH]; simpl; intros out out' Hfg Hf Hg.
  - injection Hf as <-. injection Hg as <-. constructor.
  - destruct (f x) as [b|] eqn:Hfx; [|done]. simpl in Hf.
    destruct (filter_c f l) as [r|]; [|done]. simpl in Hf.
    destruct (g x) as [b'|] eqn:Hgx; [|done]. simpl in Hg.
    destruct (filter_c g l) as [r'|]; [|done]. simpl in Hg.
    injection Hf as <-. injection Hg as <-.
    assert (r `sublist_of` r') as Hr.
    { apply IH; [|done|done]. intros y Hy. apply Hfg. by right. }
    destruct b.
    + rewrite (Hfg x) in Hgx by (done || by left). injection Hgx as <-.
      by apply sublist_skip.
    + destruct b'; [by apply sublist_cons|done].
Qed.

End FilterC.

(** [t] occurs in [s], as [String.prototype.includes] decides it. *)
Lemma starts_with_app t s : starts_with t s = true ↔ ∃ post, s = t ++ post.
Proof.
  revert s. induction t as [|c t IH]; intros s.
  - split; [intros _; by exists s|done].
  - destruct s as [|d s]; simpl.
    { split; [done|]. by intros [post Hp]. }
    destruct (Ascii.eqb_spec c d) as [->|Hne]; simpl.
    + rewrite IH. split; intros [post Hp]; exists post.
      * by rewrite Hp.
      * by injection Hp.
    + split; [done|]. intros [post Hp]. injection Hp as -> _. done.
Qed.

Lemma str_includes_spec s t : str_includes s t = true ↔ Spec.substring_of t s.
Proof.
  unfold Spec.substring_of. induction s as [|c s IH]; simpl.
  - rewrite orb_false_r, starts_with_app. split.
    + intros [post ->]. by exists "", post.
    + intros ([|d pre] & post & H); [by exists post|done].
  - rewrite orb_true_iff, starts_with_app, IH. split.
    + intros [[post ->]|(pre & post & ->)]; [by exists "", post|by exists (String c pre), post].
    + intros ([|d pre] & post & H); [left; by exists post|].
      right. injection H as -> ->. by exists pre, post.
Qed.

Lemma Qclt_irrefl (x : Qc) : ¬ x < x.
Proof. apply Qcle_not_lt, Qcle_refl. Qed.

(** The callback of the filter against the predicates of section 4.3. *)
(** The filter reads a state as [writeUrlState] writes it. *)
Lemma keep_as_written (E : Engine) (st : UrlState) (qq : string) (p : place) :
  keep E (as_written st) qq p = keep E st qq p.
Proof.
  unfold keep, as_written.
  cbn [q city cuisine neighborhood tag minRating price wouldReturn sort].
  destruct (num_ltb (Fin 0) (price st)) eqn:H1;
  destruct (num_ltb (Fin 0) (minRating st)) eqn:H2; rewrite ?H1, ?H2; try done.
Qed.

Lemma nonnegative_zero : Spec.nonnegative (Fin 0).
Proof. exists 0. split; [done|]. apply Qcle_refl. Qed.

Lemma nonnegative_as_written (n : num) :
  Spec.nonnegative (if num_ltb (Fin 0) n then n else Fin 0).
Proof.
  destruct n as [|x]; simpl; [apply nonnegative_zero|].
  case_bool_decide as Hx; [|apply nonnegative_zero].
  exists x. split; [done|]. by apply Qclt_le_weak.
Qed.

(** For a number that is 0 or positive, "not 0" is the test [> 0] of the
    code. *)
Lemma active_nonnegative (n : num) :
  Spec.nonnegative n → Spec.active n ↔ ∃ x, n = Fin x ∧ 0 < x.
Proof.
  intros (y & -> & Hy). unfold Spec.active. split.
  - intros Hn. exists y. split; [done|].
    apply Qcle_lt_or_eq in Hy as [?|<-]; [done|]. by destruct Hn.
  - intros (x & [= <-] & Hx) [= ->]. by apply Qclt_irrefl in Hx.
Qed.

Section KeepSpec.
Context (E : Engine) (st : UrlState) (p : place).

Lemma nonempty_false s : nonempty s = false ↔ s = "".
Proof.
  unfold nonempty. rewrite negb_false_iff. apply String.eqb_eq.
Qed.

Lemma text_check k c :
  is_text (field p k) →
  nonempty c && negb (is_str (or_else (field p k) (VStr "")) c) = false ↔
  c = "" ∨ Spec.text p k = c.
Proof.
  intros Ht. rewrite andb_false_iff, negb_false_iff, nonempty_false.
  unfold Spec.text, or_else.
  destruct (field p k) as [| |b|x|s|l|o]; simpl in *; try done.
  - destruct c; naive_solver.
  - destruct c; naive_solver.
  - destruct (String.eqb_spec s "") as [->|Hs]; simpl.
    + destruct c; naive_solver.
    + by rewrite String.eqb_eq.
Qed.

Lemma existsb_is_str (l : list value) c :
  existsb (λ e, is_str e c) l = true ↔
  c ∈ omap (λ e, match e with VStr s => Some s | _ => None end) l.
Proof.
  induction l as [|e l IH]; simpl.
  - split; [done|by intros ?%elem_of_nil].
  - rewrite orb_true_iff, IH.
    destruct e as [| |b|x|s|l'|o]; simpl; rewrite ?elem_of_cons, ?String.eqb_eq;
      naive_solver.
Qed.

Lemma labels_check k c :
  is_labels (field p k) →
  ∃ b, and_then (nonempty c)
         (not_c (includes (or_else (field p k) (VArr [])) c)) = Normal b ∧
       (b = false ↔ c = "" ∨ c ∈ Spec.labels p k).
Proof.
  intros Hl. unfold Spec.labels, or_else, and_then.
  destruct (nonempty c) eqn:Hc.
  2:{ exists false. split; [done|]. apply nonempty_false in Hc. tauto. }
  assert (c ≠ "") as Hne.
  { intros ->. done. }
  destruct (field p k) as [| |b|x|s|l|o]; simpl in *; try done.
  - exists true. split; [done|]. split; [done|]. intros [?|?%elem_of_nil]; done.
  - exists true. split; [done|]. split; [done|]. intros [?|?%elem_of_nil]; done.
  - eexists. split; [done|]. rewrite negb_false_iff, existsb_is_str. tauto.
Qed.

Lemma price_check :
  Spec.nonnegative (price st) → is_number (field p "price") →
  num_ltb (Fin 0) (price st) &&
    negb (num_eqb (ToNumber E (or_else (field p "price") (VNum 0))) (price st)) = false ↔
  Spec.price_ok st p.
Proof.
  intros Hnn Hn. unfold Spec.price_ok. rewrite (active_nonnegative _ Hnn).
  unfold Spec.price_tier.
  destruct (price st) as [|y]; simpl.
  { split; [|done]. intros _. left. intros (x & ? & ?). done. }
  rewrite andb_false_iff, bool_decide_eq_false, negb_false_iff.
  assert (ToNumber E (or_else (field p "price") (VNum 0)) =
          match field p "price" with VNum x => Fin x | _ => Fin 0 end) as ->.
  { unfold or_else. destruct (field p "price") as [| |b|x|s|l|o]; simpl in *; try done.
    destruct (bool_decide (x = 0)) eqn:Hx; simpl; [|done].
    apply bool_decide_eq_true in Hx. by subst. }
  split.
  - intros [Hy|He].
    + left. intros (x & [= <-] & ?). done.
    + destruct (field p "price") as [| |b|x|s|l|o]; simpl in *; try done.
      * apply bool_decide_eq_true in He. subst. left. intros (x & [= <-] & Hx).
        by apply Qclt_irrefl in Hx.
      * apply bool_decide_eq_true in He. subst. left. intros (x & [= <-] & Hx).
        by apply Qclt_irrefl in Hx.
      * apply bool_decide_eq_true in He. subst. by right.
  - intros [Hna|He].
    + left. intros Hy. apply Hna. by exists y.
    + destruct (field p "price") as [| |b|x|s|l|o]; simpl in *; try done.
      injection He as ->. right. by apply bool_decide_eq_true.
Qed.

Lemma wouldReturn_check :
  wouldReturn st && negb (is_true (field p "wouldReturn")) = false ↔
  Spec.wouldReturn_ok st p.
Proof.
  unfold Spec.wouldReturn_ok. rewrite andb_false_iff, negb_false_iff.
  destruct (wouldReturn st); destruct (field p "wouldReturn") as [| |[]|x|s|l|o];
    simpl; naive_solver.
Qed.

Lemma rating_or_zero_spec : rating_or_zero p = Fin (Spec.rating p).
Proof. unfold rating_or_zero, Spec.rating. by destruct (field p "rating"). Qed.

Lemma minRating_check :
  Spec.nonnegative (minRating st) →
  num_ltb (Fin 0) (minRating st) && num_ltb (rating_or_zero p) (minRating st) = false ↔
  Spec.minRating_ok st p.
Proof.
  intros Hnn. unfold Spec.minRating_ok. rewrite (active_nonnegative _ Hnn).
  rewrite rating_or_zero_spec.
  destruct (minRating st) as [|y]; simpl.
  { split; [|done]. intros _. left. intros (x & ? & ?). done. }
  rewrite andb_false_iff, !bool_decide_eq_false. split.
  - intros [Hy|Hr].
    + left. intros (x & [= <-] & ?). done.
    + right. exists y. split; [done|]. by apply Qcnot_lt_le.
  - intros [Hna|(x & [= <-] & Hx)].
    + left. intros Hy. apply Hna. by exists y.
    + right. by apply Qcle_not_lt.
Qed.

End KeepSpec.

Section HaySpec.
Context (E : Engine).

Lemma filter_cons_app {A} (P : A → Prop) `{∀ x, Decision (P x)} x l :
  filter P (x :: l) = (filter P [x] ++ filter P l)%list.
Proof. exact (filter_app P [x] l). Qed.

Lemma text_item v rest :
  is_text v →
  map (ToString E) (filter (λ v, ToBoolean v) (v :: rest)) =
  (filter (λ s, s ≠ "") [match v with VStr s => s | _ => "" end] ++
   map (ToString E) (filter (λ v, ToBoolean v) rest))%list.
Proof.
  intros Ht. rewrite !filter_cons, filter_nil.
  destruct v as [| |b|x|s|l|o]; simpl in Ht; try done.
  repeat case_decide; simpl; try done;
    exfalso; simpl in *; destruct (String.eqb_spec s ""); naive_solver.
Qed.

Lemma label_items (l : list value) :
  forallb (λ e, match e with VStr _ => true | _ => false end) l →
  map (ToString E) (filter (λ v, ToBoolean v) l) =
  filter (λ s, s ≠ "") (omap (λ e, match e with VStr s => Some s | _ => None end) l).
Proof.
  induction l as [|e l IH]; simpl; [done|].
  intros [He Hl]%andb_prop_elim. destruct e as [| |b|x|s|l'|o]; try done.
  specialize (IH Hl). unfold omap in IH. rewrite !filter_cons.
  repeat case_decide; simpl; rewrite ?IH; try done;
    exfalso; simpl in *; destruct (String.eqb_spec s ""); naive_solver.
Qed.

Lemma spread_labels (p : place) k :
  is_labels (field p k) →
  ∃ l, spread (or_else (field p k) (VArr [])) = Normal l ∧
       map (ToString E) (filter (λ v, ToBoolean v) l) =
       filter (λ s, s ≠ "") (Spec.labels p k).
Proof.
  intros Hl. unfold Spec.labels, or_else.
  destruct (field p k) as [| |b|x|s|l|o]; simpl in *; try done.
  - by exists [].
  - by exists [].
  - exists l. split; [done|]. by apply label_items.
Qed.

Lemma hay_spec (p : place) :
  well_formed p → hay E p = Normal (Spec.searched_text E p).
Proof.
  unfold well_formed. rewrite !andb_True.
  intros ((((((((Hn & Ha) & Hc) & Hh) & Hnotes) & _) & Hcu) & Htags) & _).
  unfold hay, Spec.searched_text.
  destruct (spread_labels p "cuisine" Hcu) as (cs & -> & Hcs).
  destruct (spread_labels p "tags" Htags) as (ts & -> & Hts).
  cbn [bind]. do 3 f_equal.
  rewrite <- !app_comm_cons, !app_nil_l.
  rewrite (text_item (field p "name")) by done.
  rewrite (text_item (field p "address")) by done.
  rewrite (text_item (field p "city")) by done.
  rewrite (text_item (field p "neighborhood")) by done.
  rewrite !filter_app, !map_app, Hcs, Hts.
  rewrite (text_item (field p "notes")) by done.
  rewrite filter_nil. simpl map. rewrite app_nil_r.
  rewrite (filter_cons_app _ (Spec.text p "name") (_ :: _)).
  rewrite (filter_cons_app _ (Spec.text p "address") (_ :: _)).
  rewrite (filter_cons_app _ (Spec.text p "city") (_ :: _)).
  rewrite (filter_cons_app _ (Spec.text p "neighborhood") (_ ++ _)).
  by rewrite !filter_app.
Qed.

End HaySpec.

Lemma keep_spec (E : Engine) (st : UrlState) (p : place) :
  well_formed p → Spec.nonnegative (minRating st) → Spec.nonnegative (price st) →
  ∃ b, keep E st (Spec.term E st) p = Normal b ∧ (b = true ↔ Spec.matches E st p).
Proof.
  intros Hwf Hnmin Hnprice. pose proof (hay_spec E p Hwf) as Hhay.
  unfold well_formed in Hwf. rewrite !andb_True in Hwf.
  destruct Hwf as ((((((((Hn & Ha) & Hc) & Hh) & Hnotes) & _) & Hcu) & Htags) & Hprice).
  unfold keep, reject_if, Spec.matches. cbn [bind].
  destruct (nonempty (city st) && _) eqn:H1.
  { exists false. split; [done|]. split; [done|]. intros (Hm & _).
    apply (text_check p "city") in Hm; [congruence|done]. }
  apply (text_check p "city") in H1; [|done].
  destruct (nonempty (neighborhood st) && _) eqn:H2.
  { exists false. split; [done|]. split; [done|]. intros (_ & Hm & _).
    apply (text_check p "neighborhood") in Hm; [congruence|done]. }
  apply (text_check p "neighborhood") in H2; [|done].
  destruct (labels_check p "cuisine" (cuisine st) Hcu) as (b3 & -> & H3). cbn [bind].
  destruct b3.
  { exists false. split; [done|]. split; [done|]. intros (_ & _ & Hm & _).
    apply H3 in Hm. done. }
  destruct (labels_check p "tags" (tag st) Htags) as (b4 & -> & H4). cbn [bind].
  destruct b4.
  { exists false. split; [done|]. split; [done|]. intros (_ & _ & _ & Hm & _).
    apply H4 in Hm. done. }
  destruct (num_ltb (Fin 0) (price st) && _) eqn:H5.
  { exists false. split; [done|]. split; [done|]. intros (_ & _ & _ & _ & Hm & _).
    apply (price_check E) in Hm; [congruence|done..]. }
  apply (price_check E) in H5; [|done..].
  destruct (wouldReturn st && _) eqn:H6.
  { exists false. split; [done|]. split; [done|]. intros (_ & _ & _ & _ & _ & Hm & _).
    apply wouldReturn_check in Hm. congruence. }
  apply wouldReturn_check in H6.
  destruct (num_ltb (Fin 0) (minRating st) && _) eqn:H7.
  { exists false. split; [done|]. split; [done|].
    intros (_ & _ & _ & _ & _ & _ & Hm & _).
    apply minRating_check in Hm; [congruence|done]. }
  apply minRating_check in H7; [|done].
  assert (Spec.city_ok st p ∧ Spec.neighborhood_ok st p ∧ Spec.cuisine_ok st p ∧
          Spec.tag_ok st p ∧ Spec.price_ok st p ∧ Spec.wouldReturn_ok st p ∧
          Spec.minRating_ok st p) as Hrest.
  { repeat split; try done; [by apply H3|by apply H4]. }
  unfold Spec.text_ok.
  destruct (nonempty (Spec.term E st)) eqn:Hq; cbn [negb].
  - rewrite Hhay. cbn [bind]. eexists. split; [done|].
    rewrite str_includes_spec. split.
    + intros Hs. repeat split; try apply Hrest. by right.
    + intros (_ & _ & _ & _ & _ & _ & _ & [Ht|Hs]); [|done].
      rewrite Ht in Hq. done.
  - apply nonempty_false in Hq. exists true. split; [done|]. split; [|done].
    intros _. repeat split; try apply Hrest. by left.
Qed.

Lemma relaxes_matches (E : Engine) (st st' : UrlState) (p : place) :
  conforming E → Spec.relaxes st st' → Spec.matches E st p → Spec.matches E st' p.
Proof.
  intros HE Hr (H1 & H2 & H3 & H4 & H5 & H6 & H7 & H8).
  destruct Hr; repeat split; try done.
  - left. unfold Spec.term. simpl. by rewrite (trim_empty E HE), (toLowerCase_empty E HE).
  - by left.
  - by left.
  - by left.
  - by left.
  - left. intros Hz. by apply Hz.
  - left. intros Hz. by apply Hz.
Qed.

Lemma relaxes_as_written (st st' : UrlState) :
  Spec.relaxes st st' → Spec.relaxes (as_written st) (as_written st').
Proof.
  assert (Hz : (if num_ltb (Fin 0) (Fin 0) then Fin 0 else Fin 0) = Fin 0).
  { by destruct (num_ltb (Fin 0) (Fin 0)). }
  intros Hr. destruct Hr; unfold as_written at 2;
    cbn [q city cuisine neighborhood tag minRating price wouldReturn sort];
    rewrite ?Hz; constructor.
Qed.

(** The callback of the filter on a place of the data model, for a state
    read as it is written: it returns, and it keeps the place iff the
    predicates of section 4.3 hold. *)
Lemma keep_written_spec (E : Engine) (st : UrlState) (p : place) :
  well_formed p →
  ∃ b, keep E st (Spec.term E st) p = Normal b ∧
       (b = true ↔ Spec.matches E (as_written st) p).
Proof.
  intros Hwf.
  destruct (keep_spec E (as_written st) p Hwf) as (b & Hb & Hiff).
  - apply nonnegative_as_written.
  - apply nonnegative_as_written.
  - exists b. split; [|done]. rewrite <- Hb. symmetry. apply keep_as_written.
Qed.

Lemma filtered_total (E : Engine) (st : UrlState) (ps : list place) :
  Forall well_formed ps → ∃ out, filtered E st ps = Normal out.
Proof.
  intros Hwf. apply filter_c_total. eapply Forall_impl; [exact Hwf|].
  intros p Hp. destruct (keep_written_spec E st p Hp) as (b & Hb & _). by exists b.
Qed.

(** On a place of the data model the price test of src/App.jsx is the test
    of the other copy. *)
Lemma legacy_price_rejects (E : Engine) (st : UrlState) (p : place) :
  is_number (field p "price") →
  Legacy.price_rejects st p =
  num_ltb (Fin 0) (price st) &&
    negb (num_eqb (ToNumber E (or_else (field p "price") (VNum 0))) (price st)).
Proof.
  intros Hn. unfold Legacy.price_rejects, or_else.
  destruct (field p "price") as [| |b|x|s|l|o]; simpl in *; try done.
  by destruct (negb (bool_decide (x = 0))).
Qed.

(** C2, filter conjunction.  For places of the data model the filter
    returns.  When the minimum rating and the price tier of the query are 0
    or positive numbers, a place is in the result iff it is in the list and
    satisfies each predicate of the query: city, neighborhood, cuisine, tag,
    price, would-return, minimum rating and free text.  For every query, a
    query with one constraint deactivated keeps every place of the result,
    in the same order. *)
Theorem filter_conjunction (E : Engine) (st : UrlState) (ps : list place) :
  conforming E → Forall well_formed ps →
  ∃ out, filtered E st ps = Normal out ∧
    (Spec.nonnegative (minRating st) → Spec.nonnegative (price st) →
     ∀ p, p ∈ out ↔ p ∈ ps ∧ Spec.matches E st p) ∧
    (∀ st', Spec.relaxes st st' →
       ∃ out', filtered E st' ps = Normal out' ∧ out `sublist_of` out').
Proof.
  intros HE Hwf.
  destruct (filtered_total E st ps Hwf) as [out Hout]. exists out.
  rewrite Forall_forall in Hwf.
  split; [done|]. split.
  - intros Hmin Hprice p. unfold filtered in Hout.
    rewrite (filter_c_elem_of _ _ _ _ Hout).
    split; intros [Hp Hm]; (split; [done|]);
      destruct (keep_spec E st p (Hwf p Hp) Hmin Hprice) as (b & Hb & Hiff);
      unfold Spec.term in Hb.
    + apply Hiff. congruence.
    + rewrite Hb. f_equal. by apply Hiff.
  - intros st' Hr.
    destruct (filtered_total E st' ps (proj2 (Forall_forall _ _) Hwf)) as [out' Hout'].
    exists out'. split; [done|].
    eapply filter_c_mono; [|exact Hout|exact Hout'].
    intros p Hp Hk.
    destruct (keep_written_spec E st p (Hwf p Hp)) as (b & Hb & Hiff).
    destruct (keep_written_spec E st' p (Hwf p Hp)) as (b' & Hb' & Hiff').
    unfold Spec.term in Hb, Hb'. rewrite Hb'. f_equal. apply Hiff'.
    apply (relaxes_matches E (as_written st)); [done|by apply relaxes_as_written|].
    apply Hiff. congruence.
Qed.

(** C2 as stated fails on a negative price tier: the filter tests
    [price > 0] and keeps every place, while the predicate of section 4.3
    for a price tier other than 0 asks for a place of that tier. *)
Lemma filter_conjunction_counterexample :
  parseUrlState engine_le "?price=-1" = Ex.negative_price ∧
  filtered engine_le Ex.negative_price [Ex.ramen] = Normal [Ex.ramen] ∧
  ¬ Spec.matches engine_le Ex.negative_price Ex.ramen.
Proof.
  split; [vm_compute; reflexivity|]. split; [vm_compute; reflexivity|].
  intros (_ & _ & _ & _ & [Hna|Hp] & _).
  - apply Hna. discriminate.
  - vm_compute in Hp. discriminate Hp.
Qed.

(** C10, the filter returns a subsequence.  Whatever the filter returns is a
    sublist of its input: its elements are elements of the input, none
    occurs more often than there, and they stand in the order of the input.
    For places of the data model the filter does return. *)
Theorem filter_subsequence (E : Engine) (st : UrlState) (ps : list place) :
  (∀ out, filtered E st ps = Normal out → out `sublist_of` ps) ∧
  (Forall well_formed ps → ∃ out, filtered E st ps = Normal out).
Proof.
  split.
  - intros out. apply filter_c_sublist.
  - apply filtered_total.
Qed.

(** ** Sorting with a consistent comparison function *)

Section Consistent.
Context {A : Type} (comparefn : A → A → num) (l0 : list A).
Context (Hc : consistent_on comparefn l0).

#[local] Abbreviation c := (SortCompare comparefn).

Lemma cc_lt_gt a b : a ∈ l0 → b ∈ l0 → c a b < 0 → 0 < c b a.
Proof.
  intros Ha Hb Hab.
  destruct (Qc_dec (c b a) 0) as [[Hlt|Hgt]|Heq]; [|done|].
  - pose proof (cc_trans_lt _ _ Hc a b a Ha Hb Ha Hab Hlt) as Haa.
    rewrite (cc_refl _ _ Hc a Ha) in Haa. by apply Qclt_irrefl in Haa.
  - apply (cc_sym _ _ Hc b a Hb Ha) in Heq. rewrite Heq in Hab.
    by apply Qclt_irrefl in Hab.
Qed.

Lemma cc_gt_lt a b : a ∈ l0 → b ∈ l0 → 0 < c a b → c b a < 0.
Proof.
  intros Ha Hb Hab.
  destruct (Qc_dec (c b a) 0) as [[Hlt|Hgt]|Heq]; [done| |].
  - pose proof (cc_trans_gt _ _ Hc a b a Ha Hb Ha Hab Hgt) as Haa.
    rewrite (cc_refl _ _ Hc a Ha) in Haa. by apply Qclt_irrefl in Haa.
  - apply (cc_sym _ _ Hc b a Hb Ha) in Heq. rewrite Heq in Hab.
    by apply Qclt_irrefl in Hab.
Qed.

Lemma cc_lt_eq a b d :
  a ∈ l0 → b ∈ l0 → d ∈ l0 → c a b < 0 → c b d = 0 → c a d < 0.
Proof.
  intros Ha Hb Hd Hab Hbd.
  destruct (Qc_dec (c a d) 0) as [[Hlt|Hgt]|Heq]; [done| |].
  - pose proof (cc_lt_gt a b Ha Hb Hab) as Hba.
    pose proof (cc_trans_gt _ _ Hc b a d Hb Ha Hd Hba Hgt) as Hbd'.
    rewrite Hbd in Hbd'. by apply Qclt_irrefl in Hbd'.
  - apply (cc_sym _ _ Hc b d Hb Hd) in Hbd.
    pose proof (cc_trans_eq _ _ Hc a d b Ha Hd Hb Heq Hbd) as Hab'.
    rewrite Hab' in Hab. by apply Qclt_irrefl in Hab.
Qed.

Lemma cc_eq_lt a b d :
  a ∈ l0 → b ∈ l0 → d ∈ l0 → c a b = 0 → c b d < 0 → c a d < 0.
Proof.
  intros Ha Hb Hd Hab Hbd.
  destruct (Qc_dec (c a d) 0) as [[Hlt|Hgt]|Heq]; [done| |].
  - pose proof (cc_gt_lt a d Ha Hd Hgt) as Hda.
    pose proof (cc_trans_lt _ _ Hc b d a Hb Hd Ha Hbd Hda) as Hba.
    apply (cc_sym _ _ Hc a b Ha Hb) in Hab. rewrite Hab in Hba.
    by apply Qclt_irrefl in Hba.
  - apply (cc_sym _ _ Hc a b Ha Hb) in Hab.
    pose proof (cc_trans_eq _ _ Hc b a d Hb Ha Hd Hab Heq) as Hbd'.
    rewrite Hbd' in Hbd. by apply Qclt_irrefl in Hbd.
Qed.

Lemma cc_le_trans a b d :
  a ∈ l0 → b ∈ l0 → d ∈ l0 → c a b <= 0 → c b d <= 0 → c a d <= 0.
Proof.
  intros Ha Hb Hd Hab Hbd.
  destruct (Qcle_lt_or_eq _ _ Hab) as [Hab'|Hab'];
    destruct (Qcle_lt_or_eq _ _ Hbd) as [Hbd'|Hbd'].
  - apply Qclt_le_weak. by apply (cc_trans_lt _ _ Hc a b d).
  - apply Qclt_le_weak. by apply (cc_lt_eq a b d).
  - apply Qclt_le_weak. by apply (cc_eq_lt a b d).
  - rewrite (cc_trans_eq _ _ Hc a b d) by done. apply Qcle_refl.
Qed.

Lemma cc_le_total a b : a ∈ l0 → b ∈ l0 → ¬ c a b <= 0 → c b a <= 0.
Proof.
  intros Ha Hb Hab. apply Qcnot_le_lt in Hab.
  apply Qclt_le_weak. by apply cc_gt_lt.
Qed.

Lemma cc_ge_le a b : a ∈ l0 → b ∈ l0 → ¬ c b a < 0 ↔ c a b <= 0.
Proof.
  intros Ha Hb. split.
  - intros Hba. apply Qcnot_lt_le. intros Hab. apply Hba. by apply cc_gt_lt.
  - intros Hab Hba. apply (Qcle_not_lt _ _ Hab). by apply cc_lt_gt.
Qed.

End Consistent.

Section InsertionSort.
Context {A : Type} (stays_before : A → A → bool).

Lemma insert_by_perm x l : insert_by stays_before x l ≡ₚ x :: l.
Proof.
  induction l as [|y l IH]; simpl; [done|].
  destruct (stays_before x y); [done|]. rewrite IH. apply Permutation_swap.
Qed.

Lemma insertion_sort_perm l : insertion_sort stays_before l ≡ₚ l.
Proof.
  induction l as [|x l IH]; [done|].
  change (insertion_sort stays_before (x :: l))
    with (insert_by stays_before x (insertion_sort stays_before l)).
  by rewrite insert_by_perm, IH.
Qed.

Context (comparefn : A → A → num) (l0 : list A).
Context (Hc : consistent_on comparefn l0).
Context (Hstays : ∀ x y, x ∈ l0 → y ∈ l0 →
                    stays_before x y = true ↔ SortCompare comparefn x y <= 0).

#[local] Abbreviation c := (SortCompare comparefn).
#[local] Abbreviation le := (λ a b, SortCompare comparefn a b <= 0).

Lemma insert_by_sorted x l :
  x ∈ l0 → l ⊆ l0 → StronglySorted le l → StronglySorted le (insert_by stays_before x l).
Proof.
  intros Hx. induction l as [|y l IH]; simpl; intros Hl Hs.
  - repeat constructor.
  - assert (y ∈ l0) as Hy by (apply Hl; by left).
    assert (l ⊆ l0) as Hl' by (intros z Hz; apply Hl; by right).
    apply StronglySorted_inv in Hs as [Hs Hall].
    destruct (stays_before x y) eqn:Hxy.
    + apply Hstays in Hxy; [|done..].
      constructor; [by constructor|]. constructor; [done|].
      rewrite Forall_forall in Hall |- *. intros z Hz.
      apply (cc_le_trans comparefn l0 Hc x y z); auto.
    + constructor; [by apply IH|].
      assert (le y x) as Hyx.
      { apply (cc_le_total comparefn l0 Hc); [done..|].
        intros Hle. apply Hstays in Hle; [congruence|done..]. }
      rewrite Forall_forall in Hall |- *. intros z Hz.
      rewrite (insert_by_perm x l) in Hz.
      apply elem_of_cons in Hz as [->|Hz]; auto.
Qed.

Lemma insertion_sort_sorted l :
  l ⊆ l0 → StronglySorted le (insertion_sort stays_before l).
Proof.
  induction l as [|x l IH]; intros Hl; [constructor|].
  change (insertion_sort stays_before (x :: l))
    with (insert_by stays_before x (insertion_sort stays_before l)).
  apply insert_by_sorted.
  - apply Hl. by left.
  - intros z Hz. apply Hl. right. by rewrite (insertion_sort_perm l) in Hz.
  - apply IH. intros z Hz. apply Hl. by right.
Qed.

Lemma insert_by_stable a x l :
  a ∈ l0 → x ∈ l0 → l ⊆ l0 →
  filter (λ b, c a b = 0) (insert_by stays_before x l) =
  filter (λ b, c a b = 0) (x :: l).
Proof.
  intros Ha Hx. induction l as [|y l IH]; simpl; intros Hl; [done|].
  assert (y ∈ l0) as Hy by (apply Hl; by left).
  assert (l ⊆ l0) as Hl' by (intros z Hz; apply Hl; by right).
  destruct (stays_before x y) eqn:Hxy; [done|].
  rewrite (filter_cons _ y), IH by done. rewrite !filter_cons.
  destruct (decide (c a y = 0)) as [Hay|Hay];
    destruct (decide (c a x = 0)) as [Hax|Hax]; try done.
  exfalso. assert (stays_before x y = true); [|congruence].
  apply Hstays; [done..|].
  rewrite (cc_trans_eq _ _ Hc x a y); [apply Qcle_refl|done..| |done].
  by apply (cc_sym _ _ Hc a x).
Qed.

Lemma insertion_sort_stable a l :
  a ∈ l0 → l ⊆ l0 →
  filter (λ b, c a b = 0) (insertion_sort stays_before l) =
  filter (λ b, c a b = 0) l.
Proof.
  intros Ha. induction l as [|x l IH]; intros Hl; [done|].
  change (insertion_sort stays_before (x :: l))
    with (insert_by stays_before x (insertion_sort stays_before l)).
  rewrite insert_by_stable.
  - rewrite !filter_cons, IH; [done|]. intros z Hz. apply Hl. by right.
  - done.
  - apply Hl. by left.
  - intros z Hz. apply Hl. right. by rewrite (insertion_sort_perm l) in Hz.
Qed.

End InsertionSort.

(** ** The sample engines conform *)

Lemma sample_localeCompare_sign s t :
  (Sample.localeCompare s t < 0 ↔ String.compare s t = Lt) ∧
  (Sample.localeCompare s t = 0 ↔ String.compare s t = Eq) ∧
  (0 < Sample.localeCompare s t ↔ String.compare s t = Gt).
Proof.
  unfold Sample.localeCompare. destruct (String.compare s t); repeat split; done.
Qed.

Lemma sample_localeCompare_consistent (l : list string) :
  consistent_on (λ s t, Fin (Sample.localeCompare s t)) l.
Proof.
  split; unfold SortCompare.
  - done.
  - intros a _. apply sample_localeCompare_sign.
    by apply OrderedTypeEx.String_as_OT.cmp_eq.
  - intros a b _ _ Hab. apply sample_localeCompare_sign in Hab.
    apply OrderedTypeEx.String_as_OT.cmp_eq in Hab as ->.
    apply sample_localeCompare_sign. by apply OrderedTypeEx.String_as_OT.cmp_eq.
  - intros a b d _ _ _ Hab Hbd.
    apply sample_localeCompare_sign, OrderedTypeEx.String_as_OT.cmp_eq in Hab as ->.
    done.
  - intros a b d _ _ _ Hab Hbd.
    apply sample_localeCompare_sign, OrderedTypeEx.String_as_OT.cmp_lt in Hab, Hbd.
    apply sample_localeCompare_sign, OrderedTypeEx.String_as_OT.cmp_lt.
    by apply (OrderedTypeEx.String_as_OT.lt_trans a b d).
  - intros a b d _ _ _ Hab Hbd.
    apply sample_localeCompare_sign in Hab, Hbd.
    apply sample_localeCompare_sign.
    rewrite OrderedTypeEx.String_as_OT.cmp_antisym in Hab, Hbd |- *.
    assert (∀ x, CompOpp x = Gt ↔ x = Lt) as Hopp by (by intros []).
    apply Hopp, OrderedTypeEx.String_as_OT.cmp_lt in Hab, Hbd.
    apply Hopp, OrderedTypeEx.String_as_OT.cmp_lt.
    by apply (OrderedTypeEx.String_as_OT.lt_trans d b a).
Qed.

Lemma sample_StringToNumber_zero : Sample.StringToNumber "0" = Fin 0.
Proof. vm_compute. reflexivity. Qed.

Lemma engine_le_conforming : conforming engine_le.
Proof.
  split; simpl.
  - intros A comparefn l. apply insertion_sort_perm.
  - intros A comparefn l Hc.
    apply (insertion_sort_sorted _ comparefn l Hc); [|done].
    intros x y _ _. apply bool_decide_eq_true.
  - intros A comparefn l Hc a Ha.
    apply (insertion_sort_stable _ comparefn l Hc); [|done..].
    intros x y _ _. apply bool_decide_eq_true.
  - apply sample_localeCompare_consistent.
  - done.
  - done.
  - apply sample_StringToNumber_zero.
Qed.

Lemma engine_lt_conforming : conforming engine_lt.
Proof.
  assert (Hstays : ∀ A (comparefn : A → A → num) l, consistent_on comparefn l →
            ∀ x y, x ∈ l → y ∈ l →
              negb (bool_decide (SortCompare comparefn y x < 0)) = true ↔
              SortCompare comparefn x y <= 0).
  { intros A comparefn l Hc x y Hx Hy.
    rewrite negb_true_iff, bool_decide_eq_false. by apply (cc_ge_le comparefn l). }
  split; simpl.
  - intros A comparefn l. apply insertion_sort_perm.
  - intros A comparefn l Hc.
    apply (insertion_sort_sorted _ comparefn l Hc); [|done]. by apply Hstays.
  - intros A comparefn l Hc a Ha.
    apply (insertion_sort_stable _ comparefn l Hc); [|done..]. by apply Hstays.
  - apply sample_localeCompare_consistent.
  - done.
  - done.
  - apply sample_StringToNumber_zero.
Qed.

(** ** The comparison functions of the sort strategies *)

Lemma Qc_sub_gt0 (x y : Qc) : 0 < x - y ↔ y < x.
Proof. symmetry. apply Qclt_minus_iff. Qed.

Lemma Qc_sub_lt0 (x y : Qc) : x - y < 0 ↔ x < y.
Proof.
  rewrite (Qclt_minus_iff (x - y) 0), (Qclt_minus_iff x y).
  by replace (0 + - (x - y)) with (y + - x) by ring.
Qed.

Lemma Qc_sub_eq0 (x y : Qc) : x - y = 0 ↔ x = y.
Proof.
  split; intros H; [|subst; ring].
  replace x with (x - y + y) by ring. rewrite H. ring.
Qed.

Lemma Qc_sub_le0 (x y : Qc) : x - y <= 0 ↔ x <= y.
Proof.
  rewrite (Qcle_minus_iff (x - y) 0), (Qcle_minus_iff x y).
  by replace (0 + - (x - y)) with (y + - x) by ring.
Qed.

Section Comparators.
Context {A : Type}.

(** Ascending by a numeric key. *)
Lemma consistent_by_key (key : A → Qc) (l : list A) :
  consistent_on (λ a b, Fin (key a - key b)) l.
Proof.
  split; unfold SortCompare.
  - done.
  - intros a _. by apply Qc_sub_eq0.
  - intros a b _ _. rewrite !Qc_sub_eq0. congruence.
  - intros a b d _ _ _. rewrite !Qc_sub_eq0. congruence.
  - intros a b d _ _ _. rewrite !Qc_sub_lt0. apply Qclt_trans.
  - intros a b d _ _ _. rewrite !Qc_sub_gt0. intros H1 H2.
    by apply (Qclt_trans _ (key b)).
Qed.

(** The arguments exchanged: the descending order. *)
Lemma consistent_flip (comparefn : A → A → num) (l : list A) :
  consistent_on comparefn l → consistent_on (λ a b, comparefn b a) l.
Proof.
  intros Hc. split; unfold SortCompare in *.
  - intros a b Ha Hb. by apply (cc_number _ _ Hc).
  - intros a Ha. by apply (cc_refl _ _ Hc).
  - intros a b Ha Hb. by apply (cc_sym _ _ Hc).
  - intros a b d Ha Hb Hd H1 H2. by apply (cc_trans_eq _ _ Hc d b a).
  - intros a b d Ha Hb Hd H1 H2. by apply (cc_trans_lt _ _ Hc d b a).
  - intros a b d Ha Hb Hd H1 H2. by apply (cc_trans_gt _ _ Hc d b a).
Qed.

(** A comparison of what a function reads off the values. *)
Lemma consistent_comap {B} (f : A → B) (comparefn : B → B → num) (l : list A) :
  consistent_on comparefn (map f l) → consistent_on (λ a b, comparefn (f a) (f b)) l.
Proof.
  intros Hc.
  assert (Hin : ∀ a, a ∈ l → f a ∈ map f l).
  { intros a Ha. by apply list_elem_of_In, in_map, list_elem_of_In. }
  split; unfold SortCompare in *.
  - intros a b Ha Hb. apply (cc_number _ _ Hc); auto.
  - intros a Ha. apply (cc_refl _ _ Hc); auto.
  - intros a b Ha Hb. apply (cc_sym _ _ Hc); auto.
  - intros a b d Ha Hb Hd. apply (cc_trans_eq _ _ Hc); auto.
  - intros a b d Ha Hb Hd. apply (cc_trans_lt _ _ Hc); auto.
  - intros a b d Ha Hb Hd. apply (cc_trans_gt _ _ Hc); auto.
Qed.

(** Two functions that agree on the values of the list. *)
Lemma consistent_ext (f g : A → A → num) (l : list A) :
  (∀ a b, a ∈ l → b ∈ l → f a b = g a b) → consistent_on g l → consistent_on f l.
Proof.
  intros Hfg Hc.
  assert (Hs : ∀ a b, a ∈ l → b ∈ l → SortCompare f a b = SortCompare g a b).
  { intros a b Ha Hb. unfold SortCompare. by rewrite Hfg. }
  split.
  - intros a b Ha Hb. rewrite Hfg by done. by apply (cc_number _ _ Hc).
  - intros a Ha. rewrite Hs by done. by apply (cc_refl _ _ Hc).
  - intros a b Ha Hb. rewrite !Hs by done. by apply (cc_sym _ _ Hc).
  - intros a b d Ha Hb Hd. rewrite !Hs by done. by apply (cc_trans_eq _ _ Hc).
  - intros a b d Ha Hb Hd. rewrite !Hs by done. by apply (cc_trans_lt _ _ Hc).
  - intros a b d Ha Hb Hd. rewrite !Hs by done. by apply (cc_trans_gt _ _ Hc).
Qed.

(** A comparison function that reports a value greater than itself is not
    consistent. *)
Lemma not_consistent (comparefn : A → A → num) (l : list A) (a : A) :
  a ∈ l → comparefn a a = Fin 1 → ¬ consistent_on comparefn l.
Proof.
  intros Ha H1 Hc. pose proof (cc_refl _ _ Hc a Ha) as Hr.
  unfold SortCompare in Hr. rewrite H1 in Hr. done.
Qed.

End Comparators.

Section Strategies.
Context (E : Engine) (HE : conforming E).

Lemma top_cmp_consistent (l : list place) : consistent_on (top_cmp E) l.
Proof.
  apply consistent_flip. apply (consistent_by_key (top_key E)).
Qed.

Lemma name_cmp_consistent (l : list place) : consistent_on (name_cmp E) l.
Proof.
  apply (consistent_comap (λ a, text_or_empty (field a "name"))
           (λ s t, Fin (localeCompare E s t))).
  apply (localeCompare_consistent E HE).
Qed.

Lemma recent_cmp_consistent (l : list place) : consistent_on (recent_cmp E) l.
Proof.
  apply (consistent_flip (λ a b, Fin (localeCompare E (text_or_empty (field a "visitedAt"))
                                        (text_or_empty (field b "visitedAt"))))).
  apply (consistent_comap (λ a, text_or_empty (field a "visitedAt"))
           (λ s t, Fin (localeCompare E s t))).
  apply (localeCompare_consistent E HE).
Qed.

Lemma valid_coords_distance (loc : Qc * Qc) (a : place) :
  valid_coords E a = true ↔ ∃ d, distance E loc a = Some d.
Proof.
  unfold valid_coords, distance.
  destruct (ToNumber E (field a "lat")), (ToNumber E (field a "lon")); simpl;
    split; try done; try (by intros [? ?]); eauto.
Qed.

Lemma nearest_cmp_consistent (loc : Qc * Qc) (l : list place) :
  Forall (λ a, valid_coords E a) l → consistent_on (nearest_cmp E loc) l.
Proof.
  intros Hv. rewrite Forall_forall in Hv.
  apply (consistent_ext _ (λ a b, Fin (default 0 (distance E loc a) -
                                       default 0 (distance E loc b)))).
  - intros a b Ha Hb. unfold nearest_cmp.
    destruct (proj1 (valid_coords_distance loc a) (Is_true_true_1 _ (Hv a Ha))) as [da ->].
    destruct (proj1 (valid_coords_distance loc b) (Is_true_true_1 _ (Hv b Hb))) as [db ->].
    done.
  - apply (consistent_by_key (λ a, default 0 (distance E loc a))).
Qed.

(** A place without coordinates is reported greater than any place, itself
    included. *)
Lemma nearest_cmp_invalid (loc : Qc * Qc) (a b : place) :
  valid_coords E a = false → nearest_cmp E loc a b = Fin 1.
Proof.
  intros Ha. unfold nearest_cmp.
  destruct (distance E loc a) as [d|] eqn:Hd; [|done].
  assert (valid_coords E a = true) by (apply (valid_coords_distance loc); eauto).
  congruence.
Qed.

End Strategies.

(** ** The sort stage *)

Lemma StronglySorted_weaken {A} (R R' : A → A → Prop) (l : list A) :
  (∀ a b, R a b → R' a b) → StronglySorted R l → StronglySorted R' l.
Proof.
  intros HR. induction 1 as [|a l Hs IH Hall]; constructor; [done|].
  eapply Forall_impl; [exact Hall|]. intros b. apply HR.
Qed.

Section SortStage.
Context (E : Engine) (HE : conforming E).

(** The values of one class keep their order, for every class of values
    that compare equal to a value of the list. *)
Lemma sort_stable_class {A} (comparefn : A → A → num) (l : list A)
    (P : A → Prop) `{∀ x, Decision (P x)} (a : A) :
  consistent_on comparefn l → a ∈ l →
  (∀ b, P b → SortCompare comparefn a b = 0) →
  filter P (Array_sort E comparefn l) = filter P l.
Proof.
  intros Hc Ha HP.
  pose proof (sort_stable E HE A comparefn l Hc a Ha) as Hs.
  assert (Hf : ∀ k : list A,
            filter P k = filter P (filter (λ b, SortCompare comparefn a b = 0) k)).
  { intros k. rewrite list_filter_filter. apply list_filter_iff. naive_solver. }
  by rewrite Hf, Hs, <- Hf.
Qed.

(** In a list in the order of the function, a value does not come before
    one that compares less. *)
Lemma sorted_before {A} (comparefn : A → A → num) (l : list A) (a b : A) :
  StronglySorted (λ a b, SortCompare comparefn a b <= 0) l →
  before a b l → SortCompare comparefn a b <= 0.
Proof.
  intros Hs (l1 & l2 & l3 & ->).
  apply StronglySorted_app in Hs as (_ & _ & Hs).
  apply StronglySorted_inv in Hs as [_ Hall].
  rewrite Forall_forall in Hall. apply Hall.
  apply elem_of_app. right. by left.
Qed.

Lemma sorted_permutation (st : UrlState) (myLoc : option (Qc * Qc)) (l : list place) :
  sorted E st myLoc l ≡ₚ l.
Proof.
  unfold sorted.
  repeat (destruct (String.eqb _ _)); try apply (sort_permutation E HE).
  destruct myLoc; [apply (sort_permutation E HE)|done].
Qed.

(** Without a user location, the [nearest] strategy returns its input. *)
Lemma sorted_nearest_no_location (st : UrlState) (l : list place) :
  sort st = "nearest" → sorted E st None l = l.
Proof. intros Hs. unfold sorted. by rewrite Hs. Qed.

(** With a user location and valid coordinates throughout, the [nearest]
    strategy orders by distance, ascending. *)
Lemma sorted_nearest_ascending (st : UrlState) (loc : Qc * Qc) (l : list place) :
  sort st = "nearest" → Forall (λ a, valid_coords E a) l →
  ∀ a b da db,
    before a b (sorted E st (Some loc) l) →
    distance E loc a = Some da → distance E loc b = Some db →
    da <= db.
Proof.
  intros Hs Hv a b da db Hab Ha Hb. unfold sorted in Hab. rewrite Hs in Hab. simpl in Hab.
  pose proof (sort_ordered E HE _ _ l (nearest_cmp_consistent E loc l Hv)) as Hsorted.
  pose proof (sorted_before _ _ a b Hsorted Hab) as Hle.
  unfold SortCompare, nearest_cmp in Hle. rewrite Ha, Hb in Hle.
  by apply Qc_sub_le0.
Qed.

(** Under the default strategy the result is in descending order of the
    rating key. *)
Lemma sorted_top_descending (st : UrlState) (myLoc : option (Qc * Qc)) (l : list place) :
  sort st ∉ ["name"; "recent"; "nearest"] →
  StronglySorted (λ a b, top_key E b <= top_key E a) (sorted E st myLoc l).
Proof.
  intros Hs. unfold sorted.
  destruct (String.eqb_spec (sort st) "name") as [Hn|_]; [rewrite Hn in Hs; set_solver|].
  destruct (String.eqb_spec (sort st) "recent") as [Hn|_]; [rewrite Hn in Hs; set_solver|].
  destruct (String.eqb_spec (sort st) "nearest") as [Hn|_]; [rewrite Hn in Hs; set_solver|].
  pose proof (sort_ordered E HE _ _ l (top_cmp_consistent E l)) as Hsorted.
  eapply StronglySorted_weaken; [|exact Hsorted].
  intros a b. unfold SortCompare, top_cmp. simpl. by rewrite Qc_sub_le0.
Qed.

(** The rating key: the rating when it is a number other than 0, and -1
    for 0, for null and for a missing rating. *)
Lemma top_key_number (p : place) (x : Qc) :
  field p "rating" = VNum x →
  top_key E p = if bool_decide (x = 0) then -1 else x.
Proof. unfold top_key. by intros ->. Qed.

Lemma top_key_unrated (p : place) :
  field p "rating" = VUndef ∨ field p "rating" = VNull →
  top_key E p = -1.
Proof. unfold top_key. by intros [-> | ->]. Qed.

(** Stability.  Under every strategy whose comparison function is
    consistent on the list, the places with the sort key of a place of the
    list keep their order.  The functions of [top], [recent] and [name] are
    consistent on every list; the function of [nearest] is consistent when
    every place of the list has valid coordinates (and it is not called
    without a user location). *)
Lemma sorted_stable (st : UrlState) (myLoc : option (Qc * Qc)) (l : list place) :
  (sort st = "nearest" → myLoc = None ∨ Forall (λ a, valid_coords E a) l) →
  ∀ a, a ∈ l →
    filter (λ b, sort_key_of E st myLoc b = sort_key_of E st myLoc a)
           (sorted E st myLoc l) =
    filter (λ b, sort_key_of E st myLoc b = sort_key_of E st myLoc a) l.
Proof.
  intros Hn a Ha. unfold sorted, sort_key_of.
  destruct (String.eqb (sort st) "name").
  { apply (sort_stable_class _ _ _ a); [apply name_cmp_consistent|done|]; [done|].
    intros b [= Hb]. unfold SortCompare, name_cmp. rewrite Hb.
    apply (cc_refl _ _ (localeCompare_consistent E HE
                          [text_or_empty (field a "name")]) _). by left. }
  destruct (String.eqb (sort st) "recent").
  { apply (sort_stable_class _ _ _ a); [apply recent_cmp_consistent|done|]; [done|].
    intros b [= Hb]. unfold SortCompare, recent_cmp. rewrite Hb.
    apply (cc_refl _ _ (localeCompare_consistent E HE
                          [text_or_empty (field a "visitedAt")]) _). by left. }
  destruct (String.eqb_spec (sort st) "nearest") as [Hs|_].
  { destruct myLoc as [loc|]; [|done].
    destruct (Hn Hs) as [?|Hv]; [done|].
    apply (sort_stable_class _ _ _ a); [by apply nearest_cmp_consistent|done|].
    intros b Hb. unfold SortCompare, nearest_cmp.
    rewrite Forall_forall in Hv.
    destruct (proj1 (valid_coords_distance E loc a) (Is_true_true_1 _ (Hv a Ha)))
      as [da Hda].
    rewrite Hda in Hb |- *.
    destruct (distance E loc b) as [db|]; [|done].
    injection Hb as ->. by apply Qc_sub_eq0. }
  apply (sort_stable_class _ _ _ a); [apply top_cmp_consistent|done|].
  intros b [= Hb]. unfold SortCompare, top_cmp. rewrite Hb. by apply Qc_sub_eq0.
Qed.

End SortStage.

(** A conjunction of closed statements, each settled by evaluation. *)
Ltac by_evaluation :=
  repeat match goal with |- _ ∧ _ => split end; vm_compute; reflexivity.

(** Two values that compare equal stay as they are. *)
Lemma sort_two_tied (E : Engine) {A} (comparefn : A → A → num) (a b : A) :
  conforming E → consistent_on comparefn [a; b] → SortCompare comparefn a b = 0 →
  Array_sort E comparefn [a; b] = [a; b].
Proof.
  intros HE Hc Hab.
  pose proof (sort_permutation E HE A comparefn [a; b]) as Hp.
  symmetry in Hp. apply Permutation_length_2_inv in Hp as [Hp|Hp]; [done|].
  assert (a ∈ [a; b]) as Ha by (by left).
  pose proof (sort_stable E HE A comparefn [a; b] Hc a Ha) as Hs.
  rewrite Hp in Hs. rewrite !filter_cons, filter_nil in Hs.
  pose proof (cc_refl _ _ Hc a Ha) as Haa.
  destruct (decide (SortCompare comparefn a b = 0)); [|done].
  destruct (decide (SortCompare comparefn a a = 0)); [|done].
  by rewrite Hp.
Qed.

(** C7 at its failing input.  The rating key of a place rated 0 is the key
    of an unrated place, -1, and so the default strategy leaves an unrated
    place in front of a place rated 0 that follows it. *)
Theorem top_rated_zero_ties_unrated (E : Engine) :
  conforming E →
  top_key E Ex.rated_zero = -1 ∧ top_key E Ex.unrated = -1 ∧
  sorted E (Ex.query "top") None [Ex.unrated; Ex.rated_zero] =
    [Ex.unrated; Ex.rated_zero].
Proof.
  intros HE.
  assert (top_key E Ex.rated_zero = -1) as Hz by (vm_compute; reflexivity).
  assert (top_key E Ex.unrated = -1) as Hu by (vm_compute; reflexivity).
  split; [done|]. split; [done|].
  change (sorted E (Ex.query "top") None [Ex.unrated; Ex.rated_zero])
    with (Array_sort E (top_cmp E) [Ex.unrated; Ex.rated_zero]).
  apply sort_two_tied; [done|apply top_cmp_consistent|].
  unfold SortCompare, top_cmp. rewrite Hz, Hu. by apply Qc_sub_eq0.
Qed.

Lemma top_rated_zero_ties_unrated_witness :
  conforming engine_le ∧
  sorted engine_le (Ex.query "top") None [Ex.unrated; Ex.rated_zero] =
    [Ex.unrated; Ex.rated_zero].
Proof.
  split; [exact engine_le_conforming|].
  exact (proj2 (proj2 (top_rated_zero_ties_unrated engine_le engine_le_conforming))).
Defined.

(** C4 at its failing input.  Two places without valid coordinates, with a
    user location: the comparison function reports each greater than the
    other, and the two sample engines, which agree on every consistent
    comparison function, return the two places in different orders. *)
Theorem nearest_without_coordinates :
  valid_coords engine_le Ex.popup = false ∧
  valid_coords engine_le Ex.truck = false ∧
  nearest_cmp engine_le Ex.here Ex.popup Ex.truck = Fin 1 ∧
  nearest_cmp engine_le Ex.here Ex.truck Ex.popup = Fin 1 ∧
  sorted engine_le (Ex.query "nearest") (Some Ex.here) [Ex.popup; Ex.truck] =
    [Ex.truck; Ex.popup] ∧
  sorted engine_lt (Ex.query "nearest") (Some Ex.here) [Ex.popup; Ex.truck] =
    [Ex.popup; Ex.truck].
Proof. by_evaluation. Qed.

(** C3 at its failing input.  Under [nearest] with a user location the two
    places without coordinates have the same sort key, the first stands
    before the second in the input, and the engine that asks
    [comparefn(x, y) <= 0] returns them exchanged. *)
Theorem nearest_stability_counterexample :
  sort_key_of engine_le (Ex.query "nearest") (Some Ex.here) Ex.popup =
    sort_key_of engine_le (Ex.query "nearest") (Some Ex.here) Ex.truck ∧
  before Ex.popup Ex.truck [Ex.cafe; Ex.popup; Ex.truck] ∧
  sorted engine_le (Ex.query "nearest") (Some Ex.here) [Ex.cafe; Ex.popup; Ex.truck] =
    [Ex.cafe; Ex.truck; Ex.popup].
Proof.
  split; [vm_compute; reflexivity|]. split.
  - by exists [Ex.cafe], [], [].
  - vm_compute. reflexivity.
Qed.

(** src/App.jsx at a list with one place without coordinates: its
    comparison function returns NaN against that place, which counts as
    "equal", and both sample engines leave the far place in front of the
    near one. *)
Lemma legacy_nearest_unsorted :
  distance engine_le Ex.here Ex.cafe = Some (haversineMiles engine_le
      (Q2Qc 47.6) (Q2Qc (-122.3)) (Q2Qc 47.61) (Q2Qc (-122.33))) ∧
  haversineMiles engine_le (Q2Qc 47.6) (Q2Qc (-122.3)) (Q2Qc 47.61) (Q2Qc (-122.33)) <
  haversineMiles engine_le (Q2Qc 47.6) (Q2Qc (-122.3)) (Q2Qc 47.9) (Q2Qc (-122.1)) ∧
  Legacy.nearest_cmp engine_le Ex.here Ex.bakery Ex.popup = NaN ∧
  Legacy.sorted engine_le (Ex.query "nearest") (Some Ex.here)
    [Ex.bakery; Ex.popup; Ex.cafe] = [Ex.bakery; Ex.popup; Ex.cafe] ∧
  Legacy.sorted engine_lt (Ex.query "nearest") (Some Ex.here)
    [Ex.bakery; Ex.popup; Ex.cafe] = [Ex.bakery; Ex.popup; Ex.cafe].
Proof. by_evaluation. Qed.

(** ** The query string *)

Section UrlEncoding.
Import URLSearchParams.

Lemma decode_encode_char (c : ascii) (s : string) :
  percent_decode (plus_to_space (encode_char c ++ s)) =
  String c (percent_decode (plus_to_space s)).
Proof. destruct c as [[] [] [] [] [] [] [] []]; reflexivity. Qed.

Lemma encode_char_free (c : ascii) :
  occurs "&" (encode_char c) = false ∧ occurs "=" (encode_char c) = false.
Proof. destruct c as [[] [] [] [] [] [] [] []]; split; reflexivity. Qed.

Lemma occurs_app c s t : occurs c (s ++ t) = occurs c s || occurs c t.
Proof.
  induction s as [|d s IH]; [done|].
  change (occurs c (String d (s ++ t)) = occurs c (String d s) || occurs c t).
  simpl. by rewrite IH, orb_assoc.
Qed.

Lemma decode_encode (s : string) : percent_decode (plus_to_space (encode s)) = s.
Proof.
  induction s as [|c s IH]; [done|].
  change (encode (String c s)) with (encode_char c ++ encode s).
  by rewrite decode_encode_char, IH.
Qed.

Lemma encode_free (s : string) :
  occurs "&" (encode s) = false ∧ occurs "=" (encode s) = false.
Proof.
  induction s as [|c s [IH1 IH2]]; [done|].
  change (encode (String c s)) with (encode_char c ++ encode s).
  rewrite !occurs_app, IH1, IH2.
  destruct (encode_char_free c) as [-> ->]. done.
Qed.

Lemma break_eq_app (x y : string) :
  occurs "=" x = false → break_eq (x ++ "=" ++ y) = (x, y).
Proof.
  induction x as [|c x IH]; [intros _; reflexivity|].
  change (String c x ++ "=" ++ y) with (String c (x ++ "=" ++ y)).
  cbn [occurs break_eq]. rewrite (Ascii.eqb_sym c).
  destruct (Ascii.eqb "=" c); simpl; [done|].
  intros Hx. by rewrite IH.
Qed.

Lemma split_on_free (x : string) : occurs "&" x = false → split_on "&" x = [x].
Proof.
  induction x as [|c x IH]; [done|].
  cbn [occurs split_on]. rewrite (Ascii.eqb_sym c).
  destruct (Ascii.eqb "&" c); simpl; [done|].
  intros Hx. by rewrite IH.
Qed.

Lemma split_on_app (x rest : string) :
  occurs "&" x = false →
  split_on "&" (x ++ "&" ++ rest) = x :: split_on "&" rest.
Proof.
  induction x as [|c x IH]; [intros _; reflexivity|].
  change (String c x ++ "&" ++ rest) with (String c (x ++ "&" ++ rest)).
  cbn [occurs split_on]. rewrite (Ascii.eqb_sym c).
  destruct (Ascii.eqb "&" c); simpl; [done|].
  intros Hx. by rewrite IH.
Qed.

Lemma split_on_join (ps : list string) :
  ps ≠ [] → Forall (λ x, occurs "&" x = false) ps →
  split_on "&" (join "&" ps) = ps.
Proof.
  induction ps as [|x ps IH]; [done|]. intros _ Hall.
  apply Forall_cons in Hall as [Hx Hall].
  destruct ps as [|y ps]; [by apply split_on_free|].
  change (join "&" (x :: y :: ps)) with (x ++ "&" ++ join "&" (y :: ps)).
  rewrite split_on_app by done. by rewrite IH.
Qed.

(** Parsing what [toString] produced gives the pairs back. *)
Lemma parse_toString (sp : t) : parse (toString sp) = sp.
Proof.
  unfold parse, toString.
  destruct sp as [|e sp]; [done|].
  rewrite split_on_join.
  - generalize (e :: sp). clear. intros sp.
    induction sp as [|[n v] sp IH]; [done|].
    simpl map at 2. rewrite filter_cons.
    assert (nonempty (encode n ++ "=" ++ encode v) = true) as Hne.
    { clear. destruct (encode n); done. }
    simpl fst. simpl snd. rewrite decide_True by (by rewrite Hne).
    simpl map. rewrite break_eq_app by apply encode_free.
    by rewrite !decode_encode, IH.
  - done.
  - apply Forall_forall. intros x [[n v] [-> _]]%list_elem_of_fmap.
    simpl. rewrite !occurs_app. simpl.
    by rewrite (proj1 (encode_free n)), (proj1 (encode_free v)).
Qed.

Lemma toString_nonempty (sp : t) : nonempty (toString sp) = true ↔ sp ≠ [].
Proof.
  destruct sp as [|[n v] sp]; [done|]. split; [done|]. intros _.
  unfold toString. simpl map.
  destruct sp as [|e sp].
  - simpl. by destruct (encode n).
  - change (join "&" ((encode n ++ "=" ++ encode v) :: ?l))
      with ((encode n ++ "=" ++ encode v) ++ "&" ++ join "&" l).
    by destruct (encode n).
Qed.

Lemma get_filter_ne (sp : t) (n m : string) :
  n ≠ m → get (filter (λ e, negb (String.eqb e.1 n)) sp) m = get sp m.
Proof.
  intros Hnm. induction sp as [|[n2 w2] sp IH]; [done|].
  unfold t in *. rewrite filter_cons. cbn [fst get].
  destruct (String.eqb_spec n2 n) as [->|Hn2]; cbn [negb].
  - rewrite decide_False by (by intros []).
    destruct (String.eqb_spec n m); [done|]. exact IH.
  - rewrite decide_True by done. cbn [get]. by rewrite IH.
Qed.

Lemma get_set (sp : t) (n v m : string) :
  get (set sp n v) m = if String.eqb n m then Some v else get sp m.
Proof.
  induction sp as [|[n' w] sp IH]; [done|].
  cbn [set get].
  destruct (String.eqb_spec n' n) as [->|Hn]; cbn [get].
  - destruct (String.eqb_spec n m) as [->|Hm]; [done|]. by apply get_filter_ne.
  - rewrite IH. destruct (String.eqb_spec n' m) as [->|Hm]; [|done].
    by destruct (String.eqb_spec n m).
Qed.

End UrlEncoding.

Section UrlRoundTrip.
Context (E : Engine).

Lemma of_search_writeUrlState (st : UrlState) :
  URLSearchParams.of_search (writeUrlState E st) = url_params E st.
Proof.
  unfold writeUrlState.
  destruct (nonempty (URLSearchParams.toString (url_params E st))) eqn:Hne.
  - change (URLSearchParams.of_search ("?" ++ ?s)) with (URLSearchParams.parse s).
    apply parse_toString.
  - destruct (url_params E st) as [|e sp]; [done|].
    assert (nonempty (URLSearchParams.toString (e :: sp)) = true); [|congruence].
    by apply toString_nonempty.
Qed.

Lemma get_if_set (b : bool) (sp : URLSearchParams.t) (n v m : string) :
  URLSearchParams.get (if b then URLSearchParams.set sp n v else sp) m =
  if b && String.eqb n m then Some v else URLSearchParams.get sp m.
Proof. destruct b; [apply get_set|done]. Qed.

Lemma default_nonempty (s : string) : default "" (if nonempty s then Some s else None) = s.
Proof. by destruct s. Qed.

Lemma read_number (n : num) :
  conforming E → Spec.canonical_number E n →
  StringToNumber E (default "0" (if num_ltb (Fin 0) n then Some (num_to_string E n) else None))
  = n.
Proof.
  intros HE (x & -> & Hx & Hrt). simpl.
  destruct (decide (0 < x)) as [Hpos|Hnpos].
  - rewrite bool_decide_eq_true_2 by done. simpl. by apply Hrt.
  - rewrite bool_decide_eq_false_2 by done. simpl.
    rewrite (StringToNumber_zero E HE). f_equal.
    apply Qcle_antisym; [done|]. by apply Qcnot_lt_le.
Qed.

End UrlRoundTrip.

(** C5 as the code has it.  For a query state whose minimum rating and
    price are 0 or positive numbers and whose sort is one of the four
    strategies, reading the query string that [writeUrlState] wrote gives
    the state back; a parameter that was not written reads as its default. *)
Theorem url_round_trip (E : Engine) (st : UrlState) :
  conforming E → Spec.canonical E st →
  parseUrlState E (writeUrlState E st) = st.
Proof.
  intros HE (Hmin & Hprice & Hsort).
  unfold parseUrlState. rewrite of_search_writeUrlState. unfold url_params.
  rewrite !get_if_set. cbn [URLSearchParams.get].
  destruct st as [q0 city0 cuisine0 hood0 tag0 min0 price0 ret0 sort0].
  cbn [q city cuisine neighborhood tag minRating price wouldReturn sort] in *.
  simpl (String.eqb (String _ _) (String _ _)).
  rewrite ?andb_false_r, ?andb_true_r.
  rewrite !default_nonempty, !read_number by done.
  f_equal.
  - by destruct ret0.
  - unfold SORTS in Hsort. rewrite !elem_of_cons in Hsort.
    destruct Hsort as [->|[->|[->|[->|?%elem_of_nil]]]]; done.
Qed.

(** C5 as stated fails on a negative number: [writeUrlState] writes a
    threshold only when it is positive, and the state reads back with the
    default 0. *)
Lemma url_round_trip_counterexample :
  parseUrlState engine_le "?minRating=-1" = Ex.negative_threshold ∧
  writeUrlState engine_le Ex.negative_threshold = "" ∧
  parseUrlState engine_le (writeUrlState engine_le Ex.negative_threshold) ≠
    Ex.negative_threshold.
Proof.
  split; [vm_compute; reflexivity|]. split; [vm_compute; reflexivity|].
  vm_compute. discriminate.
Qed.

Lemma url_round_trip_witness :
  conforming engine_le ∧
  Spec.canonical engine_le Ex.shared_query ∧
  parseUrlState engine_le (writeUrlState engine_le Ex.shared_query) = Ex.shared_query.
Proof.
  assert (Hc : Spec.canonical engine_le Ex.shared_query).
  { split; [|split].
    - exists (Q2Qc 4.5). split; [reflexivity|]. split; [discriminate|].
      intros _. vm_compute. reflexivity.
    - exists (Q2Qc 2). split; [reflexivity|]. split; [discriminate|].
      intros _. vm_compute. reflexivity.
    - simpl. unfold SORTS. rewrite !elem_of_cons. auto. }
  split; [exact engine_le_conforming|]. split; [exact Hc|].
  exact (url_round_trip engine_le _ engine_le_conforming Hc).
Defined.

(** ** Witnesses and scenarios *)

Lemma effective_well_formed : Forall well_formed Ex.effective.
Proof. repeat constructor; vm_compute; exact I. Defined.

Lemma filter_conjunction_witness :
  conforming engine_le ∧ Forall well_formed Ex.effective ∧
  Spec.nonnegative (minRating Ex.rated_four) ∧ Spec.nonnegative (price Ex.rated_four) ∧
  ∃ out, filtered engine_le Ex.rated_four Ex.effective = Normal out ∧
         ∀ p, p ∈ out ↔ p ∈ Ex.effective ∧ Spec.matches engine_le Ex.rated_four p.
Proof.
  assert (Hmin : Spec.nonnegative (minRating Ex.rated_four)).
  { exists (Q2Qc 4). split; [reflexivity|discriminate]. }
  assert (Hprice : Spec.nonnegative (price Ex.rated_four)).
  { exists 0. split; [reflexivity|discriminate]. }
  split; [exact engine_le_conforming|]. split; [exact effective_well_formed|].
  split; [exact Hmin|]. split; [exact Hprice|].
  destruct (filter_conjunction engine_le Ex.rated_four Ex.effective
              engine_le_conforming effective_well_formed) as (out & Hout & Hiff & _).
  exists out. split; [exact Hout|exact (Hiff Hmin Hprice)].
Defined.

Lemma filter_subsequence_witness :
  Forall well_formed Ex.effective ∧
  ∃ out, filtered engine_le Ex.rated_four Ex.effective = Normal out ∧
         out `sublist_of` Ex.effective.
Proof.
  split; [exact effective_well_formed|].
  destruct (filter_subsequence engine_le Ex.rated_four Ex.effective) as [Hsub Htotal].
  destruct (Htotal effective_well_formed) as [out Hout].
  exists out. split; [exact Hout|]. exact (Hsub out Hout).
Defined.

(** The first scenario of section 8: the overlay raises the rating of the
    second place to 4.8, both places pass the minimum rating 4, and the
    second comes first. *)
Example scenario_merge_filter_sort :
  (λ p, field p "rating") <$> Ex.effective = [VNum (Q2Qc 4.5); VNum (Q2Qc 4.8)] ∧
  filtered engine_le Ex.rated_four Ex.effective = Normal Ex.effective ∧
  (λ p, field p "id") <$> sorted engine_le Ex.rated_four None Ex.effective =
    [VStr "b"; VStr "a"].
Proof. by_evaluation. Qed.

(** The second scenario of section 8: a query string is decoded, absent
    parameters to their defaults. *)
Example scenario_decode :
  parseUrlState engine_le "?city=Seattle&minRating=4&sort=name" =
  {| q := ""; city := "Seattle"; cuisine := ""; neighborhood := ""; tag := "";
     minRating := Fin (Q2Qc 4); price := Fin 0; wouldReturn := false; sort := "name" |}.
Proof. by_evaluation. Qed.

(** What [writeUrlState] makes of a state. *)
Example scenario_encode :
  writeUrlState engine_le Ex.shared_query =
  "?q=ramen+%26+tea&city=Seattle&tag=date-night&minRating=4.5&price=2&return=1&sort=name".
Proof. by_evaluation. Qed.

(** The entry [saveEdit] stores for a place has none but the five fields of
    the edit form, provided the entry it extends had none but them. *)
Lemma saveEdit_fields (E : Engine) (id : value) (draft : Draft) (prev : value) :
  dom (own_props E (or_else (get E (or_else prev (VObj ∅)) (ToString E id)) (VObj ∅)))
    ⊆ mutable_fields →
  ∃ patch, get E (saveEdit E id draft prev) (ToString E id) = VObj patch ∧
           dom patch ⊆ mutable_fields.
Proof.
  intros Hprev. unfold saveEdit. eexists. split.
  - simpl. rewrite lookup_insert_eq. reflexivity.
  - rewrite dom_union_L. apply union_subseteq. split; [|exact Hprev].
    unfold draft_patch. rewrite !dom_insert_L, dom_empty_L.
    unfold mutable_fields. set_solver.
Qed.

(** * Further properties of App.jsx *)

(** ** The query string and the filter controls *)

Section UrlNormalForm.
Context (E : Engine).

Lemma read_number_written (n : num) :
  conforming E → printable E n →
  StringToNumber E (default "0" (if num_ltb (Fin 0) n then Some (num_to_string E n) else None))
  = if num_ltb (Fin 0) n then n else Fin 0.
Proof.
  intros HE Hp. destruct (num_ltb (Fin 0) n) eqn:Hn; simpl.
  - destruct n as [|x]; [done|]. simpl in *. apply bool_decide_eq_true in Hn.
    by apply Hp.
  - apply (StringToNumber_zero E HE).
Qed.

Lemma read_sort (s : string) :
  default "top" (if nonempty s && negb (String.eqb s "top") then Some s else None) =
  if nonempty s then s else "top".
Proof.
  destruct (nonempty s); simpl; [|done].
  by destruct (String.eqb_spec s "top") as [->|].
Qed.

Lemma parse_write (st : UrlState) :
  conforming E → printable E (minRating st) → printable E (price st) →
  parseUrlState E (writeUrlState E st) = as_written st.
Proof.
  intros HE Hmin Hprice.
  unfold parseUrlState. rewrite of_search_writeUrlState. unfold url_params.
  rewrite !get_if_set. cbn [URLSearchParams.get].
  destruct st as [q0 city0 cuisine0 hood0 tag0 min0 price0 ret0 sort0].
  unfold as_written.
  cbn [q city cuisine neighborhood tag minRating price wouldReturn sort] in *.
  simpl (String.eqb (String _ _) (String _ _)).
  rewrite ?andb_false_r, ?andb_true_r.
  rewrite !default_nonempty, !read_number_written, read_sort by done.
  f_equal. by destruct ret0.
Qed.

Lemma set_not_nil (sp : URLSearchParams.t) (n v : string) : URLSearchParams.set sp n v ≠ [].
Proof.
  destruct sp as [|[n' w] sp]; [done|]. simpl. by destruct (String.eqb n' n).
Qed.

Lemma if_set_nil (b : bool) (sp : URLSearchParams.t) (n v : string) :
  (if b then URLSearchParams.set sp n v else sp) = [] ↔ b = false ∧ sp = [].
Proof.
  destruct b; [|naive_solver]. split; [|by intros [? _]].
  intros H. by apply set_not_nil in H.
Qed.

Lemma writeUrlState_empty_iff (st : UrlState) :
  writeUrlState E st = "" ↔ url_params E st = [].
Proof.
  unfold writeUrlState.
  destruct (nonempty (URLSearchParams.toString (url_params E st))) eqn:Hne.
  - apply toString_nonempty in Hne. split; [done|]. intros H. done.
  - split; [|done]. intros _.
    destruct (url_params E st) as [|e sp] eqn:Hsp; [done|].
    assert (nonempty (URLSearchParams.toString (e :: sp)) = true); [|congruence].
    by apply toString_nonempty.
Qed.

Lemma number_written_zero (n : num) :
  (if num_ltb (Fin 0) n then n else Fin 0) = Fin 0 ↔ num_ltb (Fin 0) n = false.
Proof.
  destruct (num_ltb (Fin 0) n) eqn:Hn; [|done]. split; [|done].
  intros ->. done.
Qed.

Lemma write_as_written (st : UrlState) :
  writeUrlState E (as_written st) = writeUrlState E st.
Proof.
  unfold writeUrlState, url_params, as_written.
  cbn [q city cuisine neighborhood tag minRating price wouldReturn sort].
  assert (Hn : ∀ n, num_ltb (Fin 0) (if num_ltb (Fin 0) n then n else Fin 0) =
                    num_ltb (Fin 0) n).
  { intros n. destruct (num_ltb (Fin 0) n) eqn:Hn; [done|]. done. }
  assert (Hs : ∀ n, num_ltb (Fin 0) n = true →
                    (if num_ltb (Fin 0) n then n else Fin 0) = n).
  { by intros n ->. }
  rewrite !Hn.
  destruct (num_ltb (Fin 0) (minRating st)) eqn:H1;
  destruct (num_ltb (Fin 0) (price st)) eqn:H2;
  destruct (nonempty (sort st)) eqn:H3; try done.
  all: by rewrite ?H3.
Qed.

Lemma filtered_as_written (st : UrlState) (ps : list place) :
  filtered E (as_written st) ps = filtered E st ps.
Proof.
  unfold filtered. change (q (as_written st)) with (q st).
  induction ps as [|p ps IH]; [done|]. simpl. by rewrite keep_as_written, IH.
Qed.

Lemma sorted_as_written (st : UrlState) (myLoc : option (Qc * Qc)) (l : list place) :
  sorted E (as_written st) myLoc l = sorted E st myLoc l.
Proof.
  unfold sorted, as_written. cbn [sort].
  destruct (nonempty (sort st)) eqn:Hs; [done|].
  apply nonempty_false in Hs. by rewrite Hs.
Qed.

End UrlNormalForm.

(** What a state reads back as.  For every state, reading the query string
    that [writeUrlState] wrote gives the state with its numbers that are not
    positive (NaN included) replaced by 0 and an empty sort replaced by
    "top"; and writing what was read gives the same query string again, so
    the exchange between the state and the address settles after one
    step. *)
Theorem url_read_back (E : Engine) (st : UrlState) :
  conforming E → printable E (minRating st) → printable E (price st) →
  parseUrlState E (writeUrlState E st) = as_written st ∧
  writeUrlState E (parseUrlState E (writeUrlState E st)) = writeUrlState E st.
Proof.
  intros HE Hmin Hprice. rewrite parse_write by done.
  split; [done|]. apply write_as_written.
Qed.

(** The list behind a link.  The state read from the query string that
    [writeUrlState] wrote filters and sorts every list of places as the
    state that was written does. *)
Theorem shared_link_same_list (E : Engine) (st : UrlState)
    (myLoc : option (Qc * Qc)) (ps : list place) :
  conforming E → printable E (minRating st) → printable E (price st) →
  listed E (parseUrlState E (writeUrlState E st)) myLoc ps = listed E st myLoc ps.
Proof.
  intros HE Hmin Hprice. rewrite parse_write by done.
  unfold listed. rewrite filtered_as_written.
  destruct (filtered E st ps) as [l|]; [|done]. simpl.
  by rewrite sorted_as_written.
Qed.

(** The address has no query string exactly when the state is, as far as
    it is written, the state that [clearFilters] sets. *)
Theorem query_string_empty (E : Engine) (st : UrlState) :
  writeUrlState E st = "" ↔ as_written st = clearFilters.
Proof.
  rewrite writeUrlState_empty_iff. unfold url_params.
  rewrite !if_set_nil. unfold as_written, clearFilters.
  destruct st as [q0 city0 cuisine0 hood0 tag0 min0 price0 ret0 sort0].
  cbn [q city cuisine neighborhood tag minRating price wouldReturn sort].
  rewrite andb_false_iff, negb_false_iff, !nonempty_false, String.eqb_eq.
  split.
  - intros (Hs & Hr & Hp & Hm & -> & -> & -> & -> & -> & _).
    rewrite Hp, Hm, Hr. f_equal.
    destruct Hs as [-> | ->]; done.
  - intros [= H1 H2 H3 H4 H5 Hm Hp H6 Hs]. subst.
    apply number_written_zero in Hm, Hp.
    repeat split; try done.
    destruct (nonempty sort0) eqn:Hn; [by right|].
    left. by apply nonempty_false.
Qed.

(** A featured list does not depend on the filters that were set before,
    and its link gives it back. *)
Theorem featured_list_link (E : Engine) (which : string) (st st' : UrlState) :
  conforming E → printable E (Fin (Q2Qc 4.5)) → printable E (Fin 1) →
  which ∈ FEATURED →
  applyFeatured which st = applyFeatured which st' ∧
  parseUrlState E (writeUrlState E (applyFeatured which st)) = applyFeatured which st'.
Proof.
  intros HE H45 H1 Hw. unfold FEATURED in Hw. rewrite !elem_of_cons in Hw.
  assert (Hp0 : printable E (Fin 0)).
  { intros x [= <-] Hx. by apply Qclt_irrefl in Hx. }
  destruct Hw as [->|[->|[->|[->|[->|?%elem_of_nil]]]]]; try done;
    (split; [reflexivity|]); rewrite parse_write by done; reflexivity.
Qed.

Lemma printable_two : printable engine_le (Fin (Q2Qc 2)).
Proof. intros x [= <-] _. vm_compute. reflexivity. Defined.

Lemma printable_nan (E : Engine) : printable E NaN.
Proof. intros x Hx. discriminate Hx. Defined.

Lemma url_read_back_witness :
  conforming engine_le ∧
  parseUrlState engine_le (writeUrlState engine_le Ex.loose_query) =
    as_written Ex.loose_query ∧
  as_written Ex.loose_query ≠ Ex.loose_query.
Proof.
  split; [exact engine_le_conforming|]. split.
  - exact (proj1 (url_read_back engine_le Ex.loose_query engine_le_conforming
                    (printable_nan engine_le) printable_two)).
  - discriminate.
Defined.

Lemma shared_link_same_list_witness :
  conforming engine_le ∧
  listed engine_le (parseUrlState engine_le (writeUrlState engine_le Ex.loose_query))
    None Ex.effective =
  listed engine_le Ex.loose_query None Ex.effective.
Proof.
  split; [exact engine_le_conforming|].
  exact (shared_link_same_list engine_le Ex.loose_query None Ex.effective
           engine_le_conforming (printable_nan engine_le) printable_two).
Defined.

Lemma featured_list_link_witness :
  conforming engine_le ∧ "top" ∈ FEATURED ∧
  parseUrlState engine_le (writeUrlState engine_le (applyFeatured "top" Ex.shared_query)) =
    applyFeatured "top" clearFilters.
Proof.
  assert (H45 : printable engine_le (Fin (Q2Qc 4.5))).
  { intros x [= <-] _. vm_compute. reflexivity. }
  assert (H1 : printable engine_le (Fin 1)).
  { intros x [= <-] _. vm_compute. reflexivity. }
  assert (Hw : "top" ∈ FEATURED) by (by left).
  split; [exact engine_le_conforming|]. split; [exact Hw|].
  exact (proj2 (featured_list_link engine_le "top" Ex.shared_query clearFilters
                  engine_le_conforming H45 H1 Hw)).
Defined.

(** ** The edit form *)

Section SaveEdit.
Context (E : Engine).

Lemma merge_place_union edits p :
  merge_place E edits p = own_props E (patch_of E edits p) ∪ p.
Proof.
  unfold merge_place. destruct (ToBoolean _) eqn:Hb; [done|].
  by rewrite own_props_falsy, (left_id_L ∅ (∪)).
Qed.

Lemma own_props_or_else v : own_props E (or_else v (VObj ∅)) = own_props E v.
Proof.
  unfold or_else. destruct (ToBoolean v) eqn:Hb; [done|].
  by rewrite (own_props_falsy E v Hb).
Qed.

Lemma own_props_number x : own_props E (VNum x) = ∅.
Proof. done. Qed.

(** Reading a property matters to the merge through its own properties
    only, and those are the ones of the own property with that name. *)
Lemma own_props_get v k :
  own_props E (get E v k) = own_props E (default VUndef (own_props E v !! k)).
Proof.
  unfold get. destruct v as [| |b|x|s|l|o]; try done;
    (destruct (own_props E _ !! k) eqn:Hl; [done|]);
    simpl; by destruct (String.eqb k "length").
Qed.

Lemma own_props_get_or_else prev k :
  own_props E (get E (or_else prev (VObj ∅)) k) = own_props E (get E prev k).
Proof.
  unfold or_else. destruct (ToBoolean prev) eqn:Hb; [done|].
  rewrite !own_props_get, (own_props_falsy E prev Hb). done.
Qed.

Lemma get_saveEdit id d prev k :
  own_props E (get E (saveEdit E id d prev) k) =
  if decide (k = ToString E id)
  then draft_patch E d ∪ own_props E (get E prev k)
  else own_props E (get E prev k).
Proof.
  rewrite own_props_get. unfold saveEdit. cbn [own_props].
  destruct (decide (k = ToString E id)) as [->|Hk].
  - rewrite lookup_insert_eq. cbn [default own_props].
    by rewrite own_props_or_else, own_props_get_or_else.
  - rewrite lookup_insert_ne by done.
    by rewrite <- own_props_get, own_props_get_or_else.
Qed.

Lemma dom_draft_patch d : dom (draft_patch E d) = mutable_fields.
Proof.
  unfold draft_patch. rewrite !dom_insert_L, dom_empty_L.
  unfold mutable_fields. set_solver.
Qed.

Lemma merge_place_saveEdit id d prev p :
  merge_place E (saveEdit E id d prev) p =
  if decide (ToString E (field p "id") = ToString E id)
  then draft_patch E d ∪ merge_place E prev p
  else merge_place E prev p.
Proof.
  rewrite !merge_place_union. unfold patch_of. rewrite get_saveEdit.
  destruct (decide _); [|done]. by rewrite (assoc_L (∪)).
Qed.

Lemma form_written_saveEdit id d prev :
  form_written E prev → form_written E (saveEdit E id d prev).
Proof.
  intros Hp k. rewrite get_saveEdit. destruct (decide _); [|apply Hp].
  rewrite dom_union_L, dom_draft_patch. specialize (Hp k). set_solver.
Qed.

Lemma form_written_empty : form_written E (VObj ∅).
Proof.
  intros k. unfold get. simpl. rewrite lookup_empty.
  destruct (String.eqb k "length"); simpl; set_solver.
Qed.

Lemma form_written_frame edits p k :
  form_written E edits → k ∉ mutable_fields → merge_place E edits p !! k = p !! k.
Proof.
  intros Hf Hk. rewrite merge_place_lookup.
  destruct (own_props _ _ !! k) eqn:Hl; [|done].
  exfalso. apply Hk, (Hf (ToString E (field p "id"))). apply elem_of_dom. eauto.
Qed.

End SaveEdit.

Section SaveEditNormal.
Context (E : Engine).

(** The overlay [saveEdit] returns, through the own properties of what it
    reads. *)
Lemma saveEdit_unfold id d prev :
  saveEdit E id d prev =
  VObj (<[ ToString E id :=
             VObj (draft_patch E d ∪ own_props E (get E prev (ToString E id))) ]>
        (own_props E prev)).
Proof.
  unfold saveEdit. cbv zeta.
  by rewrite !own_props_or_else, own_props_get_or_else.
Qed.

Lemma draft_patch_union d1 d2 (m : gmap string value) :
  draft_patch E d2 ∪ (draft_patch E d1 ∪ m) = draft_patch E d2 ∪ m.
Proof.
  apply map_eq. intros k. rewrite !lookup_union.
  destruct (draft_patch E d2 !! k) eqn:H2; [by rewrite !union_Some_l|].
  apply not_elem_of_dom in H2. rewrite dom_draft_patch in H2.
  rewrite <- (dom_draft_patch E d1) in H2. apply not_elem_of_dom in H2.
  by rewrite H2, !(left_id_L None union).
Qed.

End SaveEditNormal.

(** What a save changes.  After [saveEdit(id)], a field of an effective
    place has the value of the draft's patch when the place has the
    identifier (as a property name) and the field is one of the five of the
    form; every other field of every place is what it was before. *)
Theorem saveEdit_effect (E : Engine) (id : value) (d : Draft) (prev : value)
    (p : place) (k : string) :
  merge_place E (saveEdit E id d prev) p !! k =
  if decide (ToString E (field p "id") = ToString E id ∧ k ∈ mutable_fields)
  then draft_patch E d !! k
  else merge_place E prev p !! k.
Proof.
  rewrite merge_place_saveEdit.
  destruct (decide (ToString E (field p "id") = ToString E id)) as [Hid|Hid].
  - rewrite lookup_union. destruct (decide (k ∈ mutable_fields)) as [Hk|Hk].
    + rewrite decide_True by done.
      rewrite <- (dom_draft_patch E d) in Hk. apply elem_of_dom in Hk as [v Hv].
      by rewrite Hv, union_Some_l.
    + rewrite decide_False by tauto.
      rewrite <- (dom_draft_patch E d) in Hk. apply not_elem_of_dom in Hk.
      by rewrite Hk, (left_id_L None union).
  - by rewrite decide_False by tauto.
Qed.

(** Saves compose.  Of two saves for one place the later one counts, and
    saves for two places can be exchanged. *)
Theorem saveEdit_twice (E : Engine) (id1 id2 : value) (d1 d2 : Draft) (prev : value) :
  (ToString E id1 = ToString E id2 →
   saveEdit E id2 d2 (saveEdit E id1 d1 prev) = saveEdit E id2 d2 prev) ∧
  (ToString E id1 ≠ ToString E id2 →
   saveEdit E id2 d2 (saveEdit E id1 d1 prev) =
   saveEdit E id1 d1 (saveEdit E id2 d2 prev)).
Proof.
  split; intros Hid.
  - rewrite (saveEdit_unfold E id2 d2 (saveEdit _ _ _ _)), get_saveEdit.
    rewrite decide_True by done.
    rewrite !saveEdit_unfold. cbn [own_props].
    rewrite Hid, insert_insert_eq. by rewrite draft_patch_union.
  - rewrite (saveEdit_unfold E id2 d2 (saveEdit _ _ _ _)), get_saveEdit.
    rewrite (saveEdit_unfold E id1 d1 (saveEdit _ _ _ _)), get_saveEdit.
    rewrite !decide_False by done.
    rewrite !saveEdit_unfold. cbn [own_props].
    by rewrite insert_insert_ne.
Qed.

(** The form keeps the identity of a place.  From an overlay whose entries
    have none but the five fields of the form (the empty overlay is one),
    whatever is saved, and in whatever order, every other field of every
    effective place, its identifier, its name and its coordinates among
    them, is the field of the base place. *)
Theorem form_keeps_identity (E : Engine) (saves : list (value * Draft))
    (prev : value) (p : place) (k : string) :
  form_written E prev → k ∉ mutable_fields →
  merge_place E (foldl (λ edits s, saveEdit E s.1 s.2 edits) prev saves) p !! k = p !! k.
Proof.
  intros Hprev Hk. apply form_written_frame; [|done].
  clear p k Hk. revert prev Hprev.
  induction saves as [|[id d] saves IH]; intros prev Hprev; [done|].
  simpl. apply IH. by apply form_written_saveEdit.
Qed.

Lemma form_keeps_identity_witness :
  form_written engine_le (VObj ∅) ∧
  merge_place engine_le
    (foldl (λ edits s, saveEdit engine_le s.1 s.2 edits) (VObj ∅)
           [(VStr "b", Ex.typed_draft); (VStr "a", startEdit Ex.ramen)])
    Ex.taco !! "name" = Ex.taco !! "name".
Proof.
  split; [apply form_written_empty|].
  apply (form_keeps_identity engine_le _ (VObj ∅) Ex.taco "name").
  - apply form_written_empty.
  - apply (bool_decide_unpack _). vm_compute. exact I.
Defined.

(** The export holds the effective list: the places the application
    shows, local edits applied. *)
Theorem exportPlaces_effective (E : Engine) (basePlaces : list place) (edits : value) :
  exportPlaces E basePlaces edits = places E basePlaces edits.
Proof. reflexivity. Qed.

Section UnchangedDraft.
Context (E : Engine) (p : place).
Context (Hrating : is_number (field p "rating")) (Hprice : is_number (field p "price")).
Context (Hflag : is_flag (field p "wouldReturn")) (Hnotes : is_text (field p "notes")).

#[local] Abbreviation p' := (draft_patch E (startEdit p) ∪ p).

Lemma unchanged_other k : k ∉ mutable_fields → field p' k = field p k.
Proof.
  intros Hk. unfold field. rewrite lookup_union.
  rewrite <- (dom_draft_patch E (startEdit p)) in Hk. apply not_elem_of_dom in Hk.
  by rewrite Hk, (left_id_L None union).
Qed.

Lemma unchanged_rating :
  field p' "rating" = match field p "rating" with VNum x => VNum x | _ => VNull end.
Proof.
  unfold field at 1. rewrite lookup_union. unfold draft_patch.
  rewrite lookup_insert_eq. rewrite union_Some_l. simpl.
  unfold number_or_null.
  by destruct (field p "rating") as [| |b|x|s|l|o].
Qed.

Lemma unchanged_price :
  field p' "price" = match field p "price" with VNum x => VNum x | _ => VNull end.
Proof.
  unfold field at 1. rewrite lookup_union. unfold draft_patch.
  rewrite lookup_insert_ne by done. rewrite lookup_insert_eq, union_Some_l. simpl.
  unfold number_or_null.
  by destruct (field p "price") as [| |b|x|s|l|o].
Qed.

Lemma unchanged_wouldReturn :
  field p' "wouldReturn" = VBool (is_true (field p "wouldReturn")).
Proof.
  unfold field at 1. rewrite lookup_union. unfold draft_patch.
  do 2 (rewrite lookup_insert_ne by done). rewrite lookup_insert_eq, union_Some_l. simpl.
  by destruct (field p "wouldReturn") as [| |b|x|s|l|o].
Qed.

Lemma unchanged_notes :
  field p' "notes" = VStr (match field p "notes" with VStr s => s | _ => "" end).
Proof.
  unfold field at 1. rewrite lookup_union. unfold draft_patch.
  do 3 (rewrite lookup_insert_ne by done). rewrite lookup_insert_eq, union_Some_l. simpl.
  destruct (field p "notes") as [| |b|x|s|l|o]; try done.
  simpl. unfold or_else. simpl. by destruct (String.eqb_spec s "") as [->|].
Qed.

Lemma unchanged_keep (st : UrlState) (qq : string) : keep E st qq p' = keep E st qq p.
Proof.
  assert (Hin : ∀ k, bool_decide (k ∉ mutable_fields) = true → field p' k = field p k).
  { intros k Hk. apply unchanged_other. by apply bool_decide_eq_true in Hk. }
  unfold keep, hay, rating_or_zero.
  rewrite (Hin "city"), (Hin "neighborhood"), (Hin "cuisine"), (Hin "tags"),
    (Hin "name"), (Hin "address") by (vm_compute; reflexivity).
  rewrite unchanged_rating, unchanged_price, unchanged_wouldReturn, unchanged_notes.
  assert (ToNumber E (or_else (match field p "price" with VNum x => VNum x | _ => VNull end)
                              (VNum 0)) =
          ToNumber E (or_else (field p "price") (VNum 0))) as ->.
  { by destruct (field p "price") as [| |b|x|s|l|o]. }
  assert (is_true (VBool (is_true (field p "wouldReturn"))) =
          is_true (field p "wouldReturn")) as -> by done.
  assert (match (match field p "rating" with VNum x => VNum x | _ => VNull end) with
          | VNum x => Fin x | _ => Fin 0 end =
          match field p "rating" with VNum x => Fin x | _ => Fin 0 end) as ->.
  { by destruct (field p "rating") as [| |b|x|s|l|o]. }
  assert (Hn : ∀ l : list value,
            filter (λ v, ToBoolean v)
              (l ++ [VStr (match field p "notes" with VStr s => s | _ => "" end)])%list =
            filter (λ v, ToBoolean v) (l ++ [field p "notes"])%list).
  { intros l. rewrite !filter_app. f_equal.
    destruct (field p "notes") as [| |b|x|s|l'|o]; try done. }
  destruct (spread (or_else (field p "cuisine") (VArr []))) as [cs|]; [|done].
  destruct (spread (or_else (field p "tags") (VArr []))) as [ts|]; [|done].
  cbn [bind].
  rewrite !(assoc_L app _ _ [_]), Hn. done.
Qed.

Lemma unchanged_top_key : top_key E p' = top_key E p.
Proof.
  unfold top_key. rewrite unchanged_rating.
  by destruct (field p "rating") as [| |b|x|s|l|o].
Qed.

Lemma unchanged_sort_key (st : UrlState) (myLoc : option (Qc * Qc)) :
  sort_key_of E st myLoc p' = sort_key_of E st myLoc p.
Proof.
  assert (Hin : ∀ k, bool_decide (k ∉ mutable_fields) = true → field p' k = field p k).
  { intros k Hk. apply unchanged_other. by apply bool_decide_eq_true in Hk. }
  unfold sort_key_of, distance. rewrite unchanged_top_key.
  by rewrite (Hin "name"), (Hin "visitedAt"), (Hin "lat"), (Hin "lon")
    by (vm_compute; reflexivity).
Qed.

End UnchangedDraft.

(** Saving an unchanged draft.  When the form is opened on an effective
    place and saved as it is, the filter keeps or drops the place as before,
    whatever the query, and the place has the sort key it had, under every
    strategy.  (The rating, the price and the flag of the place are a number,
    a boolean or absent, its notes are text, and the overlay has not replaced
    its identifier.) *)
Theorem unchanged_draft_invisible (E : Engine) (prev : value) (b : place)
    (st : UrlState) (qq : string) (myLoc : option (Qc * Qc)) :
  let p := merge_place E prev b in
  let p' := merge_place E (saveEdit E (field p "id") (startEdit p) prev) b in
  ToString E (field b "id") = ToString E (field p "id") →
  is_number (field p "rating") → is_number (field p "price") →
  is_flag (field p "wouldReturn") → is_text (field p "notes") →
  keep E st qq p' = keep E st qq p ∧
  sort_key_of E st myLoc p' = sort_key_of E st myLoc p.
Proof.
  intros p p' Hid Hrating Hprice Hflag Hnotes.
  assert (p' = draft_patch E (startEdit p) ∪ p) as ->.
  { unfold p'. rewrite merge_place_saveEdit. by rewrite decide_True by done. }
  split; [by apply unchanged_keep|by apply unchanged_sort_key].
Qed.

Lemma unchanged_draft_invisible_witness :
  keep engine_le Ex.rated_four "taco"
    (merge_place engine_le
       (saveEdit engine_le (VStr "b")
          (startEdit (merge_place engine_le Ex.overlay Ex.taco)) Ex.overlay)
       Ex.taco) =
  keep engine_le Ex.rated_four "taco" (merge_place engine_le Ex.overlay Ex.taco).
Proof.
  refine (proj1 (unchanged_draft_invisible engine_le Ex.overlay Ex.taco
                   Ex.rated_four "taco" None _ _ _ _ _));
    vm_compute; (reflexivity || exact I).
Defined.

(** ** The stored overlay *)

(** [saveEdits] never raises and writes no item but its own: the storage
    after the call has the serialized overlay under the key of the
    application, or it is the storage from before the call, when that is not
    available or has no room. *)
Theorem saveEdits_contained (H : Host) (st : Storage) (edits : value) :
  ∃ st', saveEdits H st edits = Normal st' ∧
    (∀ k, k ≠ EDITS_KEY → getItem st' k = getItem st k) ∧
    (st' = st ∨
     getItem st' EDITS_KEY =
       Normal (Some (default "undefined" (JSON_stringify H edits)))).
Proof.
  unfold saveEdits, setItem. destruct st as [|m]; simpl.
  { eexists. split; [done|]. split; [done|]. by left. }
  destruct (has_room H _); simpl.
  - eexists. split; [done|]. split.
    + intros k Hk. simpl. by rewrite lookup_insert_ne.
    + right. simpl. by rewrite lookup_insert_eq.
  - eexists. split; [done|]. split; [done|]. by left.
Qed.

(** Edits survive a reload.  When the storage takes the text of the
    overlay, and the text parses to the overlay again, [loadEdits] after
    [saveEdits] returns the overlay that was saved. *)
Theorem edits_survive_reload (H : Host) (m : gmap string string) (edits : value)
    (raw : string) :
  JSON_stringify H edits = Some raw →
  has_room H (<[EDITS_KEY := raw]> m) = true →
  raw ≠ "" → JSON_parse H raw = Some edits →
  (∃ o, edits = VObj o) →
  bind (saveEdits H (Items m) edits) (loadEdits H) = Normal edits.
Proof.
  intros Hs Hroom Hne Hp [o ->].
  unfold saveEdits, setItem. rewrite Hs. simpl. rewrite Hroom. simpl.
  unfold loadEdits. simpl. rewrite lookup_insert_eq. simpl.
  unfold nonempty. rewrite negb_involutive.
  destruct (String.eqb_spec raw ""); [done|]. by rewrite Hp.
Qed.

Lemma edits_survive_reload_witness :
  bind (saveEdits host_le (Items ∅)
          (saveEdit engine_le (VStr "a") Ex.typed_draft Ex.overlay))
       (loadEdits host_le) =
  Normal (saveEdit engine_le (VStr "a") Ex.typed_draft Ex.overlay).
Proof.
  apply (edits_survive_reload host_le ∅ _
           (default "" (Sample.JSON_stringify
                          (saveEdit engine_le (VStr "a") Ex.typed_draft Ex.overlay)))).
  - vm_compute. reflexivity.
  - vm_compute. reflexivity.
  - vm_compute. discriminate.
  - vm_compute. reflexivity.
  - eexists. reflexivity.
Defined.

(** ** The markers *)

Lemma strict_equal_primitive (a b : value) :
  is_primitive a → is_primitive b →
  ∃ r, strict_equal a b = Some r ∧ (r = true ↔ a = b).
Proof.
  destruct a as [| |x|x|s|l|o], b as [| |y|y|t|l'|o']; simpl; try done; intros _ _;
    eexists; (split; [reflexivity|]);
    rewrite ?bool_decide_eq_true, ?String.eqb_eq; try (split; [done|congruence]);
    try (split; congruence).
  destruct x, y; simpl; split; congruence.
Qed.

Lemma some_o_primitive {A} (key : A → value) (v : value) (l : list A) :
  is_primitive v → Forall (λ s, is_primitive (key s)) l →
  ∃ r, some_o (λ s, strict_equal (key s) v) l = Some r ∧
       (r = true ↔ ∃ s, s ∈ l ∧ key s = v).
Proof.
  intros Hv. induction 1 as [|x l Hx _ (r & Hr & IH)]; simpl.
  - exists false. split; [done|]. split; [done|]. by intros (s & ?%elem_of_nil & _).
  - destruct (strict_equal_primitive (key x) v Hx Hv) as (b & -> & Hb).
    destruct b.
    + exists true. split; [done|]. split; [|done]. intros _. exists x.
      split; [by left|]. by apply Hb.
    + exists r. split; [done|]. rewrite IH. split.
      * intros (s & Hs & Hk). exists s. split; [by right|done].
      * intros (s & [->|Hs]%elem_of_cons & Hk); [|by exists s].
        apply Hb in Hk. done.
Qed.

Lemma NoDup_fmap_eq {A B} (f : A → B) (l : list A) (x y : A) :
  NoDup (f <$> l) → x ∈ l → y ∈ l → f x = f y → x = y.
Proof.
  induction l as [|z l IH]; [by intros _ ?%elem_of_nil|].
  rewrite fmap_cons, NoDup_cons. intros [Hz Hl].
  intros [->|Hx]%elem_of_cons [->|Hy]%elem_of_cons Hf; auto.
  - exfalso. apply Hz. rewrite Hf. by apply list_elem_of_fmap_2.
  - exfalso. apply Hz. rewrite <- Hf. by apply list_elem_of_fmap_2.
Qed.

(** Filtering the list by "is in the sublist", decided by a key without
    duplicates, gives the sublist. *)
Lemma filter_o_sublist {A} (P : A → Prop) `{∀ x, Decision (P x)}
    (f : A → option bool) (key : A → value) (l1 l2 : list A) :
  l1 `sublist_of` l2 → NoDup (key <$> l2) →
  (∀ p, p ∈ l2 → ∃ r, f p = Some r ∧ (r = true ↔ p ∈ l1)) →
  filter_o f (filter P l2) = Some (filter P l1).
Proof.
  induction 1 as [|x l1 l2 Hsub IH|x l1 l2 Hsub IH]; intros Hnd Hf.
  - done.
  - rewrite fmap_cons, NoDup_cons in Hnd. destruct Hnd as [Hx Hnd].
    assert (IH' : filter_o f (filter P l2) = Some (filter P l1)).
    { apply IH; [done|]. intros p Hp.
      destruct (Hf p) as (r & Hr & Hiff); [by right|].
      exists r. split; [done|]. rewrite Hiff, elem_of_cons. split; [|auto].
      intros [->|?]; [|done]. exfalso. apply Hx. by apply list_elem_of_fmap_2. }
    rewrite !filter_cons. destruct (decide (P x)); [|done].
    simpl. destruct (Hf x) as (r & -> & Hiff); [by left|].
    rewrite IH'. assert (r = true) as -> by (apply Hiff; by left). done.
  - rewrite fmap_cons, NoDup_cons in Hnd. destruct Hnd as [Hx Hnd].
    assert (IH' : filter_o f (filter P l2) = Some (filter P l1)).
    { apply IH; [done|]. intros p Hp. apply Hf. by right. }
    rewrite filter_cons. destruct (decide (P x)); [|done].
    simpl. destruct (Hf x) as (r & -> & Hiff); [by left|].
    rewrite IH'. destruct r; [|done].
    exfalso. apply Hx. apply list_elem_of_fmap_2.
    eapply elem_of_sublist; [|exact Hsub]. by apply Hiff.
Qed.

(** On places whose names and visit dates are text or absent, the
    comparisons of the [name] and [recent] sorts do not raise: the call of
    [localeCompare] has a string for its receiver, and it returns what
    [name_cmp] and [recent_cmp] return. *)
Lemma localeCompare_call_text (E : Engine) (u v : value) :
  is_text u → is_text v →
  localeCompare_call E (or_else u (VStr "")) (or_else v (VStr "")) =
  Normal (Fin (localeCompare E (text_or_empty u) (text_or_empty v))).
Proof.
  unfold localeCompare_call, text_or_empty, or_else.
  destruct u as [| |b|x|s|l|o]; try done; destruct v as [| |b'|x'|s'|l'|o']; try done;
    intros _ _; cbn [ToBoolean];
    repeat match goal with |- context [negb (String.eqb ?s "")] =>
      destruct (negb (String.eqb s "")) end; done.
Qed.

(** The map shows what the list shows.  For places of the data model
    whose identifiers are strings or other primitive values, no two the
    same, the comparisons of the sorts by name and by date do not raise on
    what the filter kept, and the places that get a marker are the places
    the filter kept that pass the coordinate test of the code (latitude and
    longitude convert to finite numbers, as numbers, numeric strings and
    null do), in the order of the dataset, whatever the sort. *)
Theorem markers_match_list (E : Engine) (st : UrlState) (myLoc : option (Qc * Qc))
    (ps flt : list place) :
  conforming E →
  Forall well_formed ps →
  Forall (λ p, is_primitive (field p "id")) ps →
  NoDup ((λ p, field p "id") <$> ps) →
  filtered E st ps = Normal flt →
  (∀ a b, a ∈ flt → b ∈ flt →
     name_callback E a b = Normal (name_cmp E a b) ∧
     recent_callback E a b = Normal (recent_cmp E a b)) ∧
  markers E ps (sorted E st myLoc flt) = Some (filter (λ p, valid_coords E p) flt).
Proof.
  intros HE Hwf Hprim Hnd Hflt.
  pose proof (filter_c_sublist _ _ _ Hflt) as Hsub.
  split.
  { assert (Htext : ∀ a, a ∈ flt →
              is_text (field a "name") ∧ is_text (field a "visitedAt")).
    { intros a Ha. rewrite Forall_forall in Hwf.
      assert (Hw : well_formed a) by (apply Hwf; by eapply elem_of_sublist).
      unfold well_formed in Hw. rewrite !andb_True in Hw. naive_solver. }
    intros a b [Ha1 Ha2]%Htext [Hb1 Hb2]%Htext.
    split; by apply localeCompare_call_text. }
  unfold markers, placesWithCoords.
  apply (filter_o_sublist _ _ (λ p, field p "id")); [done..|].
  intros p Hp. rewrite Forall_forall in Hprim.
  destruct (some_o_primitive (λ s, field s "id") (field p "id")
              (sorted E st myLoc flt)) as (r & Hr & Hiff).
  - by apply Hprim.
  - apply Forall_forall. intros s Hs. apply Hprim.
    rewrite (sorted_permutation E HE) in Hs. by eapply elem_of_sublist.
  - exists r. split; [done|]. rewrite Hiff. split.
    + intros (s & Hs & Hk). rewrite (sorted_permutation E HE) in Hs.
      assert (s = p) as <-; [|done].
      apply (NoDup_fmap_eq (λ p, field p "id") ps); [done| |done..].
      by eapply elem_of_sublist.
    + intros Hin. exists p. split; [|done]. by rewrite (sorted_permutation E HE).
Qed.

Lemma markers_match_list_witness :
  conforming engine_le ∧
  Forall well_formed [Ex.bakery; Ex.popup; Ex.cafe] ∧
  markers engine_le [Ex.bakery; Ex.popup; Ex.cafe]
    (sorted engine_le (Ex.query "nearest") (Some Ex.here) [Ex.bakery; Ex.popup; Ex.cafe]) =
  Some [Ex.bakery; Ex.cafe].
Proof.
  assert (Hwf : Forall well_formed [Ex.bakery; Ex.popup; Ex.cafe]).
  { repeat (apply Forall_cons_2; [vm_compute; exact I|]). apply Forall_nil_2. }
  split; [exact engine_le_conforming|]. split; [exact Hwf|].
  refine (proj2 (markers_match_list engine_le (Ex.query "nearest") (Some Ex.here)
                   [Ex.bakery; Ex.popup; Ex.cafe] [Ex.bakery; Ex.popup; Ex.cafe]
                   engine_le_conforming Hwf _ _ _)).
  - repeat constructor.
  - change (NoDup [VStr "k"; VStr "m"; VStr "c"]).
    repeat constructor; rewrite ?elem_of_cons, ?elem_of_nil; intros H;
      repeat destruct H as [H|H]; done.
  - vm_compute. reflexivity.
Defined.

(** ** The nearest double *)

Section Doubles.
Import Float.

Lemma floor_spec (x : Qc) : Qc_of_Z (Qfloor x) <= x ∧ x < Qc_of_Z (Qfloor x + 1).
Proof. split; [apply Qfloor_le|apply Qlt_floor]. Qed.

Lemma floor_mono (x y : Qc) : x <= y → (Qfloor x ≤ Qfloor y)%Z.
Proof. apply Qfloor_resp_le. Qed.

Lemma floor_whole (z : Z) : Qfloor (Qc_of_Z z) = z.
Proof. apply Qfloor_Z. Qed.

Lemma round_even_cases (x : Qc) :
  round_even x = Qfloor x ∨ round_even x = (Qfloor x + 1)%Z.
Proof.
  unfold round_even. repeat case_bool_decide; try destruct (Z.even _); auto.
Qed.

Lemma round_even_whole (z : Z) : round_even (Qc_of_Z z) = z.
Proof.
  unfold round_even. rewrite floor_whole.
  replace (Qc_of_Z z - Qc_of_Z z) with 0 by ring.
  by rewrite bool_decide_eq_true_2.
Qed.

Lemma round_even_mono (x y : Qc) : x <= y → (round_even x ≤ round_even y)%Z.
Proof.
  intros Hxy. pose proof (floor_mono x y Hxy) as Hf.
  destruct (Z.eq_dec (Qfloor x) (Qfloor y)) as [Heq|Hne].
  - unfold round_even. rewrite <- Heq.
    assert (Hr : x - Qc_of_Z (Qfloor x) <= y - Qc_of_Z (Qfloor x)).
    { by apply Qcplus_le_compat; [|apply Qcle_refl]. }
    revert Hr. generalize (x - Qc_of_Z (Qfloor x)) (y - Qc_of_Z (Qfloor x)).
    intros rx ry Hr.
    repeat case_bool_decide; try destruct (Z.even _); try lia; exfalso.
    all: repeat match goal with
         | H : ¬ (_ < _) |- _ => apply Qcnot_lt_le in H
         end.
    all: try (eapply Qclt_irrefl, Qcle_lt_trans; [eassumption|];
              eapply Qcle_lt_trans; [eassumption|]; eassumption).
    all: try (eapply Qclt_irrefl, Qclt_le_trans; [eassumption|];
              eapply Qcle_trans; [eassumption|]; eassumption).
    all: try (eapply Qclt_irrefl, Qclt_le_trans; [eassumption|];
              eapply Qcle_trans; [|eassumption]; eassumption).
  - destruct (round_even_cases x), (round_even_cases y); lia.
Qed.

Lemma two_pow_pos (e : Z) : (0 ≤ e)%Z → 0 < Qc_of_Z (2 ^ e).
Proof.
  intros He. rewrite <- Z2Qc_inj_0. apply (proj1 (Z2Qc_inj_lt _ _)).
  by apply Z.pow_pos_nonneg.
Qed.

Lemma pow2_pos (e : Z) : 0 < pow2 e.
Proof.
  unfold pow2. destruct (Z.leb_spec 0 e).
  - by apply two_pow_pos.
  - apply Qcinv_pos, two_pow_pos. lia.
Qed.

Lemma pow2_succ (e : Z) : pow2 (e + 1) = Qc_of_Z 2 * pow2 e.
Proof.
  assert (Hnz : ∀ k, (0 ≤ k)%Z → Qc_of_Z (2 ^ k) ≠ 0).
  { intros k Hk Hz. pose proof (two_pow_pos k Hk) as Hp. rewrite Hz in Hp.
    by apply Qclt_irrefl in Hp. }
  unfold pow2. destruct (Z.leb_spec 0 e) as [He|He].
  - rewrite (proj2 (Z.leb_le 0 (e + 1))) by lia.
    by rewrite Z.add_1_r, Z.pow_succ_r, Z2Qc_inj_mul.
  - destruct (Z.leb_spec 0 (e + 1)) as [He'|He'].
    + assert (e = (-1)%Z) as -> by lia. by apply Qc_is_canon.
    + replace (- e)%Z with (Z.succ (- (e + 1))) by lia.
      rewrite Z.pow_succ_r, Z2Qc_inj_mul by lia.
      field. split; [apply Hnz; lia|]. by rewrite <- Z2Qc_inj_0, Z2Qc_inj_iff.
Qed.

Lemma pow2_plus (e : Z) (n : nat) :
  pow2 (e + Z.of_nat n) = Qc_of_Z (2 ^ Z.of_nat n) * pow2 e.
Proof.
  induction n as [|n IH].
  - rewrite Z.add_0_r. change (Qc_of_Z (2 ^ Z.of_nat 0)) with (Qc_of_Z 1).
    rewrite Z2Qc_inj_1. ring.
  - rewrite Nat2Z.inj_succ, <- Z.add_1_r, Z.add_assoc, pow2_succ, IH.
    rewrite Z.add_1_r, Z.pow_succ_r, Z2Qc_inj_mul by lia. ring.
Qed.

Lemma pow2_le (e e' : Z) : (e ≤ e')%Z → pow2 e <= pow2 e'.
Proof.
  intros He. replace e' with (e + Z.of_nat (Z.to_nat (e' - e)))%Z by lia.
  rewrite pow2_plus.
  replace (pow2 e) with (Qc_of_Z 1 * pow2 e) at 1 by (rewrite Z2Qc_inj_1; ring).
  apply Qcmult_le_compat_r; [|apply Qclt_le_weak, pow2_pos].
  apply (proj1 (Z2Qc_inj_le _ _)).
  assert (0 < 2 ^ Z.of_nat (Z.to_nat (e' - e)))%Z by (apply Z.pow_pos_nonneg; lia). lia.
Qed.

Lemma pow2_nonneg (e : Z) : (0 ≤ e)%Z → pow2 e = Qc_of_Z (2 ^ e).
Proof. intros He. unfold pow2. by rewrite (proj2 (Z.leb_le 0 e)). Qed.

Lemma pow2_opp (k : Z) : (0 ≤ k)%Z → pow2 (- k) = / pow2 k.
Proof.
  intros Hk. destruct (Z.eq_dec k 0%Z) as [->|Hne]; [by apply Qc_is_canon|].
  unfold pow2. rewrite (proj2 (Z.leb_le 0 k)) by lia.
  rewrite (proj2 (Z.leb_gt 0 (- k))) by lia. by rewrite Z.opp_involutive.
Qed.

Lemma Qc_neq_pos (x : Qc) : 0 < x → x ≠ 0.
Proof. intros Hx ->. by apply Qclt_irrefl in Hx. Qed.

Lemma inv_le (a b : Qc) : 0 < a → a <= b → / b <= / a.
Proof.
  intros Ha Hab. assert (Hb : 0 < b) by (by eapply Qclt_le_trans).
  pose proof (Qc_neq_pos a Ha). pose proof (Qc_neq_pos b Hb).
  replace (/ b) with (a * (/ a * / b)) by (by field).
  replace (/ a) with (b * (/ a * / b)) at 2 by (by field).
  apply Qcmult_le_compat_r; [done|].
  apply Qclt_le_weak, Qcmult_pos_pos; by apply Qcinv_pos.
Qed.

Lemma inv_lt (a b : Qc) : 0 < a → a < b → / b < / a.
Proof.
  intros Ha Hab. assert (Hb : 0 < b) by (by eapply Qclt_trans).
  pose proof (Qc_neq_pos a Ha). pose proof (Qc_neq_pos b Hb).
  replace (/ b) with (a * (/ a * / b)) by (by field).
  replace (/ a) with (b * (/ a * / b)) at 2 by (by field).
  apply Qcmult_lt_compat_r; [|done].
  apply Qcmult_pos_pos; by apply Qcinv_pos.
Qed.

Lemma exponent_whole_part (x : Qc) :
  1 <= x →
  pow2 (Z.log2 (Qfloor x)) <= x ∧ x < pow2 (Z.log2 (Qfloor x) + 1).
Proof.
  intros H1. destruct (floor_spec x) as [Hf1 Hf2].
  assert (Hf : (1 ≤ Qfloor x)%Z).
  { rewrite <- (floor_whole 1). apply floor_mono. by rewrite Z2Qc_inj_1. }
  destruct (Z.log2_spec (Qfloor x)) as [Hl1 Hl2]; [lia|].
  pose proof (Z.log2_nonneg (Qfloor x)) as He.
  rewrite !pow2_nonneg by lia. split.
  - eapply Qcle_trans; [|exact Hf1]. by apply (proj1 (Z2Qc_inj_le _ _)).
  - eapply Qclt_le_trans; [exact Hf2|]. apply (proj1 (Z2Qc_inj_le _ _)).
    rewrite Z.add_1_r. lia.
Qed.

Lemma exponent_spec (x : Qc) :
  0 < x → pow2 (exponent x) <= x ∧ x < pow2 (exponent x + 1).
Proof.
  intros Hx. unfold exponent. case_bool_decide as H1; [by apply exponent_whole_part|].
  apply Qcnot_le_lt in H1.
  assert (Hy : 1 <= / x).
  { replace 1 with (/ 1) by (by apply Qc_is_canon).
    by apply inv_le, Qclt_le_weak. }
  destruct (exponent_whole_part (/ x) Hy) as [HA HB].
  set (k := Z.log2 (Qfloor (/ x)%Qc)) in *.
  assert (Hk : (0 ≤ k)%Z) by apply Z.log2_nonneg.
  assert (Hxx : / / x = x).
  { field. split; [by apply Qc_neq_pos|discriminate]. }
  assert (Hle : x <= pow2 (- k)).
  { rewrite pow2_opp by done. rewrite <- Hxx at 1. apply inv_le; [apply pow2_pos|done]. }
  assert (Hlt : pow2 (- k - 1) < x).
  { replace (- k - 1)%Z with (- (k + 1))%Z by lia. rewrite pow2_opp by lia.
    rewrite <- Hxx at 1. apply inv_lt; [|done]. by apply Qcinv_pos. }
  case_bool_decide as H2.
  - split; [by rewrite <- H2; apply Qcle_refl|].
    rewrite pow2_succ, <- H2.
    replace x with (Qc_of_Z 1 * x) at 1 by (rewrite Z2Qc_inj_1; ring).
    apply Qcmult_lt_compat_r; [done|]. by apply (proj1 (Z2Qc_inj_lt _ _)).
  - split; [by apply Qclt_le_weak|].
    replace (- k - 1 + 1)%Z with (- k)%Z by lia.
    by destruct (Qcle_lt_or_eq _ _ Hle).
Qed.

Lemma exponent_mono (x y : Qc) : 0 < x → x <= y → (exponent x ≤ exponent y)%Z.
Proof.
  intros Hx Hxy. assert (Hy : 0 < y) by (by eapply Qclt_le_trans).
  destruct (exponent_spec x Hx) as [Hx1 _]. destruct (exponent_spec y Hy) as [_ Hy2].
  destruct (Z_le_gt_dec (exponent x) (exponent y)) as [?|Hgt]; [done|]. exfalso.
  apply (Qclt_irrefl y). eapply Qclt_le_trans; [exact Hy2|].
  eapply Qcle_trans; [|exact Hxy]. eapply Qcle_trans; [|exact Hx1].
  apply pow2_le. lia.
Qed.

(** Rounding to the multiples of [u]. *)
Lemma grid_mono (u a b : Qc) :
  0 < u → a <= b →
  u * Qc_of_Z (round_even (a / u)) <= u * Qc_of_Z (round_even (b / u)).
Proof.
  intros Hu Hab. rewrite !(Qcmult_comm u).
  apply Qcmult_le_compat_r; [|by apply Qclt_le_weak].
  apply (proj1 (Z2Qc_inj_le _ _)), round_even_mono.
  apply Qcmult_le_compat_r; [done|]. by apply Qclt_le_weak, Qcinv_pos.
Qed.

Lemma grid_fix (u : Qc) (k : Z) :
  0 < u → u * Qc_of_Z (round_even (Qc_of_Z k * u / u)) = Qc_of_Z k * u.
Proof.
  intros Hu. replace (Qc_of_Z k * u / u) with (Qc_of_Z k)
    by (field; by apply Qc_neq_pos).
  rewrite round_even_whole. ring.
Qed.

Lemma round_pos_bounds (x : Qc) :
  0 < x → pow2 (exponent x) <= round_pos x ∧ round_pos x <= pow2 (exponent x + 1).
Proof.
  intros Hx. destruct (exponent_spec x Hx) as [H1 H2].
  unfold round_pos. cbv zeta.
  pose proof (pow2_pos (exponent x - 52)) as Hu.
  assert (Hlo : pow2 (exponent x) = Qc_of_Z (2 ^ 52) * pow2 (exponent x - 52)).
  { rewrite <- (pow2_plus _ 52). f_equal. lia. }
  assert (Hhi : pow2 (exponent x + 1) = Qc_of_Z (2 ^ 53) * pow2 (exponent x - 52)).
  { rewrite <- (pow2_plus _ 53). f_equal. lia. }
  split.
  - rewrite Hlo at 1. rewrite <- (grid_fix _ _ Hu), <- Hlo. by apply grid_mono.
  - rewrite Hhi at 1. rewrite <- (grid_fix _ _ Hu), <- Hhi.
    by apply grid_mono, Qclt_le_weak.
Qed.

Lemma round_pos_mono (x y : Qc) : 0 < x → x <= y → round_pos x <= round_pos y.
Proof.
  intros Hx Hxy. assert (Hy : 0 < y) by (by eapply Qclt_le_trans).
  pose proof (exponent_mono x y Hx Hxy) as He.
  destruct (Z.eq_dec (exponent x) (exponent y)) as [Heq|Hne].
  - unfold round_pos. cbv zeta. rewrite Heq. apply grid_mono; [apply pow2_pos|done].
  - destruct (round_pos_bounds x Hx) as [_ H1]. destruct (round_pos_bounds y Hy) as [H2 _].
    eapply Qcle_trans; [exact H1|]. eapply Qcle_trans; [|exact H2]. apply pow2_le. lia.
Qed.

Lemma round_pos_positive (x : Qc) : 0 < x → 0 < round_pos x.
Proof.
  intros Hx. destruct (round_pos_bounds x Hx) as [H1 _].
  eapply Qclt_le_trans; [apply pow2_pos|exact H1].
Qed.

Lemma round_pos_whole (z : Z) :
  (0 < z < 2 ^ 53)%Z → round_pos (Qc_of_Z z) = Qc_of_Z z.
Proof.
  intros Hz.
  assert (He : exponent (Qc_of_Z z) = Z.log2 z).
  { unfold exponent. rewrite bool_decide_eq_true_2, floor_whole; [done|].
    rewrite <- Z2Qc_inj_1. apply (proj1 (Z2Qc_inj_le _ _)). lia. }
  assert (Hl : (0 ≤ Z.log2 z < 53)%Z).
  { split; [apply Z.log2_nonneg|]. apply Z.log2_lt_pow2; lia. }
  unfold round_pos. cbv zeta. rewrite He.
  pose proof (pow2_pos (Z.log2 z - 52)) as Hu.
  assert (H1 : Qc_of_Z (2 ^ Z.of_nat (Z.to_nat (52 - Z.log2 z))) * pow2 (Z.log2 z - 52) = 1).
  { rewrite <- pow2_plus. replace (_ + _)%Z with 0%Z by lia. by apply Qc_is_canon. }
  assert (H2 : Qc_of_Z z =
               Qc_of_Z (z * 2 ^ Z.of_nat (Z.to_nat (52 - Z.log2 z))) * pow2 (Z.log2 z - 52)).
  { rewrite Z2Qc_inj_mul, <- Qcmult_assoc, H1. ring. }
  rewrite H2 at 1. rewrite grid_fix by done. by rewrite <- H2.
Qed.

Lemma binary64_positive (x : Qc) : 0 < x → binary64 x = round_pos x.
Proof.
  intros Hx. unfold binary64.
  rewrite bool_decide_eq_false_2 by (by apply Qc_neq_pos).
  by rewrite bool_decide_eq_false_2 by (by apply Qcle_not_lt, Qclt_le_weak).
Qed.

Lemma binary64_negative (x : Qc) : x < 0 → binary64 x = - round_pos (- x).
Proof.
  intros Hx. unfold binary64.
  rewrite bool_decide_eq_false_2 by (intros ->; by apply Qclt_irrefl in Hx).
  by rewrite bool_decide_eq_true_2.
Qed.

Lemma opp_pos (x : Qc) : x < 0 → 0 < - x.
Proof.
  intros Hx. apply Qcnot_le_lt. intros H. apply Qcopp_le_compat in H.
  rewrite Qcopp_involutive in H. change (- 0) with 0 in H.
  by apply Qcle_not_lt in H.
Qed.

Lemma opp_nonpos (a : Qc) : 0 < a → - a <= 0.
Proof.
  intros Ha. apply Qclt_le_weak in Ha. apply Qcopp_le_compat in Ha.
  by change (- 0) with 0 in Ha.
Qed.

(** The sample rounding is a rounding. *)
Lemma binary64_rounds : rounds binary64.
Proof.
  split.
  - intros x y Hxy.
    destruct (Qclt_le_dec x 0) as [Hx|Hx]; destruct (Qclt_le_dec y 0) as [Hy|Hy].
    + rewrite !binary64_negative by done. apply Qcopp_le_compat.
      apply round_pos_mono; [by apply opp_pos|]. by apply Qcopp_le_compat.
    + rewrite binary64_negative by done.
      apply (Qcle_trans _ 0).
      * apply opp_nonpos, round_pos_positive. by apply opp_pos.
      * destruct (Qcle_lt_or_eq _ _ Hy) as [Hy'|<-]; [|by apply Qcle_refl].
        rewrite binary64_positive by done. by apply Qclt_le_weak, round_pos_positive.
    + exfalso. apply (Qclt_irrefl 0). eapply Qcle_lt_trans; [exact Hx|].
      by eapply Qcle_lt_trans.
    + destruct (Qcle_lt_or_eq _ _ Hx) as [Hx'|<-].
      * rewrite !binary64_positive; [by apply round_pos_mono|by eapply Qclt_le_trans|done].
      * destruct (Qcle_lt_or_eq _ _ Hy) as [Hy'|<-]; [|by apply Qcle_refl].
        rewrite (binary64_positive y) by done. by apply Qclt_le_weak, round_pos_positive.
  - intros z Hz. destruct (Z.lt_trichotomy z 0) as [Hn|[->|Hp]].
    + rewrite binary64_negative by (rewrite <- Z2Qc_inj_0; by apply (proj1 (Z2Qc_inj_lt _ _))).
      rewrite <- Z2Qc_inj_opp, round_pos_whole by lia.
      by rewrite Z2Qc_inj_opp, Qcopp_involutive.
    + by apply Qc_is_canon.
    + rewrite binary64_positive by (rewrite <- Z2Qc_inj_0; by apply (proj1 (Z2Qc_inj_lt _ _))).
      apply round_pos_whole. lia.
Qed.

End Doubles.

(** ** The statistics *)

Lemma count_cons {A} (x : A) (l : list A) : count (x :: l) = count l + 1.
Proof.
  unfold count. simpl length. rewrite Nat2Z.inj_succ, <- Z.add_1_r.
  by rewrite Z2Qc_inj_add, Z2Qc_inj_1.
Qed.

Lemma count_nonneg {A} (l : list A) : 0 <= count l.
Proof.
  unfold count. rewrite <- Z2Qc_inj_0. apply (proj1 (Z2Qc_inj_le _ _)). lia.
Qed.

Lemma count_zero {A} (l : list A) : count l = 0 ↔ l = [].
Proof.
  unfold count. rewrite <- Z2Qc_inj_0, Z2Qc_inj_iff.
  destruct l; simpl; split; (done || lia).
Qed.

Lemma count_pos {A} (l : list A) : l ≠ [] → 0 < count l.
Proof.
  intros Hl. destruct (Qcle_lt_or_eq _ _ (count_nonneg l)) as [?|Heq]; [done|].
  symmetry in Heq. by apply count_zero in Heq.
Qed.

Lemma Qc_div_between (s n lo hi : Qc) :
  0 < n → lo * n <= s → s <= hi * n → lo <= s / n ∧ s / n <= hi.
Proof.
  intros Hn Hlo Hhi.
  assert (n ≠ 0) as Hn0. { intros ->. by apply Qclt_irrefl in Hn. }
  assert (0 <= / n) as Hinv by (by apply Qclt_le_weak, Qcinv_pos).
  split.
  - replace lo with (lo * n * / n) by (field; done).
    by apply Qcmult_le_compat_r.
  - replace hi with (hi * n * / n) by (field; done).
    by apply Qcmult_le_compat_r.
Qed.

(** A rounded value lies between two whole numbers that the exact value
    lies between. *)
Lemma fl_between (fl : Qc → Qc) (x : Qc) (lo hi : Z) :
  rounds fl → (Z.abs lo < 2 ^ 53)%Z → (Z.abs hi < 2 ^ 53)%Z →
  Qc_of_Z lo <= x → x <= Qc_of_Z hi →
  Qc_of_Z lo <= fl x ∧ fl x <= Qc_of_Z hi.
Proof.
  intros Hfl Hlo Hhi H1 H2. split.
  - rewrite <- (fl_whole fl Hfl lo Hlo). by apply (fl_monotone fl Hfl).
  - rewrite <- (fl_whole fl Hfl hi Hhi). by apply (fl_monotone fl Hfl).
Qed.

Lemma abs_bound (n m a M B : Z) :
  (0 ≤ n ≤ m)%Z → (Z.abs a ≤ M)%Z → (m * M < B)%Z → (Z.abs (n * a) < B)%Z.
Proof. intros Hn Ha Hm. rewrite Z.abs_mul, (Z.abs_eq n) by lia. nia. Qed.

(** The running sum of [n] numbers between two whole numbers [lo] and [hi]
    lies between [n * lo] and [n * hi], also after each addition was
    rounded. *)
Lemma rounded_sum_between {A} (fl : Qc → Qc) (f : A → Qc) (lo hi : Z) (l : list A)
    (k : Z) (s : Qc) :
  rounds fl → (0 ≤ k)%Z →
  ((k + Z.of_nat (length l)) * Z.max (Z.abs lo) (Z.abs hi) < 2 ^ 53)%Z →
  (∀ p, p ∈ l → Qc_of_Z lo <= f p ∧ f p <= Qc_of_Z hi) →
  Qc_of_Z (k * lo) <= s → s <= Qc_of_Z (k * hi) →
  Qc_of_Z ((k + Z.of_nat (length l)) * lo) <= foldl (λ sum p, fl (sum + f p)) s l ∧
  foldl (λ sum p, fl (sum + f p)) s l <= Qc_of_Z ((k + Z.of_nat (length l)) * hi).
Proof.
  intros Hfl. revert k s. induction l as [|x l IH]; intros k s Hk Hsize Hl H1 H2.
  - simpl. by rewrite Z.add_0_r.
  - destruct (Hl x) as [Hx1 Hx2]; [by left|].
    simpl length in *. rewrite Nat2Z.inj_succ in *.
    replace (k + Z.succ (Z.of_nat (length l)))%Z
      with ((k + 1) + Z.of_nat (length l))%Z in * by lia.
    destruct (fl_between fl (s + f x) ((k + 1) * lo) ((k + 1) * hi) Hfl) as [B1 B2].
    + eapply (abs_bound _ (k + 1 + Z.of_nat (length l))); [lia| |exact Hsize]. lia.
    + eapply (abs_bound _ (k + 1 + Z.of_nat (length l))); [lia| |exact Hsize]. lia.
    + replace ((k + 1) * lo)%Z with (k * lo + lo)%Z by lia.
      rewrite Z2Qc_inj_add. by apply Qcplus_le_compat.
    + replace ((k + 1) * hi)%Z with (k * hi + hi)%Z by lia.
      rewrite Z2Qc_inj_add. by apply Qcplus_le_compat.
    + cbn [foldl]. apply IH; [lia|done| |done|done].
      intros p Hp. apply Hl. by right.
Qed.

(** The average rating.  There is none exactly when no place has a number
    for its rating.  When the ratings that are numbers lie between two
    whole numbers (0 and 5, say), so does the average, although every sum
    and the quotient are rounded; the number of places times the greater
    bound has to stay below 2^53. *)
Theorem avgRating_between (fl : Qc → Qc) (ps : list place) (lo hi : Z) :
  rounds fl →
  (Z.of_nat (length ps) * Z.max (Z.abs lo) (Z.abs hi) < 2 ^ 53)%Z →
  (∀ p x, p ∈ ps → field p "rating" = VNum x → Qc_of_Z lo <= x ∧ x <= Qc_of_Z hi) →
  (avgRating fl ps = None ↔ ∀ p, p ∈ ps → typeof (field p "rating") ≠ "number") ∧
  (∀ a, avgRating fl ps = Some a → Qc_of_Z lo <= a ∧ a <= Qc_of_Z hi).
Proof.
  intros Hfl Hsize Hb. unfold avgRating. cbv zeta.
  assert (Hr : ∀ p, p ∈ rated ps ↔ p ∈ ps ∧ ∃ x, field p "rating" = VNum x).
  { intros p. unfold rated. rewrite list_elem_of_filter. split.
    - intros [Hn Hp]. split; [done|].
      destruct (field p "rating") as [| |b|x|s|l|o]; try done. eauto.
    - intros [Hp [x Hx]]. split; [|done]. by rewrite Hx. }
  split.
  - destruct (bool_decide (count (rated ps) = 0)) eqn:Hc.
    + apply bool_decide_eq_true, count_zero in Hc. split; [|done].
      intros _ p Hp Ht.
      assert (p ∈ rated ps) as Hin; [|rewrite Hc in Hin; by apply elem_of_nil in Hin].
      apply Hr. split; [done|].
      destruct (field p "rating") as [| |b|x|s|l|o]; try done. eauto.
    + apply bool_decide_eq_false in Hc. split; [done|]. intros Hn. exfalso.
      apply Hc, count_zero. apply elem_of_nil_inv.
      intros p [Hp [x Hx]]%Hr. apply (Hn p Hp). by rewrite Hx.
  - intros a. destruct (bool_decide (count (rated ps) = 0)) eqn:Hc; [done|].
    apply bool_decide_eq_false in Hc. intros [= <-].
    assert (rated ps ≠ []) as Hne. { intros He. apply Hc. by apply count_zero. }
    assert (Hlen : (0 < Z.of_nat (length (rated ps)) ≤ Z.of_nat (length ps))%Z).
    { split; [destruct (rated ps); [done|simpl; lia]|].
      apply Nat2Z.inj_le, length_filter. }
    assert (Hmax : (0 ≤ Z.max (Z.abs lo) (Z.abs hi))%Z) by lia.
    destruct (rounded_sum_between fl rating_number lo hi (rated ps) 0 0 Hfl)
      as [S1 S2]; [lia|nia| |done|done|].
    { intros p [Hp [x Hx]]%Hr. unfold rating_number. rewrite Hx. by apply (Hb p). }
    rewrite Z.add_0_l in S1, S2.
    destruct (Qc_div_between
                (foldl (λ sum p, fl (sum + rating_number p)) 0 (rated ps))
                (count (rated ps)) (Qc_of_Z lo) (Qc_of_Z hi)) as [D1 D2].
    { by apply count_pos. }
    { unfold count. by rewrite <- Z2Qc_inj_mul, Z.mul_comm. }
    { unfold count. by rewrite <- Z2Qc_inj_mul, Z.mul_comm. }
    apply fl_between; [done|nia|nia|done|done].
Qed.

Lemma avgRating_between_witness :
  rounds Float.binary64 ∧
  ∀ a, avgRating Float.binary64 Ex.effective = Some a → Qc_of_Z 0 <= a ∧ a <= Qc_of_Z 5.
Proof.
  split; [exact binary64_rounds|].
  refine (proj2 (avgRating_between Float.binary64 Ex.effective 0 5 binary64_rounds _ _)).
  - vm_compute. reflexivity.
  - intros p x Hp Hx. unfold Ex.effective, places in Hp. simpl in Hp.
    rewrite !elem_of_cons in Hp. destruct Hp as [->|[->|Hp]].
    + vm_compute in Hx. injection Hx as <-. split; vm_compute; discriminate.
    + vm_compute in Hx. injection Hx as <-. split; vm_compute; discriminate.
    + by apply elem_of_nil in Hp.
Defined.

Lemma Math_round_between (x : Qc) (lo hi : Z) :
  Qc_of_Z lo <= x → x <= Qc_of_Z hi →
  Qc_of_Z lo <= Math_round x ∧ Math_round x <= Qc_of_Z hi.
Proof.
  intros Hlo Hhi. unfold Math_round.
  change (inject_Z lo <= this x)%Q in Hlo. change (this x <= inject_Z hi)%Q in Hhi.
  assert (H1 : (inject_Z lo <= x + Q2Qc (1 # 2))%Q).
  { apply (Qle_trans _ (x + 0)); [by rewrite Qplus_0_r|].
    apply Qplus_le_compat; [apply Qle_refl|discriminate]. }
  assert (H2 : (x + Q2Qc (1 # 2) < inject_Z (hi + 1))%Q).
  { rewrite inject_Z_plus, (Qplus_comm x), (Qplus_comm (inject_Z hi)).
    apply Qplus_lt_le_compat; [reflexivity|done]. }
  split; apply (proj1 (Z2Qc_inj_le _ _)).
  - rewrite <- (Qfloor_Z lo). by apply Qfloor_resp_le.
  - assert (Qfloor (x + Q2Qc (1 # 2)) < hi + 1)%Z; [|lia].
    rewrite Zlt_Qlt. eapply Qle_lt_trans; [|exact H2]. apply Qfloor_le.
Qed.

(** The share of places to return to is a whole number from 0 to 100, also
    for an empty dataset, with the quotient and the product rounded as the
    arithmetic on doubles rounds them. *)
Theorem wouldReturnPct_range (fl : Qc → Qc) (ps : list place) :
  rounds fl →
  ∃ z : Z, wouldReturnPct fl ps = Qc_of_Z z ∧ (0 ≤ z ≤ 100)%Z.
Proof.
  intros Hfl. unfold wouldReturnPct. cbv zeta.
  destruct (bool_decide (count ps = 0)) eqn:Hc.
  { exists 0%Z. split; [by rewrite Z2Qc_inj_0|lia]. }
  apply bool_decide_eq_false in Hc.
  assert (0 < count ps) as Hpos.
  { apply count_pos. intros ->. by apply Hc, count_zero. }
  assert (Qc_of_Z 100 = Q2Qc 100) as H100 by (by apply Qc_is_canon).
  assert (Qc_of_Z 0 <= wouldReturnCount ps / count ps ∧
          wouldReturnCount ps / count ps <= Qc_of_Z 1) as [Q0 Q1].
  { rewrite Z2Qc_inj_0, Z2Qc_inj_1. apply Qc_div_between; [done|..].
    - replace (0 * count ps) with 0 by ring. apply count_nonneg.
    - replace (1 * count ps) with (count ps) by ring.
      unfold wouldReturnCount, count. apply (proj1 (Z2Qc_inj_le _ _)).
      apply Nat2Z.inj_le, length_filter. }
  destruct (fl_between fl (wouldReturnCount ps / count ps) 0 1 Hfl) as [F0 F1];
    [reflexivity|reflexivity|exact Q0|exact Q1|].
  set (r := fl (wouldReturnCount ps / count ps)) in *.
  assert (Qc_of_Z 0 <= r * Q2Qc 100 ∧ r * Q2Qc 100 <= Qc_of_Z 100) as [P0 P1].
  { rewrite Z2Qc_inj_0, H100. rewrite Z2Qc_inj_0 in F0. rewrite Z2Qc_inj_1 in F1. split.
    - apply Qcmult_nonneg_nonneg; [done|discriminate].
    - replace (Q2Qc 100) with (1 * Q2Qc 100) at 2 by ring.
      apply Qcmult_le_compat_r; [done|discriminate]. }
  destruct (fl_between fl (r * Q2Qc 100) 0 100 Hfl) as [G0 G1];
    [reflexivity|reflexivity|exact P0|exact P1|].
  destruct (Math_round_between _ 0 100 G0 G1) as [H1 H2].
  unfold Math_round in *. eexists. split; [reflexivity|].
  split; by apply Z2Qc_inj_le.
Qed.

Lemma wouldReturnPct_range_witness :
  rounds Float.binary64 ∧
  ∃ z : Z, wouldReturnPct Float.binary64 Ex.survey = Qc_of_Z z ∧ (0 ≤ z ≤ 100)%Z.
Proof.
  split; [exact binary64_rounds|].
  exact (wouldReturnPct_range Float.binary64 Ex.survey binary64_rounds).
Defined.

(** On doubles, 23 places of 40 are 57 percent (the quotient times 100 is
    57.49999999999999), and three ratings of 0.1 average to
    0.10000000000000002. *)
Example rounded_statistics :
  wouldReturnPct Float.binary64 Ex.survey = Qc_of_Z 57 ∧
  avgRating Float.binary64 (replicate 3 Ex.tenth) =
    Some (Q2Qc (7205759403792795 # 72057594037927936)).
Proof.
  split.
  - refine (Qc_is_canon _ _ _). vm_compute. reflexivity.
  - unfold avgRating. cbv zeta. rewrite bool_decide_eq_false_2.
    + f_equal; try (refine (Qc_is_canon _ _ _); vm_compute; reflexivity).
    + intros H. apply count_zero in H. discriminate H.
Qed.

(** ** The facets *)

Lemma some_o_elem_of (set : list value) (v : value) :
  Forall (λ s, is_primitive s) set → is_primitive v →
  ∃ b, some_o (λ s, strict_equal s v) set = Some b ∧ (b = true ↔ v ∈ set).
Proof.
  intros Hset Hv.
  destruct (some_o_primitive (λ s, s) v set Hv Hset) as (b & Hb & Hiff).
  exists b. split; [done|]. rewrite Hiff. split.
  - by intros (s & Hs & ->).
  - intros Hin. by exists v.
Qed.

Lemma new_Set_spec (set arr : list value) :
  Forall (λ s, is_primitive s) set → Forall (λ s, is_primitive s) arr → NoDup set →
  ∃ r, new_Set set arr = Some r ∧ NoDup r ∧ ∀ v, v ∈ r ↔ v ∈ set ∨ v ∈ arr.
Proof.
  intros Hset Harr. revert set Hset.
  induction Harr as [|x arr Hx Harr IH]; intros set Hset Hnd; simpl.
  - exists set. split; [done|]. split; [done|]. intros v. rewrite elem_of_nil. tauto.
  - destruct (some_o_elem_of set x Hset Hx) as (b & -> & Hb). destruct b.
    + destruct (IH set Hset Hnd) as (r & Hr & Hnd' & Hiff).
      exists r. split; [done|]. split; [done|].
      intros v. rewrite Hiff, elem_of_cons. split; [tauto|].
      intros [?|[->|?]]; auto. left. by apply Hb.
    + destruct (IH (set ++ [x])%list) as (r & Hr & Hnd' & Hiff).
      * apply Forall_app. split; [done|]. by constructor.
      * apply NoDup_app. split; [done|]. split; [|apply NoDup_singleton].
        intros y Hy ->%list_elem_of_singleton.
        assert (false = true); [by apply Hb|done].
      * exists r. split; [done|]. split; [done|].
        intros v. rewrite Hiff, elem_of_app, list_elem_of_singleton, elem_of_cons. tauto.
Qed.

Lemma uniq_spec (arr : list value) :
  Forall (λ s, is_primitive s) arr →
  ∃ r, uniq arr = Some r ∧ NoDup r ∧ ∀ v, v ∈ r ↔ v ∈ arr ∧ ToBoolean v.
Proof.
  intros Harr. unfold uniq.
  destruct (new_Set_spec [] (filter (λ v, ToBoolean v) arr)) as (r & Hr & Hnd & Hiff).
  - constructor.
  - apply Forall_forall. intros v [_ Hv]%list_elem_of_filter.
    rewrite Forall_forall in Harr. by apply Harr.
  - constructor.
  - exists r. split; [done|]. split; [done|].
    intros v. rewrite Hiff, elem_of_nil, list_elem_of_filter. tauto.
Qed.

Lemma default_compare_consistent (E : Engine) (l : list value) :
  Forall (λ v, ToBoolean v) l → consistent_on (default_compare E) l.
Proof.
  intros Hl. rewrite Forall_forall in Hl.
  apply (consistent_ext _
           (λ a b, Fin (Sample.localeCompare (code_unit_key (ToString E a))
                                             (code_unit_key (ToString E b))))).
  - intros a b Ha%Hl Hb%Hl.
    unfold default_compare, code_unit_compare, Sample.localeCompare.
    destruct a, b; try done; by destruct (String.compare _ _).
  - apply (consistent_comap (λ a, code_unit_key (ToString E a))
                            (λ s t, Fin (Sample.localeCompare s t))).
    apply sample_localeCompare_consistent.
Qed.

Lemma default_compare_le (E : Engine) (a b : value) :
  ToBoolean a → ToBoolean b →
  SortCompare (default_compare E) a b <= 0 →
  code_unit_compare (ToString E a) (ToString E b) ≠ Gt.
Proof.
  intros Ha Hb. unfold SortCompare, default_compare.
  destruct a, b; try done; by destruct (code_unit_compare _ _).
Qed.

Lemma uniq_sorted_spec (E : Engine) (arr : list value) :
  conforming E → Forall (λ s, is_primitive s) arr →
  ∃ r, uniq_sorted E arr = Some r ∧ NoDup r ∧
       StronglySorted (λ a b, code_unit_compare (ToString E a) (ToString E b) ≠ Gt) r ∧
       ∀ v, v ∈ r ↔ v ∈ arr ∧ ToBoolean v.
Proof.
  intros HE Harr. unfold uniq_sorted.
  destruct (uniq_spec arr Harr) as (r & -> & Hnd & Hiff). simpl.
  assert (Htruthy : Forall (λ v, ToBoolean v) r).
  { apply Forall_forall. intros v Hv. by apply Hiff. }
  eexists. split; [done|]. split; [|split].
  - by rewrite (sort_permutation E HE).
  - pose proof (sort_ordered E HE _ _ r (default_compare_consistent E r Htruthy)) as Hs.
    assert (Htruthy' : Forall (λ v, ToBoolean v) (Array_sort E (default_compare E) r)).
    { by rewrite (sort_permutation E HE). }
    revert Hs Htruthy'. generalize (Array_sort E (default_compare E) r). clear.
    induction 1 as [|a l Hs IH Hall]; intros Ht; [constructor|].
    apply Forall_cons in Ht as [Ha Ht]. constructor; [by apply IH|].
    rewrite Forall_forall in Hall, Ht |- *. intros b Hb.
    apply default_compare_le; auto.
  - intros v. by rewrite (sort_permutation E HE).
Qed.

Lemma elem_of_concat {A} (x : A) (ls : list (list A)) :
  x ∈ concat ls ↔ ∃ l, x ∈ l ∧ l ∈ ls.
Proof.
  induction ls as [|l0 ls IH]; simpl.
  - rewrite elem_of_nil. split; [done|]. by intros (l & _ & ?%elem_of_nil).
  - rewrite elem_of_app, IH. split.
    + intros [Hx|(l & Hx & Hl)]; [exists l0|exists l]; (split; [done|]);
        [by left|by right].
    + intros (l & Hx & [->|Hl]%elem_of_cons); [by left|right; eauto].
Qed.

Lemma elem_of_flatMap {A} (f : A → value) (l : list A) (v : value) :
  v ∈ flatMap f l ↔
  ∃ x, x ∈ l ∧ v ∈ match f x with VArr l' => l' | w => [w] end.
Proof.
  unfold flatMap. rewrite elem_of_concat. split.
  - intros (l' & Hv & Hl'). apply list_elem_of_fmap in Hl' as (x & -> & Hx). eauto.
  - intros (x & Hx & Hv). eexists. split; [exact Hv|].
    apply list_elem_of_fmap. eauto.
Qed.

Section Facets.
Context (E : Engine) (HE : conforming E).

Lemma field_labels (p : place) (k : string) (v : value) :
  is_labels (field p k) →
  v ∈ match or_else (field p k) (VArr []) with VArr l' => l' | w => [w] end ↔
  ∃ c, v = VStr c ∧ c ∈ Spec.labels p k.
Proof.
  intros Hl. unfold Spec.labels, or_else.
  destruct (field p k) as [| |b|x|s|l|o]; simpl in *; try done.
  - rewrite elem_of_nil. split; [done|]. by intros (c & _ & ?%elem_of_nil).
  - rewrite elem_of_nil. split; [done|]. by intros (c & _ & ?%elem_of_nil).
  - induction l as [|e l IH]; simpl.
    + rewrite elem_of_nil. split; [done|]. by intros (c & _ & ?%elem_of_nil).
    + apply andb_prop_elim in Hl as [He Hl]. specialize (IH Hl).
      destruct e as [| |b|x|s|l'|o]; try done.
      rewrite elem_of_cons, IH. split.
      * intros [->|(c & -> & Hc)]; [exists s|exists c]; (split; [done|]).
        -- by left.
        -- by right.
      * intros (c & -> & [->|Hc]%elem_of_cons); [by left|right; eauto].
Qed.

Lemma labels_primitive (ps : list place) (k : string) :
  Forall (λ p, is_labels (field p k)) ps →
  Forall (λ s, is_primitive s) (flatMap (λ p, or_else (field p k) (VArr [])) ps).
Proof.
  intros Hl. apply Forall_forall. intros v [p [Hp Hv]]%elem_of_flatMap.
  rewrite Forall_forall in Hl.
  apply field_labels in Hv as (c & -> & _); [done|by apply Hl].
Qed.

Lemma texts_primitive (ps : list place) (k : string) :
  Forall (λ p, is_text (field p k)) ps →
  Forall (λ s, is_primitive s) (map (λ p, field p k) ps).
Proof.
  intros Hl. apply Forall_forall. intros v (p & -> & Hp)%list_elem_of_fmap.
  rewrite Forall_forall in Hl. specialize (Hl p Hp).
  by destruct (field p k).
Qed.

(** The options of a dropdown. *)
Lemma facet_options_spec (f : facet) (ps : list place) :
  Forall well_formed ps →
  ∃ opts, facet_options E f ps = Some opts ∧ NoDup opts ∧
    StronglySorted (λ a b, code_unit_compare (ToString E a) (ToString E b) ≠ Gt) opts ∧
    ∀ v, v ∈ opts ↔ ∃ c p, v = VStr c ∧ c ≠ "" ∧ p ∈ ps ∧ has_value f p c.
Proof.
  intros Hwf.
  assert (Hw : ∀ p, p ∈ ps →
            is_text (field p "city") ∧ is_text (field p "neighborhood") ∧
            is_labels (field p "cuisine") ∧ is_labels (field p "tags")).
  { intros p Hp. rewrite Forall_forall in Hwf. specialize (Hwf p Hp).
    unfold well_formed in Hwf. rewrite !andb_True in Hwf. tauto. }
  assert (Htext : ∀ k, (∀ p, p ∈ ps → is_text (field p k)) →
            ∃ opts, uniq_sorted E (map (λ p, field p k) ps) = Some opts ∧ NoDup opts ∧
              StronglySorted (λ a b, code_unit_compare (ToString E a) (ToString E b) ≠ Gt)
                opts ∧
              ∀ v, v ∈ opts ↔ ∃ c p, v = VStr c ∧ c ≠ "" ∧ p ∈ ps ∧ field p k = VStr c).
  { intros k Hk.
    destruct (uniq_sorted_spec E (map (λ p, field p k) ps) HE)
      as (r & Hr & Hnd & Hsorted & Hiff).
    { apply texts_primitive, Forall_forall, Hk. }
    exists r. split; [done|]. split; [done|]. split; [done|]. intros v. rewrite Hiff, list_elem_of_fmap.
    split.
    - intros [(p & -> & Hp) Ht]. specialize (Hk p Hp).
      destruct (field p k) as [| |b|x|s|l|o] eqn:Hf; try done.
      exists s, p. repeat split; try done. intros ->. done.
    - intros (c & p & -> & Hc & Hp & Hf). split; [by exists p|].
      simpl. by destruct c. }
  assert (Hlabels : ∀ k, (∀ p, p ∈ ps → is_labels (field p k)) →
            ∃ opts, uniq_sorted E (flatMap (λ p, or_else (field p k) (VArr [])) ps)
                    = Some opts ∧ NoDup opts ∧
              StronglySorted (λ a b, code_unit_compare (ToString E a) (ToString E b) ≠ Gt)
                opts ∧
              ∀ v, v ∈ opts ↔ ∃ c p, v = VStr c ∧ c ≠ "" ∧ p ∈ ps ∧ c ∈ Spec.labels p k).
  { intros k Hk.
    destruct (uniq_sorted_spec E (flatMap (λ p, or_else (field p k) (VArr [])) ps) HE)
      as (r & Hr & Hnd & Hsorted & Hiff).
    { apply labels_primitive, Forall_forall, Hk. }
    exists r. split; [done|]. split; [done|]. split; [done|]. intros v. rewrite Hiff, elem_of_flatMap.
    split.
    - intros [(p & Hp & Hv) Ht]. apply field_labels in Hv as (c & -> & Hc); [|by apply Hk].
      exists c, p. repeat split; try done. intros ->. done.
    - intros (c & p & -> & Hc & Hp & Hf). split.
      + exists p. split; [done|]. apply field_labels; [by apply Hk|]. eauto.
      + simpl. by destruct c. }
  destruct f; simpl.
  - apply Htext. intros p Hp. by apply Hw.
  - apply Htext. intros p Hp. by apply Hw.
  - apply Hlabels. intros p Hp. by apply Hw.
  - apply Hlabels. intros p Hp. by apply Hw.
Qed.

(** What the filter keeps after one option was chosen. *)
Lemma chosen_matches (f : facet) (c : string) (p : place) :
  c ≠ "" → Spec.matches E (chosen f c) p ↔ has_value f p c.
Proof.
  intros Hc.
  assert (Hterm : Spec.term E (chosen f c) = "").
  { unfold Spec.term. simpl. by rewrite (trim_empty E HE), (toLowerCase_empty E HE). }
  assert (Hna : ¬ Spec.active (Fin 0)).
  { intros Hz. by apply Hz. }
  assert (Htext : ∀ k, Spec.text p k = c ↔ field p k = VStr c).
  { intros k. unfold Spec.text. destruct (field p k); split; congruence. }
  unfold Spec.matches, Spec.city_ok, Spec.neighborhood_ok, Spec.cuisine_ok, Spec.tag_ok,
    Spec.price_ok, Spec.wouldReturn_ok, Spec.minRating_ok, Spec.text_ok.
  rewrite Hterm. destruct f; simpl; rewrite ?Htext; split.
  all: try (intros ([?|?] & _); done).
  all: try (intros (_ & [?|?] & _); done).
  all: try (intros (_ & _ & [?|?] & _); done).
  all: try (intros (_ & _ & _ & [?|?] & _); done).
  all: intros Hv; repeat split; auto; done.
Qed.

Lemma chosen_filtered (f : facet) (c : string) (ps : list place) :
  c ≠ "" → Forall well_formed ps →
  ∃ out, filtered E (chosen f c) ps = Normal out ∧
         ∀ p, p ∈ out ↔ p ∈ ps ∧ has_value f p c.
Proof.
  intros Hc Hwf.
  destruct (filtered_total E (chosen f c) ps Hwf) as [out Hout]. exists out.
  split; [done|]. intros p. unfold filtered in Hout.
  rewrite (filter_c_elem_of _ _ _ _ Hout). rewrite Forall_forall in Hwf.
  split; intros [Hp Hk]; (split; [done|]).
  - destruct (keep_spec E (chosen f c) p (Hwf p Hp) nonnegative_zero nonnegative_zero)
      as (b & Hb & Hiff).
    unfold Spec.term in Hb. rewrite Hb in Hk. injection Hk as ->.
    apply chosen_matches; [done|]. by apply Hiff.
  - destruct (keep_spec E (chosen f c) p (Hwf p Hp) nonnegative_zero nonnegative_zero)
      as (b & Hb & Hiff).
    unfold Spec.term in Hb. rewrite Hb. f_equal. apply Hiff.
    by apply chosen_matches.
Qed.

End Facets.

(** The options of the dropdowns.  For a dataset of the data model, the
    options of each of the four dropdowns are the city names (the
    neighborhoods, the cuisines, the tags) of the places that are not
    empty, each one once, in ascending order of their UTF-16 code units; and
    choosing an option with every other filter cleared leaves the places
    that have it, at least one. *)
Theorem facet_options_selectable (E : Engine) (f : facet) (ps : list place) :
  conforming E → Forall well_formed ps →
  ∃ opts, facet_options E f ps = Some opts ∧ NoDup opts ∧
    StronglySorted (λ a b, code_unit_compare (ToString E a) (ToString E b) ≠ Gt) opts ∧
    (∀ v, v ∈ opts ↔ ∃ c p, v = VStr c ∧ c ≠ "" ∧ p ∈ ps ∧ has_value f p c) ∧
    (∀ c, VStr c ∈ opts →
       ∃ out, filtered E (chosen f c) ps = Normal out ∧ out ≠ [] ∧
              ∀ p, p ∈ out ↔ p ∈ ps ∧ has_value f p c).
Proof.
  intros HE Hwf.
  destruct (facet_options_spec E HE f ps Hwf) as (opts & Hopts & Hnd & Hsorted & Hiff).
  exists opts. repeat split; try done; try apply Hiff.
  intros c (c' & p & [= <-] & Hc & Hp & Hv)%Hiff.
  destruct (chosen_filtered E HE f c ps Hc Hwf) as (out & Hout & Hmem).
  exists out. split; [done|]. split; [|done].
  intros ->. assert (p ∈ []) as Hin by (by apply Hmem). by apply elem_of_nil in Hin.
Qed.

Lemma facet_options_selectable_witness :
  conforming engine_le ∧ Forall well_formed Ex.effective ∧
  ∃ opts, facet_options engine_le FCity Ex.effective = Some opts ∧
    ∀ c, VStr c ∈ opts →
      ∃ out, filtered engine_le (chosen FCity c) Ex.effective = Normal out ∧ out ≠ [].
Proof.
  split; [exact engine_le_conforming|]. split; [exact effective_well_formed|].
  destruct (facet_options_selectable engine_le FCity Ex.effective
              engine_le_conforming effective_well_formed)
    as (opts & Hopts & _ & _ & _ & Hsel).
  exists opts. split; [exact Hopts|].
  intros c Hc. destruct (Hsel c Hc) as (out & Hout & Hne & _).
  exists out. split; [exact Hout|exact Hne].
Defined.

(** ** The most frequent cuisines *)

Section Counting.

Lemma count_one_entries (counts : list (string * Qc)) (s : string) :
  count_one (entries counts) (VStr s) = Some (entries (bump counts s)).
Proof.
  induction counts as [|[k n] counts IH]; [done|].
  simpl. destruct (String.eqb k s); [done|]. by rewrite IH.
Qed.

Lemma count_all_entries (counts : list (string * Qc)) (ls : list string) :
  count_all (entries counts) (VStr <$> ls) = Some (entries (foldl bump counts ls)).
Proof.
  revert counts. induction ls as [|s ls IH]; intros counts; [done|].
  simpl. rewrite count_one_entries. apply IH.
Qed.

Lemma amount_bump (counts : list (string * Qc)) (s t : string) :
  amount (bump counts s) t = amount counts t + (if String.eqb s t then 1 else 0).
Proof.
  induction counts as [|[k n] counts IH]; simpl.
  - destruct (String.eqb s t); ring.
  - destruct (String.eqb_spec k s) as [->|Hks]; simpl.
    + destruct (String.eqb s t); ring.
    + destruct (String.eqb_spec k t) as [->|Hkt]; [|done].
      destruct (String.eqb_spec s t) as [->|_]; [done|]. ring.
Qed.

Lemma keys_bump (counts : list (string * Qc)) (s : string) :
  (bump counts s).*1 = if bool_decide (s ∈ counts.*1) then counts.*1
                       else (counts.*1 ++ [s])%list.
Proof.
  induction counts as [|[k n] counts IH]; [done|].
  cbn [bump]. destruct (String.eqb_spec k s) as [->|Hks]; rewrite !fmap_cons; cbn [fst].
  - rewrite bool_decide_eq_true_2; [done|by left].
  - rewrite IH. destruct (bool_decide (s ∈ counts.*1)) eqn:Hs.
    + apply bool_decide_eq_true in Hs. rewrite bool_decide_eq_true_2; [done|by right].
    + apply bool_decide_eq_false in Hs. rewrite bool_decide_eq_false_2; [done|].
      rewrite elem_of_cons. naive_solver.
Qed.

Lemma occurrences_cons (s t : string) (ls : list string) :
  occurrences (s :: ls) t = (if String.eqb s t then 1 else 0) + occurrences ls t.
Proof.
  unfold occurrences. rewrite filter_cons.
  destruct (String.eqb_spec s t) as [->|Hst].
  - rewrite decide_True by done. rewrite count_cons. ring.
  - rewrite decide_False by done. ring.
Qed.

Lemma occurrences_pos (ls : list string) (t : string) : t ∈ ls ↔ 0 < occurrences ls t.
Proof.
  unfold occurrences. split.
  - intros Ht. apply count_pos. intros Hnil.
    assert (t ∈ filter (λ l, l = t) ls) as Hin by (by apply list_elem_of_filter).
    rewrite Hnil in Hin. by apply elem_of_nil in Hin.
  - intros Hpos. destruct (filter (λ l, l = t) ls) as [|x r] eqn:Hf.
    + assert (count (@nil string) = 0) as Hz by (by apply count_zero).
      rewrite Hz in Hpos. by apply Qclt_irrefl in Hpos.
    + assert (x ∈ filter (λ l, l = t) ls) as [-> Hin]%list_elem_of_filter; [|done].
      rewrite Hf. by left.
Qed.

(** After the labels [ls] were counted, from the counts of [seen]. *)
Lemma foldl_bump (counts : list (string * Qc)) (ls : list string) :
  NoDup counts.*1 →
  NoDup (foldl bump counts ls).*1 ∧
  (∀ t, t ∈ (foldl bump counts ls).*1 ↔ t ∈ counts.*1 ∨ t ∈ ls) ∧
  (∀ t, amount (foldl bump counts ls) t = amount counts t + occurrences ls t).
Proof.
  revert counts. induction ls as [|s ls IH]; intros counts Hnd.
  - simpl. split; [done|]. split.
    + intros t. rewrite elem_of_nil. tauto.
    + intros t. unfold occurrences. rewrite filter_nil.
      assert (count (@nil string) = 0) as -> by (by apply count_zero). ring.
  - simpl. destruct (IH (bump counts s)) as (Hnd' & Hkeys & Hamount).
    { rewrite keys_bump. case_bool_decide; [done|].
      apply NoDup_app. split; [done|]. split; [|apply NoDup_singleton].
      by intros t Ht ->%list_elem_of_singleton. }
    split; [done|]. split.
    + intros t. rewrite Hkeys, keys_bump, elem_of_cons.
      case_bool_decide as Hs.
      * split; [tauto|]. intros [?|[->|?]]; auto.
      * rewrite elem_of_app, list_elem_of_singleton. tauto.
    + intros t. rewrite Hamount, amount_bump, occurrences_cons. ring.
Qed.

Lemma amount_entry (counts : list (string * Qc)) (k : string) (n : Qc) :
  NoDup counts.*1 → (k, n) ∈ counts ↔ k ∈ counts.*1 ∧ amount counts k = n.
Proof.
  induction counts as [|[k' n'] counts IH]; simpl.
  - intros _. rewrite !elem_of_nil. tauto.
  - rewrite NoDup_cons. intros [Hk' Hnd]. rewrite !elem_of_cons, (IH Hnd).
    destruct (String.eqb_spec k' k) as [->|Hne]; split.
    + intros [[= <-]|[Hk _]]; [by split; [left|]|done].
    + intros [_ ->]. by left.
    + intros [[= -> _]|[Hk Ha]]; [done|]. split; [by right|done].
    + intros [[->|Hk] Ha]; [done|]. by right.
Qed.

End Counting.

Lemma labels_strings (l : list value) :
  forallb (λ e, match e with VStr _ => true | _ => false end) l →
  l = VStr <$> omap (λ e, match e with VStr s => Some s | _ => None end) l.
Proof.
  induction l as [|e l IH]; [done|]. simpl.
  intros [He Hl]%andb_prop_elim. destruct e; try done.
  simpl. f_equal. by apply IH.
Qed.

Lemma iterated_labels (ps : list place) :
  Forall (λ p, is_labels (field p "cuisine")) ps →
  iterated ps = Normal (VStr <$> cuisine_labels ps).
Proof.
  induction 1 as [|p ps Hp _ IH]; [done|].
  unfold cuisine_labels in *. simpl. rewrite IH. rewrite fmap_app.
  unfold Spec.labels, or_else.
  destruct (field p "cuisine") as [| |b|x|s|l|o]; simpl in *; try done.
  by rewrite <- labels_strings.
Qed.

Lemma entries_keys (counts : list (string * Qc)) :
  (entries counts).*1 = VStr <$> counts.*1.
Proof. induction counts as [|[k n] counts IH]; [done|]. simpl. by f_equal. Qed.

(** The most frequent cuisines.  For a dataset of the data model the
    statistics show the first six entries of a ranking of the cuisine
    labels that has every label of the dataset once, with the number of
    its occurrences, in descending order of that number. *)
Theorem topCuisines_ranked (E : Engine) (ps : list place) :
  conforming E → Forall well_formed ps →
  ∃ ranked, topCuisines E ps = Normal (Some (take 6 ranked)) ∧
    NoDup ranked.*1 ∧
    (∀ c n, (c, n) ∈ ranked ↔
       ∃ s, c = VStr s ∧ s ∈ cuisine_labels ps ∧ n = occurrences (cuisine_labels ps) s) ∧
    StronglySorted (λ a b, b.2 <= a.2) ranked.
Proof.
  intros HE Hwf.
  assert (Hl : Forall (λ p, is_labels (field p "cuisine")) ps).
  { eapply Forall_impl; [exact Hwf|]. intros p Hp.
    unfold well_formed in Hp. rewrite !andb_True in Hp. tauto. }
  unfold topCuisines. rewrite (iterated_labels ps Hl). cbn [bind].
  change (@nil (value * Qc)) with (entries []). rewrite count_all_entries. simpl.
  set (counts := foldl bump [] (cuisine_labels ps)).
  destruct (foldl_bump [] (cuisine_labels ps)) as (Hnd & Hkeys & Hamount); [constructor|].
  fold counts in Hnd, Hkeys, Hamount.
  set (cmp := λ a b : value * Qc, Fin (b.2 - a.2)).
  pose proof (sort_permutation E HE _ cmp (entries counts)) as Hperm.
  exists (Array_sort E cmp (entries counts)). split; [done|]. split; [|split].
  - rewrite Hperm, entries_keys. apply NoDup_fmap_2; [|done]. by intros s t [= ->].
  - intros c n. rewrite Hperm. unfold entries. rewrite list_elem_of_fmap. split.
    + intros ([s m] & [= -> ->] & Hin). simpl.
      apply amount_entry in Hin as [Hs Ha]; [|done].
      exists s. split; [done|]. apply Hkeys in Hs as [?%elem_of_nil|Hs]; [done|].
      split; [done|]. rewrite <- Ha, Hamount. simpl. ring.
    + intros (s & -> & Hs & ->). exists (s, occurrences (cuisine_labels ps) s).
      split; [done|]. apply amount_entry; [done|]. split.
      * apply Hkeys. by right.
      * rewrite Hamount. simpl. ring.
  - pose proof (sort_ordered E HE _ cmp (entries counts)) as Hsorted.
    eapply StronglySorted_weaken; [|apply Hsorted].
    + intros a b. unfold SortCompare, cmp. by rewrite Qc_sub_le0.
    + apply (consistent_flip (λ a b : value * Qc, Fin (a.2 - b.2))).
      apply (consistent_by_key (λ a : value * Qc, a.2)).
Qed.


Lemma dataset_well_formed : Forall well_formed Ex.dataset.
Proof.
  unfold Ex.dataset.
  repeat (apply Forall_cons_2; [vm_compute; exact I|]). apply Forall_nil_2.
Defined.

Lemma topCuisines_ranked_witness :
  conforming engine_le ∧ Forall well_formed Ex.dataset ∧
  ∃ ranked, topCuisines engine_le Ex.dataset = Normal (Some (take 6 ranked)) ∧
            StronglySorted (λ a b, b.2 <= a.2) ranked.
Proof.
  split; [exact engine_le_conforming|]. split; [exact dataset_well_formed|].
  destruct (topCuisines_ranked engine_le Ex.dataset engine_le_conforming
              dataset_well_formed) as (ranked & Htop & _ & _ & Hsorted).
  exists ranked. split; [exact Htop|exact Hsorted].
Defined.
(** ** The price label *)

Lemma truncate_between (x : Qc) (lo hi : Z) :
  (0 ≤ lo)%Z → Qc_of_Z lo <= x → x <= Qc_of_Z hi → (lo ≤ truncate x ≤ hi)%Z.
Proof.
  intros H0 Hlo Hhi. unfold truncate.
  change (inject_Z lo <= this x)%Q in Hlo. change (this x <= inject_Z hi)%Q in Hhi.
  unfold Qle in Hlo, Hhi. simpl in Hlo, Hhi.
  destruct (this x) as [n d]. simpl in *.
  assert (0 ≤ n)%Z by nia.
  rewrite Z.quot_div_nonneg by lia. split.
  - apply Z.div_le_lower_bound; lia.
  - apply Z.div_le_upper_bound; lia.
Qed.

Lemma truncate_whole (z : Z) : truncate (Qc_of_Z z) = z.
Proof. unfold truncate. simpl. apply Z.quot_1_r. Qed.

(** The price label.  For every price that is not falsy the label is one
    to four dollar signs, and as many as the price says when that is a whole
    number from 1 to 4; the call never raises. *)
Theorem priceLabel_range (E : Engine) (p : value) :
  ∃ k, priceLabel E p = Normal (if ToBoolean p then copies k "$" else "—") ∧
       (1 ≤ k ≤ 4)%nat ∧
       ∀ z, (1 ≤ z ≤ 4)%Z → p = VNum (Qc_of_Z z) → k = Z.to_nat z.
Proof.
  unfold priceLabel. destruct (ToBoolean p) eqn:Hp; simpl.
  2:{ exists 1%nat. split; [done|]. split; [lia|].
      intros z Hz ->. simpl in Hp. apply negb_false_iff, bool_decide_eq_true in Hp.
      rewrite <- Z2Qc_inj_0 in Hp. apply Z2Qc_inj in Hp. lia. }
  set (n := if isFinite (ToNumber E p) then ToNumber E p else Fin 1).
  assert (∃ y, n = Fin y) as [y Hy].
  { unfold n. destruct (ToNumber E p); simpl; eauto. }
  rewrite Hy. simpl.
  set (m := if bool_decide (Q2Qc 4 <= y) then Q2Qc 4 else y).
  set (M := if bool_decide (1 <= m) then m else 1).
  assert (Qc_of_Z 1 = 1) as H1 by apply Z2Qc_inj_1.
  assert (Qc_of_Z 4 = Q2Qc 4) as H4 by (by apply Qc_is_canon).
  assert (m <= Q2Qc 4) as Hm.
  { unfold m. case_bool_decide as Hc; [apply Qcle_refl|].
    by apply Qclt_le_weak, Qcnot_le_lt. }
  assert (1 <= M ∧ M <= Q2Qc 4) as [HM1 HM4].
  { unfold M. case_bool_decide as Hc; [done|]. split; [apply Qcle_refl|done]. }
  rewrite <- H1 in HM1. rewrite <- H4 in HM4.
  destruct (truncate_between M 1 4) as [Ht1 Ht4]; [lia|done..|].
  destruct (Z.ltb_spec (truncate M) 0) as [?|_]; [lia|].
  exists (Z.to_nat (truncate M)). split; [done|]. split; [lia|].
  intros z Hz ->. f_equal.
  assert (y = Qc_of_Z z) as ->.
  { unfold n in Hy. simpl in Hy. by injection Hy as <-. }
  assert (M = Qc_of_Z z) as ->; [|apply truncate_whole].
  unfold M, m. rewrite <- H4, <- H1.
  destruct (bool_decide (Qc_of_Z 4 <= Qc_of_Z z)) eqn:H4z.
  - apply bool_decide_eq_true, Z2Qc_inj_le in H4z. assert (z = 4%Z) as -> by lia.
    rewrite bool_decide_eq_true_2; [done|]. apply (proj1 (Z2Qc_inj_le _ _)). lia.
  - rewrite bool_decide_eq_true_2; [done|]. apply (proj1 (Z2Qc_inj_le _ _)). lia.
Qed.

(** src/App.jsx on a price that is no number: the label is empty. *)
Lemma legacy_priceLabel_empty (E : Engine) (s : string) :
  s ≠ "" → StringToNumber E s = NaN → Legacy.priceLabel E (VStr s) = Normal "".
Proof.
  intros Hs Hn. unfold Legacy.priceLabel. simpl.
  destruct (String.eqb_spec s ""); [done|]. simpl. by rewrite Hn.
Qed.

(** ** The order does not depend on the engine *)

Section StableUnique.
Context {A : Type} (comparefn : A → A → num).

#[local] Abbreviation c := (SortCompare comparefn).

Lemma consistent_on_subseteq (l l' : list A) :
  l' ⊆ l → consistent_on comparefn l → consistent_on comparefn l'.
Proof.
  intros Hsub Hc. split.
  - intros a b Ha Hb. apply (cc_number _ _ Hc); auto.
  - intros a Ha. apply (cc_refl _ _ Hc); auto.
  - intros a b Ha Hb. apply (cc_sym _ _ Hc); auto.
  - intros a b d Ha Hb Hd. apply (cc_trans_eq _ _ Hc); auto.
  - intros a b d Ha Hb Hd. apply (cc_trans_lt _ _ Hc); auto.
  - intros a b d Ha Hb Hd. apply (cc_trans_gt _ _ Hc); auto.
Qed.

(** Two arrangements of the same values that are both in the order of a
    consistent comparison function, and in which the values that compare
    equal stand in the same order, are one arrangement. *)
Lemma stable_sorted_unique (l1 l2 : list A) :
  consistent_on comparefn l1 → l1 ≡ₚ l2 →
  StronglySorted (λ a b, c a b <= 0) l1 → StronglySorted (λ a b, c a b <= 0) l2 →
  (∀ a, a ∈ l1 → filter (λ b, c a b = 0) l1 = filter (λ b, c a b = 0) l2) →
  l1 = l2.
Proof.
  revert l2. induction l1 as [|x l1 IH]; intros l2 Hc Hp Hs1 Hs2 Hst.
  { by apply Permutation_nil_l in Hp. }
  destruct l2 as [|y l2]; [by apply Permutation_nil_r in Hp|].
  assert (x ∈ x :: l1) as Hx by (by left).
  assert (y ∈ x :: l1) as Hy by (rewrite Hp; by left).
  apply StronglySorted_inv in Hs1 as [Hs1 Hall1].
  apply StronglySorted_inv in Hs2 as [Hs2 Hall2].
  rewrite Forall_forall in Hall1, Hall2.
  assert (c x y = 0) as Hxy.
  { destruct (proj1 (elem_of_cons _ _ _) Hy) as [->|Hy1]; [by apply (cc_refl _ _ Hc)|].
    assert (x ∈ y :: l2) as Hx2 by (rewrite <- Hp; by left).
    destruct (proj1 (elem_of_cons _ _ _) Hx2) as [->|Hx2']; [by apply (cc_refl _ _ Hc)|].
    pose proof (Hall1 y Hy1) as Hle1. pose proof (Hall2 x Hx2') as Hle2.
    destruct (Qcle_lt_or_eq _ _ Hle1) as [Hlt|Heq]; [|done].
    pose proof (cc_lt_gt comparefn _ Hc x y Hx Hy Hlt) as Hgt.
    exfalso. by apply (Qcle_not_lt _ _ Hle2). }
  assert (x = y) as <-.
  { pose proof (Hst x Hx) as Hf. rewrite !filter_cons in Hf.
    rewrite decide_True in Hf by (by apply (cc_refl _ _ Hc)).
    rewrite decide_True in Hf by done. by injection Hf. }
  f_equal. apply Permutation_cons_inv in Hp.
  apply IH; try done.
  - apply (consistent_on_subseteq (x :: l1)); [|done]. intros z Hz. by right.
  - intros a Ha. assert (a ∈ x :: l1) as Ha' by (by right).
    pose proof (Hst a Ha') as Hf. rewrite !filter_cons in Hf.
    destruct (decide (c a x = 0)); [by injection Hf|done].
Qed.

End StableUnique.

(** For a consistent comparison function two conforming engines return the
    same array. *)
Lemma sort_determined (E1 E2 : Engine) {A} (comparefn : A → A → num) (l : list A) :
  conforming E1 → conforming E2 → consistent_on comparefn l →
  Array_sort E1 comparefn l = Array_sort E2 comparefn l.
Proof.
  intros H1 H2 Hc.
  pose proof (sort_permutation E1 H1 A comparefn l) as Hp1.
  pose proof (sort_permutation E2 H2 A comparefn l) as Hp2.
  apply (stable_sorted_unique comparefn).
  - apply (consistent_on_subseteq comparefn l); [|done]. intros a Ha. by rewrite <- Hp1.
  - by rewrite Hp1, Hp2.
  - by apply (sort_ordered E1 H1).
  - by apply (sort_ordered E2 H2).
  - intros a Ha. rewrite Hp1 in Ha.
    by rewrite (sort_stable E1 H1 A comparefn l Hc a Ha),
               (sort_stable E2 H2 A comparefn l Hc a Ha).
Qed.

Lemma insert_by_ext {A} (f g : A → A → bool) (x : A) (l : list A) :
  (∀ y, y ∈ l → f x y = g x y) → insert_by f x l = insert_by g x l.
Proof.
  induction l as [|y l IH]; intros Hfg; [done|]. simpl.
  rewrite (Hfg y) by (by left). destruct (g x y); [done|].
  f_equal. apply IH. intros z Hz. apply Hfg. by right.
Qed.

Lemma insertion_sort_ext {A} (f g : A → A → bool) (l : list A) :
  (∀ x y, x ∈ l → y ∈ l → f x y = g x y) → insertion_sort f l = insertion_sort g l.
Proof.
  induction l as [|x l IH]; intros Hfg; [done|].
  change (insert_by f x (insertion_sort f l) = insert_by g x (insertion_sort g l)).
  rewrite IH by (intros y z Hy Hz; apply Hfg; by right).
  apply insert_by_ext. intros y Hy. rewrite (insertion_sort_perm g l) in Hy.
  apply Hfg; [by left|by right].
Qed.

(** Two comparison functions that agree on the values of the array, one of
    them consistent: the engine returns the same array for both. *)
Lemma sort_ext (E : Engine) {A} (f g : A → A → num) (l : list A) :
  conforming E → (∀ a b, a ∈ l → b ∈ l → f a b = g a b) → consistent_on g l →
  Array_sort E f l = Array_sort E g l.
Proof.
  intros HE Hfg Hg.
  assert (Hf : consistent_on f l) by (by apply (consistent_ext f g)).
  rewrite (sort_determined E engine_le f l HE engine_le_conforming Hf).
  rewrite (sort_determined E engine_le g l HE engine_le_conforming Hg).
  apply insertion_sort_ext. intros x y Hx Hy. unfold SortCompare. by rewrite Hfg.
Qed.

(** The order of the list does not depend on how the engine sorts.  For
    places whose names and visit dates are text or absent the comparisons
    of the [name] and [recent] sorts do not raise; and under [top], [recent]
    and [name], and under [nearest] without a user location or with valid
    coordinates throughout, an engine with another conforming sort returns
    the same list. *)
Theorem sorted_engine_independent (E : Engine)
    (sort' : ∀ A : Type, (A → A → num) → list A → list A)
    (st : UrlState) (myLoc : option (Qc * Qc)) (l : list place) :
  conforming E → conforming (with_sort E sort') →
  Forall (λ a, is_text (field a "name") ∧ is_text (field a "visitedAt")) l →
  (sort st = "nearest" → myLoc = None ∨ Forall (λ a, valid_coords E a) l) →
  (∀ a b, a ∈ l → b ∈ l →
     name_callback E a b = Normal (name_cmp E a b) ∧
     recent_callback E a b = Normal (recent_cmp E a b)) ∧
  sorted (with_sort E sort') st myLoc l = sorted E st myLoc l.
Proof.
  intros HE HE' Htext Hn. split.
  { rewrite Forall_forall in Htext. intros a b [Ha1 Ha2]%Htext [Hb1 Hb2]%Htext.
    split; by apply localeCompare_call_text. }
  unfold sorted.
  destruct (String.eqb (sort st) "name").
  { apply (sort_determined (with_sort E sort') E (name_cmp E)); [done..|].
    by apply name_cmp_consistent. }
  destruct (String.eqb (sort st) "recent").
  { apply (sort_determined (with_sort E sort') E (recent_cmp E)); [done..|].
    by apply recent_cmp_consistent. }
  destruct (String.eqb_spec (sort st) "nearest") as [Hs|_].
  { destruct myLoc as [loc|]; [|done].
    destruct (Hn Hs) as [?|Hv]; [done|].
    apply (sort_determined (with_sort E sort') E (nearest_cmp E loc)); [done..|].
    by apply nearest_cmp_consistent. }
  apply (sort_determined (with_sort E sort') E (top_cmp E)); [done..|].
  by apply top_cmp_consistent.
Qed.

Lemma sorted_engine_independent_witness :
  conforming engine_le ∧ conforming (with_sort engine_le (@sort_asking_lt)) ∧
  Forall (λ a, is_text (field a "name") ∧ is_text (field a "visitedAt")) Ex.dataset ∧
  sorted engine_lt (Ex.query "name") None Ex.dataset =
  sorted engine_le (Ex.query "name") None Ex.dataset.
Proof.
  assert (Htext : Forall (λ a, is_text (field a "name") ∧ is_text (field a "visitedAt"))
                         Ex.dataset).
  { repeat (apply Forall_cons_2; [split; vm_compute; exact I|]). apply Forall_nil_2. }
  split; [exact engine_le_conforming|]. split; [exact engine_lt_conforming|].
  split; [exact Htext|].
  refine (proj2 (sorted_engine_independent engine_le (@sort_asking_lt) (Ex.query "name")
                   None Ex.dataset engine_le_conforming engine_lt_conforming Htext _)).
  intros Hs. discriminate Hs.
Defined.

(** ** The two copies of App.jsx *)

Lemma Forall_sublist_of {A} (P : A → Prop) (l1 l2 : list A) :
  l1 `sublist_of` l2 → Forall P l2 → Forall P l1.
Proof.
  rewrite !Forall_forall. intros Hsub Hall x Hx. apply Hall.
  by eapply elem_of_sublist.
Qed.

Section LegacyAgrees.
Context (E : Engine) (HE : conforming E).

Lemma loadEdits_object (storage : Storage) (edits : value) :
  loadEdits E storage = Normal edits → (∃ o, edits = VObj o) ∨ (∃ l, edits = VArr l).
Proof.
  unfold loadEdits. destruct storage as [|m]; simpl.
  { intros [= <-]. left. by eexists. }
  destruct (m !! EDITS_KEY) as [raw|]; simpl; [|intros [= <-]; left; by eexists].
  destruct (negb (nonempty raw)); simpl; [intros [= <-]; left; by eexists|].
  destruct (JSON_parse E raw) as [parsed|]; simpl; [|intros [= <-]; left; by eexists].
  destruct (ToBoolean parsed && String.eqb (typeof parsed) "object") eqn:Hobj.
  - intros [= <-]. by apply typeof_object.
  - intros [= <-]. left. by eexists.
Qed.

Lemma legacy_keep (st : UrlState) (qq : string) (p : place) :
  is_number (field p "price") → Legacy.keep E st qq p = keep E st qq p.
Proof.
  intros Hp. unfold Legacy.keep, keep. by rewrite (legacy_price_rejects E st p Hp).
Qed.

Lemma legacy_filtered (st : UrlState) (ps : list place) :
  Forall (λ p, is_number (field p "price")) ps →
  Legacy.filtered E st ps = filtered E st ps.
Proof.
  unfold Legacy.filtered, filtered. induction 1 as [|p ps Hp _ IH]; [done|].
  simpl. by rewrite legacy_keep, IH.
Qed.

Lemma legacy_top_cmp (a b : place) :
  is_number (field a "rating") → is_number (field b "rating") →
  Legacy.top_cmp E a b = top_cmp E a b.
Proof.
  intros Ha Hb. unfold Legacy.top_cmp, top_cmp, top_key, or_else.
  destruct (field a "rating") as [| |?|x|?|?|?], (field b "rating") as [| |?|y|?|?|?];
    simpl in *; try done;
    repeat (destruct (bool_decide (_ = 0))); simpl; done.
Qed.

Lemma legacy_nearest_cmp (loc : Qc * Qc) (a b : place) :
  valid_coords E a → valid_coords E b →
  Legacy.nearest_cmp E loc a b = nearest_cmp E loc a b.
Proof.
  unfold valid_coords, Legacy.nearest_cmp, nearest_cmp, Legacy.distance, distance.
  destruct (ToNumber E (field a "lat")), (ToNumber E (field a "lon")),
    (ToNumber E (field b "lat")), (ToNumber E (field b "lon")); done.
Qed.

Lemma legacy_sorted (st : UrlState) (myLoc : option (Qc * Qc)) (l : list place) :
  Forall (λ p, is_number (field p "rating")) l →
  (sort st = "nearest" → myLoc = None ∨ Forall (λ a, valid_coords E a) l) →
  Legacy.sorted E st myLoc l = sorted E st myLoc l.
Proof.
  intros Hr Hn. unfold Legacy.sorted, sorted. rewrite Forall_forall in Hr.
  destruct (String.eqb (sort st) "name"); [done|].
  destruct (String.eqb (sort st) "recent"); [done|].
  destruct (String.eqb_spec (sort st) "nearest") as [Hs|_].
  { destruct myLoc as [loc|]; [|done].
    destruct (Hn Hs) as [?|Hv]; [done|].
    apply sort_ext; [done| |by apply nearest_cmp_consistent].
    rewrite Forall_forall in Hv. intros a b Ha Hb. apply legacy_nearest_cmp; auto. }
  apply sort_ext; [done| |by apply top_cmp_consistent].
  intros a b Ha Hb. apply legacy_top_cmp; auto.
Qed.

End LegacyAgrees.

(** The two copies agree on the data model.  src/App.jsx merges every
    overlay that [loadEdits] returns as the hardened copy does; it lists the
    places of a dataset of the data model whose ratings are numbers or
    absent in the same order, unless the sort is [nearest] with a user
    location and a place without valid coordinates; and it labels a price
    that converts to a number alike. *)
Theorem legacy_copy_agrees (E : Engine) :
  conforming E →
  (∀ storage edits basePlaces,
     loadEdits E storage = Normal edits →
     Legacy.places E basePlaces edits = Normal (places E basePlaces edits)) ∧
  (∀ st myLoc ps,
     Forall well_formed ps → Forall (λ p, is_number (field p "rating")) ps →
     (sort st = "nearest" → myLoc = None ∨ Forall (λ a, valid_coords E a) ps) →
     Legacy.listed E st myLoc ps = listed E st myLoc ps) ∧
  (∀ p, isFinite (ToNumber E p) → Legacy.priceLabel E p = priceLabel E p).
Proof.
  intros HE. split; [|split].
  - intros storage edits basePlaces [[o ->]|[l ->]]%loadEdits_object;
      unfold Legacy.places; by destruct basePlaces.
  - intros st myLoc ps Hwf Hr Hn. unfold Legacy.listed, listed.
    rewrite legacy_filtered.
    2:{ eapply Forall_impl; [exact Hwf|]. intros p Hp.
        unfold well_formed in Hp. rewrite !andb_True in Hp. tauto. }
    destruct (filtered E st ps) as [flt|] eqn:Hflt; [|done]. simpl. f_equal.
    pose proof (filter_c_sublist _ _ _ Hflt) as Hsub.
    apply legacy_sorted; [done|..].
    + by eapply Forall_sublist_of.
    + intros Hs. destruct (Hn Hs) as [?|Hv]; [by left|right].
      by eapply Forall_sublist_of.
  - intros p Hp. unfold Legacy.priceLabel, priceLabel.
    by destruct (ToNumber E p).
Qed.

Lemma legacy_copy_agrees_witness :
  conforming engine_le ∧
  Legacy.listed engine_le (Ex.query "top") None Ex.dataset =
  listed engine_le (Ex.query "top") None Ex.dataset.
Proof.
  split; [exact engine_le_conforming|].
  refine (proj1 (proj2 (legacy_copy_agrees engine_le engine_le_conforming))
            (Ex.query "top") None Ex.dataset dataset_well_formed _ _).
  - repeat constructor.
  - intros Hs. discriminate Hs.
Defined.

(** ** The list of cards *)

(** The cards are places of the dataset.  Whatever the query, the sort, the
    user location and the engine, every listed place is a place of the
    dataset and none is listed more often than it is there; so the count of
    the cards is at most the count of the places. *)
Theorem listed_of_dataset (E : Engine) (st : UrlState) (myLoc : option (Qc * Qc))
    (ps out : list place) :
  conforming E → listed E st myLoc ps = Normal out →
  out ⊆+ ps ∧ (length out ≤ length ps)%nat.
Proof.
  intros HE. unfold listed.
  destruct (filtered E st ps) as [flt|] eqn:Hflt; [|done]. simpl. intros [= <-].
  assert (sorted E st myLoc flt ⊆+ ps) as Hsub.
  { rewrite (sorted_permutation E HE). apply sublist_submseteq.
    by apply (filter_c_sublist _ _ _ Hflt). }
  split; [done|]. by apply submseteq_length.
Qed.

Lemma listed_of_dataset_witness :
  conforming engine_le ∧
  listed engine_le Ex.rated_four None Ex.dataset = Normal [Ex.noodle_bar; Ex.izakaya] ∧
  [Ex.noodle_bar; Ex.izakaya] ⊆+ Ex.dataset.
Proof.
  assert (H : listed engine_le Ex.rated_four None Ex.dataset =
              Normal [Ex.noodle_bar; Ex.izakaya]) by (vm_compute; reflexivity).
  split; [exact engine_le_conforming|]. split; [exact H|].
  exact (proj1 (listed_of_dataset engine_le Ex.rated_four None Ex.dataset _
                  engine_le_conforming H)).
Defined.

(** A higher minimum rating lists no more.  Of two minimum ratings, the
    filter with the higher one keeps a sublist of what it keeps with the
    lower one. *)
Theorem minRating_monotone (E : Engine) (st : UrlState) (m1 m2 : Qc)
    (ps out1 out2 : list place) :
  m1 <= m2 →
  filtered E (setMinRating (Fin m1) st) ps = Normal out1 →
  filtered E (setMinRating (Fin m2) st) ps = Normal out2 →
  out2 `sublist_of` out1.
Proof.
  intros Hm H1 H2. unfold filtered in H1, H2. simpl q in H1, H2.
  eapply filter_c_mono; [|exact H2|exact H1].
  intros p _. unfold keep, reject_if, setMinRating.
  cbn [q city cuisine neighborhood tag minRating price wouldReturn sort bind].
  destruct (nonempty (city st) && _); [done|].
  destruct (nonempty (neighborhood st) && _); [done|].
  destruct (and_then (nonempty (cuisine st)) _) as [[]|]; try done. cbn [bind].
  destruct (and_then (nonempty (tag st)) _) as [[]|]; try done. cbn [bind].
  destruct (num_ltb (Fin 0) (price st) && _); [done|].
  destruct (wouldReturn st && _); [done|].
  destruct (num_ltb (Fin 0) (Fin m2) && num_ltb (rating_or_zero p) (Fin m2)) eqn:H2m;
    [done|].
  assert (num_ltb (Fin 0) (Fin m1) && num_ltb (rating_or_zero p) (Fin m1) = false) as ->;
    [|done].
  rewrite rating_or_zero_spec in *. simpl in *.
  rewrite andb_false_iff, !bool_decide_eq_false in *.
  destruct (decide (0 < m1)) as [Hpos|?]; [right|by left].
  intros Hr. destruct H2m as [Hn|Hn]; apply Hn.
  - by apply (Qclt_le_trans _ m1).
  - by apply (Qclt_le_trans _ m1).
Qed.

Lemma minRating_monotone_witness :
  filtered engine_le (setMinRating (Fin (Q2Qc 3)) (Ex.query "top")) Ex.dataset =
    Normal Ex.dataset ∧
  filtered engine_le (setMinRating (Fin (Q2Qc 4.5)) (Ex.query "top")) Ex.dataset =
    Normal [Ex.noodle_bar] ∧
  [Ex.noodle_bar] `sublist_of` Ex.dataset.
Proof.
  assert (H1 : filtered engine_le (setMinRating (Fin (Q2Qc 3)) (Ex.query "top"))
                 Ex.dataset = Normal Ex.dataset) by (vm_compute; reflexivity).
  assert (H2 : filtered engine_le (setMinRating (Fin (Q2Qc 4.5)) (Ex.query "top"))
                 Ex.dataset = Normal [Ex.noodle_bar]) by (vm_compute; reflexivity).
  split; [exact H1|]. split; [exact H2|].
  refine (minRating_monotone engine_le (Ex.query "top") (Q2Qc 3) (Q2Qc 4.5)
            Ex.dataset _ _ _ H1 H2).
  vm_compute. discriminate.
Defined.

(** * Properties of the script that adds a place *)

(** ** The slug of an identifier *)

Lemma slug_letter_hyphen : AddPlace.is_slug_letter "-" = false.
Proof. reflexivity. Qed.

Lemma hyphenate_single (s : string) (in_run : bool) :
  single_hyphens (AddPlace.hyphenate in_run s) = true ∧
  (in_run = true → starts_with "-" (AddPlace.hyphenate in_run s) = false).
Proof.
  revert in_run. induction s as [|c s IH]; intros in_run; [done|].
  cbn [AddPlace.hyphenate]. destruct (AddPlace.is_slug_letter c) eqn:Hc.
  - destruct (IH false) as [H1 _]. cbn [single_hyphens]. rewrite Hc, H1. split; [done|].
    intros _. cbn [starts_with]. destruct (Ascii.eqb_spec "-" c) as [<-|]; done.
  - destruct (IH true) as [H1 H2]. destruct in_run.
    + split; [done|]. intros _. by apply H2.
    + split; [|done]. cbn [single_hyphens]. by rewrite H1, H2.
Qed.

Lemma strip_start_single (s : string) :
  single_hyphens s = true →
  single_hyphens (AddPlace.strip_start s) = true ∧
  starts_with "-" (AddPlace.strip_start s) = false.
Proof.
  destruct s as [|c s]; [done|]. cbn [AddPlace.strip_start single_hyphens].
  intros [H1 H2]%andb_prop. destruct (Ascii.eqb_spec c "-") as [->|Hc].
  - split; [done|]. rewrite slug_letter_hyphen in H1.
    by apply negb_true_iff in H1.
  - rewrite andb_false_l, orb_false_r in H1.
    split; [cbn [single_hyphens]; by rewrite H1, H2|].
    cbn [starts_with]. destruct (Ascii.eqb_spec "-" c) as [<-|]; done.
Qed.

Lemma strip_end_start (s : string) :
  starts_with "-" s = false → starts_with "-" (AddPlace.strip_end s) = false.
Proof.
  destruct s as [|c [|d s]]; [done| |done].
  cbn [AddPlace.strip_end]. by destruct (Ascii.eqb c "-").
Qed.

Lemma strip_end_single (s : string) :
  single_hyphens s = true →
  single_hyphens (AddPlace.strip_end s) = true ∧ ends_hyphen (AddPlace.strip_end s) = false.
Proof.
  induction s as [|c s IH]; [done|]. intros Hs.
  destruct s as [|d s].
  - cbn [AddPlace.strip_end]. destruct (Ascii.eqb c "-") eqn:Hc; [done|].
    split; [done|]. cbn [ends_hyphen]. done.
  - change (AddPlace.strip_end (String c (String d s)))
      with (String c (AddPlace.strip_end (String d s))).
    cbn [single_hyphens] in Hs. apply andb_prop in Hs as [H1 H2].
    destruct (IH H2) as [H3 H4]. split.
    + cbn [single_hyphens]. rewrite H3, andb_true_r.
      apply orb_prop in H1 as [H1|[H1 H5]%andb_prop]; [by rewrite H1|].
      rewrite H1, (strip_end_start (String d s)), orb_true_r; [done|].
      by destruct (starts_with "-" (String d s)).
    + destruct (AddPlace.strip_end (String d s)) as [|e t] eqn:He; [|done].
      cbn [ends_hyphen].
      assert (d = "-"%char ∧ s = EmptyString) as [-> ->].
      { destruct s as [|d' s]; cbn [AddPlace.strip_end] in He.
        - destruct (Ascii.eqb_spec d "-"); [done|discriminate].
        - discriminate. }
      apply orb_prop in H1 as [H1|[_ H5]%andb_prop]; [|done].
      destruct (Ascii.eqb_spec c "-") as [->|]; [done|done].
Qed.

Lemma ends_hyphen_app (u : string) : ends_hyphen (u ++ "-") = true.
Proof.
  induction u as [|c u IH]; [done|].
  change (String c u ++ "-") with (String c (u ++ "-")). cbn [ends_hyphen].
  destruct (u ++ "-") eqn:Hu; [|done]. by destruct u.
Qed.

Lemma single_hyphens_occurs (s : string) (c : ascii) :
  single_hyphens s = true → occurs c s = true →
  AddPlace.is_slug_letter c = true ∨ c = "-"%char.
Proof.
  induction s as [|d s IH]; [done|]. cbn [single_hyphens occurs].
  intros [H1 H2]%andb_prop [Hc|Hc]%orb_prop; [|by apply IH].
  apply Ascii.eqb_eq in Hc as ->.
  apply orb_prop in H1 as [H1|[H1 _]%andb_prop]; [by left|right].
  by apply Ascii.eqb_eq.
Qed.

Lemma single_hyphens_pair (s : string) :
  single_hyphens s = true → str_includes s "--" = false.
Proof.
  induction s as [|c s IH]; [done|]. cbn [single_hyphens].
  intros [H1 H2]%andb_prop.
  change (str_includes (String c s) "--")
    with (starts_with "--" (String c s) || str_includes s "--").
  rewrite (IH H2), orb_false_r.
  change (starts_with "--" (String c s)) with (Ascii.eqb "-" c && starts_with "-" s).
  apply orb_prop in H1 as [H1|[_ H1]%andb_prop].
  - destruct (Ascii.eqb_spec "-" c) as [<-|]; done.
  - destruct (starts_with "-" s); [done|]. by rewrite andb_false_r.
Qed.

(** The shape of a slug.  Whatever value [slugify] is given, the slug
    consists of the characters a-z, 0-9 and hyphens only, it neither begins
    nor ends with a hyphen, and no two hyphens follow each other. *)
Theorem slugify_shape (E : Engine) (s : value) :
  (∀ c, occurs c (AddPlace.slugify E s) = true →
        AddPlace.is_slug_letter c = true ∨ c = "-"%char) ∧
  starts_with "-" (AddPlace.slugify E s) = false ∧
  (∀ u, AddPlace.slugify E s ≠ u ++ "-") ∧
  str_includes (AddPlace.slugify E s) "--" = false.
Proof.
  unfold AddPlace.slugify.
  set (t := toLowerCase E _).
  destruct (hyphenate_single t false) as [H1 _].
  destruct (strip_start_single _ H1) as [H2 H3].
  destruct (strip_end_single _ H2) as [H4 H5].
  split; [|split; [|split]].
  - intros c. by apply single_hyphens_occurs.
  - by apply strip_end_start.
  - intros u Hu. rewrite Hu, ends_hyphen_app in H5. done.
  - by apply single_hyphens_pair.
Qed.

(** ** The tags and the cuisines *)










(** ** The choice among the results of the geocoder *)








(** ** The duplicate check and the write *)

Lemma get_object (E : Engine) (o : place) (k : string) : get E (VObj o) k = field o k.
Proof.
  unfold get, field. cbn [own_props]. destruct (o !! k); [done|].
  by destruct (String.eqb k "length").
Qed.

Lemma folded_name_text (E : Engine) (v : value) :
  is_text v → ∃ n, AddPlace.folded_name E v = Normal n.
Proof.
  unfold AddPlace.folded_name, or_else.
  destruct v as [| |b|x|s|l|o]; try done; intros _; simpl; [by eexists..|].
  destruct (negb (String.eqb s "")); by eexists.
Qed.


Lemma some_c_app {A} (f : A → completion bool) (l1 l2 : list A) :
  AddPlace.some_c f (l1 ++ l2) =
  bind (AddPlace.some_c f l1) (λ b, if b then Normal true else AddPlace.some_c f l2).
Proof.
  induction l1 as [|x l1 IH]; [done|].
  cbn [app AddPlace.some_c]. destruct (f x) as [[|]|]; cbn [bind]; [done| |done].
  apply IH.
Qed.


Lemma close_to_candidate (E : Engine) (fl : Qc → Qc) (v : value) (c c' : place) :
  field c' "lat" = field c "lat" → field c' "lon" = field c "lon" →
  AddPlace.close_to E fl v (VObj c') = AddPlace.close_to E fl v (VObj c).
Proof. intros H1 H2. unfold AddPlace.close_to. by rewrite !get_object, H1, H2. Qed.

Lemma isNearDuplicate_candidate (E : Engine) (fl : Qc → Qc) (l : list value)
    (c c' : place) :
  field c' "name" = field c "name" →
  field c' "lat" = field c "lat" → field c' "lon" = field c "lon" →
  AddPlace.isNearDuplicate E fl l (VObj c') = AddPlace.isNearDuplicate E fl l (VObj c).
Proof.
  intros H0 H1 H2. unfold AddPlace.isNearDuplicate. cbn [AddPlace.member bind].
  rewrite !get_object, H0.
  destruct (AddPlace.folded_name E (field c "name")) as [nameA|]; [|done]. cbn [bind].
  induction l as [|v l IH]; [done|]. cbn [AddPlace.some_c].
  rewrite (close_to_candidate E fl v c c' H1 H2), IH. done.
Qed.

Lemma close_to_itself (E : Engine) (fl : Qc → Qc) (c : place) (a b : Qc) :
  rounds fl → 0 < fl (Q2Qc 0.0006) →
  field c "lat" = VNum a → field c "lon" = VNum b →
  AddPlace.close_to E fl (VObj c) (VObj c) = true.
Proof.
  intros Hfl Hpos H1 H2. unfold AddPlace.close_to. rewrite !get_object, H1, H2.
  cbn [ToNumber AddPlace.minus num_sub AddPlace.Math_abs num_ltb].
  assert (Hz : ∀ x : Qc, fl (x - x) = 0).
  { intros x. replace (x - x) with (Qc_of_Z 0) by (rewrite Z2Qc_inj_0; ring).
    rewrite (fl_whole fl Hfl) by done. by rewrite Z2Qc_inj_0. }
  rewrite !Hz.
  rewrite (bool_decide_eq_false_2 (0 < 0)) by (by apply Qcle_not_lt).
  by rewrite bool_decide_eq_true_2.
Qed.

Lemma add_place_inv (E : Engine) (fl : Qc → Qc) (file : option string) (np : place)
    (written : list value) :
  AddPlace.add_place E fl file np = Normal (Some written) →
  ∃ existing, AddPlace.safeReadJSON E file = Normal existing ∧
              AddPlace.isNearDuplicate E fl existing (VObj np) = Normal false ∧
              written = (existing ++ [VObj np])%list.
Proof.
  unfold AddPlace.add_place.
  destruct (AddPlace.safeReadJSON E file) as [existing|]; [|intros [=]]. cbn [bind].
  destruct (AddPlace.isNearDuplicate E fl existing (VObj np)) as [[|]|] eqn:Hd;
    cbn [bind]; [intros [=]| |intros [=]].
  intros [= <-]. by exists existing.
Qed.

(** The same place is not added twice.  When a run of the script wrote
    the dataset with a new place that has a name, not empty after trimming,
    and numbers for its coordinates, a later run that reads that dataset
    and builds a place with the same name and coordinates takes it for a
    duplicate and writes nothing.  The differences of the coordinates are
    rounded as double arithmetic rounds them, and the literal 0.0006 is
    read as a positive double. *)
Theorem add_place_no_double (E : Engine) (fl : Qc → Qc) (file : option string)
    (np np' : place) (written : list value) (text : string) (a b : Qc) :
  rounds fl → 0 < fl (Q2Qc 0.0006) →
  AddPlace.add_place E fl file np = Normal (Some written) →
  trim E text ≠ "" → JSON_parse E (trim E text) = Some (VArr written) →
  AddPlace.folded_name E (field np "name") ≠ Normal "" →
  field np "lat" = VNum a → field np "lon" = VNum b →
  field np' "name" = field np "name" →
  field np' "lat" = field np "lat" → field np' "lon" = field np "lon" →
  AddPlace.add_place E fl (Some text) np' = Normal None.
Proof.
  intros Hfl Hpos (existing & _ & Hdup & ->)%add_place_inv Ht Hparse Hname Hlat Hlon
    H0 H1 H2.
  unfold AddPlace.add_place, AddPlace.safeReadJSON. unfold nonempty.
  destruct (String.eqb_spec (trim E text) ""); [done|]. cbn [negb].
  rewrite Hparse. cbn [bind].
  rewrite (isNearDuplicate_candidate E fl _ np np' H0 H1 H2).
  revert Hdup. unfold AddPlace.isNearDuplicate. cbn [AddPlace.member bind].
  rewrite get_object.
  destruct (AddPlace.folded_name E (field np "name")) as [nameA|] eqn:HA; [|intros [=]].
  cbn [bind]. intros Hdup. rewrite some_c_app, Hdup. cbn [bind AddPlace.some_c].
  cbn [AddPlace.member bind]. rewrite get_object, HA. cbn [bind].
  unfold nonempty. destruct (String.eqb_spec nameA "") as [->|]; [done|].
  cbn [negb orb]. by rewrite String.eqb_refl, (close_to_itself E fl np a b).
Qed.

(** What the script writes.  For a new place whose name is text or
    absent: without a dataset file, or with a blank one, the script writes
    the array of the new place alone; it writes the same when the file
    holds JSON that is no array, so that what the file held is lost; when
    the file holds text that is no JSON, the script raises and writes
    nothing; and when the file holds an array, whatever is written is that
    array followed by the new place. *)
Theorem add_place_written (E : Engine) (fl : Qc → Qc) (np : place) :
  is_text (field np "name") →
  AddPlace.add_place E fl None np = Normal (Some [VObj np]) ∧
  (∀ text, trim E text = "" →
     AddPlace.add_place E fl (Some text) np = Normal (Some [VObj np])) ∧
  (∀ text v, trim E text ≠ "" → JSON_parse E (trim E text) = Some v →
     (∀ l, v ≠ VArr l) →
     AddPlace.add_place E fl (Some text) np = Normal (Some [VObj np])) ∧
  (∀ text, trim E text ≠ "" → JSON_parse E (trim E text) = None →
     AddPlace.add_place E fl (Some text) np = Throw) ∧
  (∀ text old written, trim E text ≠ "" →
     JSON_parse E (trim E text) = Some (VArr old) →
     AddPlace.add_place E fl (Some text) np = Normal (Some written) →
     written = (old ++ [VObj np])%list).
Proof.
  intros Hname.
  assert (Hnew : bind (AddPlace.isNearDuplicate E fl [] (VObj np)) (λ duplicate,
                   Normal (if duplicate then None else Some ([] ++ [VObj np])%list)) =
                 Normal (Some [VObj np])).
  { unfold AddPlace.isNearDuplicate. cbn [AddPlace.member bind]. rewrite get_object.
    by destruct (folded_name_text E _ Hname) as [nameA ->]. }
  unfold AddPlace.add_place, AddPlace.safeReadJSON, nonempty.
  split; [exact Hnew|]. split; [|split; [|split]].
  - intros text ->. exact Hnew.
  - intros text v Ht Hv Harr. destruct (String.eqb_spec (trim E text) ""); [done|].
    cbn [negb]. rewrite Hv. destruct v; try exact Hnew. by destruct (Harr l).
  - intros text Ht Hv. destruct (String.eqb_spec (trim E text) ""); [done|].
    cbn [negb]. by rewrite Hv.
  - intros text old written Ht Hv. destruct (String.eqb_spec (trim E text) ""); [done|].
    cbn [negb]. rewrite Hv. cbn [bind].
    destruct (AddPlace.isNearDuplicate E fl old (VObj np)) as [[|]|];
      cbn [bind]; [intros [=]| |intros [=]].
    by intros [= <-].
Qed.


Lemma add_place_no_double_witness :
  AddPlace.add_place engine_le Float.binary64 None Ex.added = Normal (Some [VObj Ex.added]) ∧
  AddPlace.add_place engine_le Float.binary64 (Some Ex.dataset_text) Ex.added = Normal None.
Proof.
  assert (H1 : AddPlace.add_place engine_le Float.binary64 None Ex.added = Normal (Some [VObj Ex.added]))
    by (vm_compute; reflexivity).
  split; [exact H1|].
  assert (Hpos : 0 < Float.binary64 (Q2Qc 0.0006)) by (vm_compute; reflexivity).
  apply (add_place_no_double engine_le Float.binary64 None Ex.added Ex.added
           [VObj Ex.added] Ex.dataset_text (Q2Qc 47.6097) (Q2Qc (-122.3331))
           binary64_rounds Hpos H1).
  - vm_compute. discriminate.
  - vm_compute. reflexivity.
  - vm_compute. discriminate.
  - vm_compute. reflexivity.
  - vm_compute. reflexivity.
  - reflexivity.
  - reflexivity.
  - reflexivity.
Defined.

Lemma add_place_written_witness :
  is_text (field Ex.added "name") ∧
  AddPlace.add_place engine_le Float.binary64 None Ex.added = Normal (Some [VObj Ex.added]).
Proof.
  assert (H : is_text (field Ex.added "name")) by (vm_compute; exact I).
  split; [exact H|]. exact (proj1 (add_place_written engine_le Float.binary64 Ex.added H)).
Defined.

(** ** The place that is built *)

Lemma or_else_text (a b : value) : is_text a → is_text b → is_text (or_else a b).
Proof. unfold or_else. by destruct (ToBoolean a). Qed.

Lemma is_labels_strings (l : list string) : is_labels (VArr (VStr <$> l)).
Proof. cbn [is_labels]. by induction l. Qed.

Lemma record_fields
    (v_id v_name v_address v_lat v_lon v_city v_neighborhood v_cuisine
     v_tags v_visitedAt v_price v_rating v_wouldReturn v_notes v_website v_phone : value) :
  let np : place :=
    <[ "id" := v_id ]>
    (<[ "name" := v_name ]>
    (<[ "address" := v_address ]>
    (<[ "lat" := v_lat ]>
    (<[ "lon" := v_lon ]>
    (<[ "city" := v_city ]>
    (<[ "neighborhood" := v_neighborhood ]>
    (<[ "cuisine" := v_cuisine ]>
    (<[ "tags" := v_tags ]>
    (<[ "visitedAt" := v_visitedAt ]>
    (<[ "price" := v_price ]>
    (<[ "rating" := v_rating ]>
    (<[ "wouldReturn" := v_wouldReturn ]>
    (<[ "notes" := v_notes ]>
    (<[ "website" := v_website ]>
    (<[ "phone" := v_phone ]>
     ∅))))))))))))))) in
  field np "id" = v_id ∧
  field np "name" = v_name ∧
  field np "address" = v_address ∧
  field np "lat" = v_lat ∧
  field np "lon" = v_lon ∧
  field np "city" = v_city ∧
  field np "neighborhood" = v_neighborhood ∧
  field np "cuisine" = v_cuisine ∧
  field np "tags" = v_tags ∧
  field np "visitedAt" = v_visitedAt ∧
  field np "price" = v_price ∧
  field np "rating" = v_rating ∧
  field np "wouldReturn" = v_wouldReturn ∧
  field np "notes" = v_notes.
Proof. vm_compute. repeat split. Qed.

(** The place that is built fits the data model.  For a chosen result
    whose name, address and locality properties are text or absent, and
    whatever the point of interest is, the script builds a place (it does
    not raise) that fits the data model of the application, with a string
    for its identifier, without rating, price and would-return mark, and
    with the coordinates of the result. *)
Theorem newPlace_well_formed (E : Engine) (o : place) (poi : value) (now : Qc)
    (today : string) :
  Forall (λ k, is_text (field o k))
    ["name"; "formatted"; "city"; "town"; "village"; "hamlet"; "municipality";
     "locality"; "neighbourhood"; "neighborhood"; "suburb"; "district"; "quarter";
     "borough"; "city_district"] →
  ∃ np, AddPlace.newPlace E (VObj o) poi now today = Normal np ∧
        well_formed np ∧
        (∃ id, field np "id" = VStr id) ∧
        field np "rating" = VNull ∧ field np "price" = VNull ∧
        field np "wouldReturn" = VNull ∧
        field np "lat" = field o "lat" ∧ field np "lon" = field o "lon".
Proof.
  intros Ho. rewrite Forall_forall in Ho.
  assert (Ht : ∀ k, k ∈ ["name"; "formatted"; "city"; "town"; "village"; "hamlet";
                        "municipality"; "locality"; "neighbourhood"; "neighborhood";
                        "suburb"; "district"; "quarter"; "borough"; "city_district"] →
               is_text (get E (VObj o) k)).
  { intros k Hk. rewrite get_object. by apply Ho. }
  clear Ho.
  unfold AddPlace.newPlace.
  set (derived := AddPlace.deriveTagsAndCuisine E _).
  assert (Hd : ∃ d, derived = Normal d) by (by eexists).
  destruct Hd as [d ->]. cbn [bind AddPlace.pickCity AddPlace.pickNeighborhood].
  eexists. split; [reflexivity|].
  lazymatch goal with
  | |- context [well_formed
         (insert _ ?v1 (insert _ ?v2 (insert _ ?v3 (insert _ ?v4 (insert _ ?v5
         (insert _ ?v6 (insert _ ?v7 (insert _ ?v8 (insert _ ?v9 (insert _ ?v10
         (insert _ ?v11 (insert _ ?v12 (insert _ ?v13 (insert _ ?v14 (insert _ ?v15
         (insert _ ?v16 _))))))))))))))))] =>
      pose proof (record_fields v1 v2 v3 v4 v5 v6 v7 v8 v9 v10 v11 v12 v13 v14 v15 v16)
        as Hf
  end.
  cbv zeta in Hf. revert Hf.
  lazymatch goal with |- context [well_formed ?m] => generalize m end.
  intros np (F1 & F2 & F3 & F4 & F5 & F6 & F7 & F8 & F9 & F10 & F11 & F12 & F13 & F14).
  unfold well_formed.
  rewrite F1, F2, F3, F4, F5, F6, F7, F8, F9, F10, F11, F12, F13, F14.
  split; [|repeat split; try done; try apply get_object; by eexists].
  rewrite !andb_True. repeat split;
    try done; try apply is_labels_strings;
    repeat (apply or_else_text; [apply Ht; set_solver|]);
    try done; apply Ht; set_solver.
Qed.

Lemma newPlace_well_formed_witness :
  ∃ np, AddPlace.newPlace engine_le (VObj Ex.geocoded) VNull (Qc_of_Z 1700000000000)
                          "2024-01-01" = Normal np ∧
        well_formed np.
Proof.
  destruct (newPlace_well_formed engine_le Ex.geocoded VNull (Qc_of_Z 1700000000000)
              "2024-01-01") as (np & H1 & H2 & _).
  - repeat (apply Forall_cons_2; [vm_compute; exact I|]). apply Forall_nil_2.
  - exists np. split; [exact H1|exact H2].
Defined.
